(** * Product viewer: interaction core, AR placement, registry and UI helpers

    A shallow embedding of the JavaScript sources of the viewer:

    - [InteractionManager] (class [InteractionManager], mouse / touch / XR
      controller manipulation of the loaded parts),
    - [App] (class [App]: model registry, AR tap-to-place, render loop),
    - [UiControls] (recent colours, the Reset button),
    - [TouchRotation] and [Upload] (class [App]: rotation by touch, the
      names of uploaded files), [RenderLoop] (runs of render frames),
    - [Modal] (modalManager.js: the overlay and its timers),
    - [Materials] (uiControls.js: the colour picker).

    JavaScript objects are mutable and shared by reference.  Scene-graph
    nodes, arrays and orbit-controls instances therefore live in a [World]
    store and are named by identifiers; handlers are functions on the store
    and on the owning object's fields.

    Numbers are exact rationals ([Qc]): vector and quaternion arithmetic is
    that of three.js without rounding.  Where rounding decides (the net
    effect of accumulated drag deltas, the product of a quaternion with its
    conjugate) the theorems state what the handlers compute, operation by
    operation, with no law of arithmetic, and the arithmetic is replayed in
    binary64, the numbers of JavaScript ([Doubles]).  What
    three.js computes from the camera and the geometry (ray casts, ray/plane
    intersections, XR hit tests) enters every handler as part of the event it
    handles. *)

From Stdlib Require PrimFloat.
From Stdlib Require Import QArith Qcanon.
From stdpp Require Import base numbers list strings gmap.

(** ** The three.js value types used by the handlers *)

Module Three.

Local Open Scope Qc_scope.

Record Vector3 := mkVector3 { x : Qc; y : Qc; z : Qc }.

Record Quaternion := mkQuaternion { qx : Qc; qy : Qc; qz : Qc; qw : Qc }.

Definition zero3 : Vector3 := mkVector3 0 0 0.
Definition one3 : Vector3 := mkVector3 1 1 1.

(** [Vector3.add], [Vector3.subVectors], [Vector3.multiplyScalar]. *)
Definition add (a b : Vector3) : Vector3 :=
  mkVector3 (x a + x b) (y a + y b) (z a + z b).

Definition subVectors (a b : Vector3) : Vector3 :=
  mkVector3 (x a - x b) (y a - y b) (z a - z b).

Definition multiplyScalar (a : Vector3) (s : Qc) : Vector3 :=
  mkVector3 (x a * s) (y a * s) (z a * s).

(** [new THREE.Quaternion()] is the identity rotation. *)
Definition identity : Quaternion := mkQuaternion 0 0 0 1.

(** [Quaternion.multiply]: [a.multiply(b)] is the Hamilton product a·b. *)
Definition multiply (a b : Quaternion) : Quaternion :=
  mkQuaternion
    (qx a * qw b + qw a * qx b + qy a * qz b - qz a * qy b)
    (qy a * qw b + qw a * qy b + qz a * qx b - qx a * qz b)
    (qz a * qw b + qw a * qz b + qx a * qy b - qy a * qx b)
    (qw a * qw b - qx a * qx b - qy a * qy b - qz a * qz b).

(** [Quaternion.invert] is the conjugate: three.js takes the quaternion to
    have unit length. *)
Definition invert (a : Quaternion) : Quaternion :=
  mkQuaternion (- qx a) (- qy a) (- qz a) (qw a).

Definition lengthSq (a : Quaternion) : Qc :=
  qx a * qx a + qy a * qy a + qz a * qz a + qw a * qw a.

#[global] Instance Vector3_eq_dec : EqDecision Vector3.
Proof. solve_decision. Defined.

#[global] Instance Quaternion_eq_dec : EqDecision Quaternion.
Proof. solve_decision. Defined.

End Three.


(** ** The shared store: scene graph, arrays, orbit controls *)

Module Store.
Import Three.

(** Identity of a scene-graph node ([THREE.Object3D]), of a JavaScript
    array and of an [OrbitControls] instance. *)
Definition ObjId := nat.
Definition ArrRef := nat.
Definition CtlRef := nat.

(** The fields of [Object3D] that the handlers read or write.
    [originalScale] is [userData.originalScale].  three.js keeps [rotation]
    (Euler angles) and [quaternion] in step: setting the Euler angles to
    zero makes the quaternion the identity, which is represented; the
    conversion of a written quaternion back to Euler angles is
    trigonometric and is not, so [rotation] is only meaningful for nodes
    whose [quaternion] the model has not written. *)
Record Object3D := mkObject3D {
  name : string;
  parent : option ObjId;
  children : list ObjId;
  position : Vector3;
  rotation : Vector3;
  quaternion : Quaternion;
  scale : Vector3;
  visible : bool;
  originalScale : option Vector3;
}.

#[global] Instance Object3D_inhabited : Inhabited Object3D :=
  populate (mkObject3D "" None [] zero3 zero3 identity one3 true None).

(** [new THREE.Group()] with a name. *)
Definition newGroup (n : string) : Object3D :=
  mkObject3D n None [] zero3 zero3 identity one3 true None.

Definition with_parent (p : option ObjId) (o : Object3D) : Object3D :=
  mkObject3D (name o) p (children o) (position o) (rotation o)
    (quaternion o) (scale o) (visible o) (originalScale o).
Definition with_children (c : list ObjId) (o : Object3D) : Object3D :=
  mkObject3D (name o) (parent o) c (position o) (rotation o)
    (quaternion o) (scale o) (visible o) (originalScale o).
Definition with_position (v : Vector3) (o : Object3D) : Object3D :=
  mkObject3D (name o) (parent o) (children o) v (rotation o)
    (quaternion o) (scale o) (visible o) (originalScale o).
(** [rotation.set(0, 0, 0)], with the quaternion refreshed. *)
Definition with_rotation_zero (o : Object3D) : Object3D :=
  mkObject3D (name o) (parent o) (children o) (position o) zero3
    identity (scale o) (visible o) (originalScale o).
Definition with_quaternion (q : Quaternion) (o : Object3D) : Object3D :=
  mkObject3D (name o) (parent o) (children o) (position o) (rotation o)
    q (scale o) (visible o) (originalScale o).
Definition with_scale (v : Vector3) (o : Object3D) : Object3D :=
  mkObject3D (name o) (parent o) (children o) (position o) (rotation o)
    (quaternion o) v (visible o) (originalScale o).
Definition with_visible (b : bool) (o : Object3D) : Object3D :=
  mkObject3D (name o) (parent o) (children o) (position o) (rotation o)
    (quaternion o) (scale o) b (originalScale o).

(** The switches of an [OrbitControls] instance. *)
Record OrbitControls := mkOrbitControls {
  enabled : bool;
  enableRotate : bool;
  enablePan : bool;
  enableZoom : bool;
}.

#[global] Instance OrbitControls_inhabited : Inhabited OrbitControls :=
  populate (mkOrbitControls true true true true).

(** The payload of a ['model-transform'] message. *)
Record TransformMsg := mkTransformMsg {
  customId : string;
  msgPosition : Vector3;
  msgRotation : Vector3;
  msgScale : Vector3;
}.

(** What is reachable from more than one component.  [appControls] is
    [window.app.orbitControls] ([None] while [window.app] is unset),
    [host] is [window.app.isHost && window.app.socket], [emitted] the
    messages sent on the socket, oldest first, and [mobile] whether
    [navigator.userAgent] matches [/Mobi/]. *)
Record World := mkWorld {
  objects : gmap ObjId Object3D;
  arrays : gmap ArrRef (list ObjId);
  controls : gmap CtlRef OrbitControls;
  appControls : option CtlRef;
  host : bool;
  emitted : list TransformMsg;
  mobile : bool;
}.

Definition with_objects (m : gmap ObjId Object3D) (w : World) : World :=
  mkWorld m (arrays w) (controls w) (appControls w) (host w) (emitted w)
    (mobile w).
Definition with_arrays (m : gmap ArrRef (list ObjId)) (w : World) : World :=
  mkWorld (objects w) m (controls w) (appControls w) (host w) (emitted w)
    (mobile w).
Definition with_controls (m : gmap CtlRef OrbitControls) (w : World) : World :=
  mkWorld (objects w) (arrays w) m (appControls w) (host w) (emitted w)
    (mobile w).
Definition with_emitted (l : list TransformMsg) (w : World) : World :=
  mkWorld (objects w) (arrays w) (controls w) (appControls w) (host w) l
    (mobile w).

(** Reading and updating a node through its reference. *)
Definition obj (w : World) (i : ObjId) : Object3D := objects w !!! i.

Definition update_obj (i : ObjId) (f : Object3D → Object3D) (w : World) : World :=
  with_objects (alter f i (objects w)) w.

(** The reference [i] denotes a node of the store. *)
Definition live (w : World) (i : ObjId) : Prop := is_Some (objects w !! i).

(** Reading an array through its reference. *)
Definition arr (w : World) (r : ArrRef) : list ObjId :=
  default [] (arrays w !! r).

(** Allocation of a new array: a reference no array has yet. *)
Definition alloc_array (l : list ObjId) (w : World) : ArrRef * World :=
  let r := fresh (dom (arrays w)) in
  (r, with_arrays (<[r := l]> (arrays w)) w).

(** Any mutation of the array behind [r]: its elements become [l]. *)
Definition write_array (r : ArrRef) (l : list ObjId) (w : World) : World :=
  with_arrays (<[r := l]> (arrays w)) w.

(** Allocation of a new scene-graph node. *)
Definition alloc_obj (o : Object3D) (w : World) : ObjId * World :=
  let i := fresh (dom (objects w)) in
  (i, with_objects (<[i := o]> (objects w)) w).

(** [Array.prototype.splice(indexOf(c), 1)]: the first occurrence goes. *)
Fixpoint remove_first (c : ObjId) (l : list ObjId) : list ObjId :=
  match l with
  | [] => []
  | d :: l' => if decide (d = c) then l' else d :: remove_first c l'
  end.

(** [parent.remove(child)]: nothing happens unless [child] is among the
    children. *)
Definition remove (p c : ObjId) (w : World) : World :=
  if decide (c ∈ children (obj w p)) then
    update_obj p (λ o, with_children (remove_first c (children o)) o)
      (update_obj c (with_parent None) w)
  else w.

(** [parent.add(child)]: the child leaves its former parent first. *)
Definition add_child (p c : ObjId) (w : World) : World :=
  let w :=
    match parent (obj w c) with
    | Some q => remove q c w
    | None => w
    end in
  update_obj p (λ o, with_children (children o ++ [c]) o)
    (update_obj c (with_parent (Some p)) w).

End Store.


(** ** InteractionManager.js *)

Module InteractionManager.
Import Three Store.

(** The fields of the class.  The raycaster and the pointer in normalised
    device coordinates ([mouse]) only feed three.js ray casts, whose
    results arrive with the events below. *)
Record t := mk {
  scene : ObjId;
  controller1 : ObjId;
  controller2 : ObjId;
  controllerGrip1 : ObjId;
  controllerGrip2 : ObjId;
  isXRSessionActive : bool;
  rotationMode : bool;
  startControllerQuaternion : Quaternion;
  startObjectQuaternion : Quaternion;
  selectedObject : option ObjId;
  activeController : option ObjId;
  lastControllerPosition : Vector3;
  draggableObjects : ArrRef;
  isDragging : bool;
  lastMousePosition : Qc * Qc;
  lastDragPoint : option Vector3;
  orbitControls : option CtlRef;
}.

Definition set_isXRSessionActive (b : bool) (m : t) : t :=
  mk (scene m) (controller1 m) (controller2 m) (controllerGrip1 m)
    (controllerGrip2 m) b (rotationMode m)
    (startControllerQuaternion m) (startObjectQuaternion m)
    (selectedObject m) (activeController m) (lastControllerPosition m)
    (draggableObjects m) (isDragging m) (lastMousePosition m)
    (lastDragPoint m) (orbitControls m).
Definition set_rotationMode (b : bool) (m : t) : t :=
  mk (scene m) (controller1 m) (controller2 m) (controllerGrip1 m)
    (controllerGrip2 m) (isXRSessionActive m) b
    (startControllerQuaternion m) (startObjectQuaternion m)
    (selectedObject m) (activeController m) (lastControllerPosition m)
    (draggableObjects m) (isDragging m) (lastMousePosition m)
    (lastDragPoint m) (orbitControls m).
Definition set_startQuaternions (c o : Quaternion) (m : t) : t :=
  mk (scene m) (controller1 m) (controller2 m) (controllerGrip1 m)
    (controllerGrip2 m) (isXRSessionActive m) (rotationMode m)
    c o
    (selectedObject m) (activeController m) (lastControllerPosition m)
    (draggableObjects m) (isDragging m) (lastMousePosition m)
    (lastDragPoint m) (orbitControls m).
Definition set_selectedObject (o : option ObjId) (m : t) : t :=
  mk (scene m) (controller1 m) (controller2 m) (controllerGrip1 m)
    (controllerGrip2 m) (isXRSessionActive m) (rotationMode m)
    (startControllerQuaternion m) (startObjectQuaternion m)
    o (activeController m) (lastControllerPosition m)
    (draggableObjects m) (isDragging m) (lastMousePosition m)
    (lastDragPoint m) (orbitControls m).
Definition set_activeController (c : option ObjId) (m : t) : t :=
  mk (scene m) (controller1 m) (controller2 m) (controllerGrip1 m)
    (controllerGrip2 m) (isXRSessionActive m) (rotationMode m)
    (startControllerQuaternion m) (startObjectQuaternion m)
    (selectedObject m) c (lastControllerPosition m)
    (draggableObjects m) (isDragging m) (lastMousePosition m)
    (lastDragPoint m) (orbitControls m).
Definition set_lastControllerPosition (v : Vector3) (m : t) : t :=
  mk (scene m) (controller1 m) (controller2 m) (controllerGrip1 m)
    (controllerGrip2 m) (isXRSessionActive m) (rotationMode m)
    (startControllerQuaternion m) (startObjectQuaternion m)
    (selectedObject m) (activeController m) v
    (draggableObjects m) (isDragging m) (lastMousePosition m)
    (lastDragPoint m) (orbitControls m).
Definition set_draggableObjects (r : ArrRef) (m : t) : t :=
  mk (scene m) (controller1 m) (controller2 m) (controllerGrip1 m)
    (controllerGrip2 m) (isXRSessionActive m) (rotationMode m)
    (startControllerQuaternion m) (startObjectQuaternion m)
    (selectedObject m) (activeController m) (lastControllerPosition m)
    r (isDragging m) (lastMousePosition m)
    (lastDragPoint m) (orbitControls m).
Definition set_isDragging (b : bool) (m : t) : t :=
  mk (scene m) (controller1 m) (controller2 m) (controllerGrip1 m)
    (controllerGrip2 m) (isXRSessionActive m) (rotationMode m)
    (startControllerQuaternion m) (startObjectQuaternion m)
    (selectedObject m) (activeController m) (lastControllerPosition m)
    (draggableObjects m) b (lastMousePosition m)
    (lastDragPoint m) (orbitControls m).
Definition set_lastMousePosition (p : Qc * Qc) (m : t) : t :=
  mk (scene m) (controller1 m) (controller2 m) (controllerGrip1 m)
    (controllerGrip2 m) (isXRSessionActive m) (rotationMode m)
    (startControllerQuaternion m) (startObjectQuaternion m)
    (selectedObject m) (activeController m) (lastControllerPosition m)
    (draggableObjects m) (isDragging m) p
    (lastDragPoint m) (orbitControls m).
Definition set_lastDragPoint (p : option Vector3) (m : t) : t :=
  mk (scene m) (controller1 m) (controller2 m) (controllerGrip1 m)
    (controllerGrip2 m) (isXRSessionActive m) (rotationMode m)
    (startControllerQuaternion m) (startObjectQuaternion m)
    (selectedObject m) (activeController m) (lastControllerPosition m)
    (draggableObjects m) (isDragging m) (lastMousePosition m)
    p (orbitControls m).


(** *** Events

    A press carries the pointer position and what
    [raycaster.intersectObjects(draggableObjects, true)] returns for it:
    the hit nodes, nearest first.  A move carries the pointer position and
    what [ray.intersectPlane] returns for the plane through the selected
    object that faces the camera ([None] when the ray misses the plane).
    Touch events carry the positions of [event.touches]. *)
Record Press := mkPress {
  pressX : Qc;
  pressY : Qc;
  intersects : list ObjId;
}.

Record Move := mkMove {
  moveX : Qc;
  moveY : Qc;
  rayIntersectsPlane : option Vector3;
}.

Record TouchPress := mkTouchPress {
  pressTouches : list (Qc * Qc);
  touchIntersects : list ObjId;
}.

Record TouchMove := mkTouchMove {
  moveTouches : list (Qc * Qc);
  touchRayIntersectsPlane : option Vector3;
}.

(** A call made on a collaborator during a frame. *)
Inductive Call :=
| OrbitUpdate (r : CtlRef)
| Render.

#[global] Instance Call_eq_dec : EqDecision Call.
Proof. solve_decision. Defined.

(** *** Orbit controls *)

Definition switch_controls (b : bool) (r : CtlRef) (w : World) : World :=
  with_controls (alter (λ _, mkOrbitControls b b b b) r (controls w)) w.

Definition switch_all (b : bool) (m : t) (w : World) : World :=
  let w :=
    match orbitControls m with
    | Some r => switch_controls b r w
    | None => w
    end in
  match appControls w with
  | Some r => switch_controls b r w
  | None => w
  end.

Definition disableOrbitControls : t → World → World := switch_all false.
Definition enableOrbitControls : t → World → World := switch_all true.

(** *** The walk to the top-level draggable ancestor

    The loop of the three press handlers: climb the parent links from the
    hit node, remember the last node met that is in the draggable list, stop
    after the scene or when the links end.  [None] when [fuel] links did not
    reach the end (a cycle of parent links, on which the loop would not
    return). *)
Fixpoint topLevelDraggable (fuel : nat) (w : World) (draggable : list ObjId)
    (sc : ObjId) (object : option ObjId) (found : option ObjId)
    : option (option ObjId) :=
  match fuel with
  | O => None
  | S fuel =>
      match object with
      | None => Some found
      | Some o =>
          let found := if decide (o ∈ draggable) then Some o else found in
          if decide (o = sc) then Some found
          else topLevelDraggable fuel w draggable sc (parent (obj w o)) found
      end
  end.

(** One turn of the loop: a draggable node replaces what was found. *)
Definition pick (dr : list ObjId) (found : option ObjId) (o : ObjId)
    : option ObjId :=
  if decide (o ∈ dr) then Some o else found.

(** More links than the store has nodes: enough for every graph without a
    cycle. *)
Definition walk_fuel (w : World) : nat := S (S (size (objects w))).

Definition resolve (w : World) (m : t) (hit : ObjId) : option (option ObjId) :=
  topLevelDraggable (walk_fuel w) w (arr w (draggableObjects m)) (scene m)
    (Some hit) None.

(** *** Mouse and touch *)

Definition startDrag (top : ObjId) (px py : Qc) (w : World) (m : t) : World * t :=
  (disableOrbitControls m w,
   set_lastDragPoint None
     (set_lastMousePosition (px, py)
        (set_selectedObject (Some top) (set_isDragging true m)))).

Definition onMouseDown (e : Press) (w : World) (m : t) : option (World * t) :=
  if isXRSessionActive m then Some (w, m)
  else
    match intersects e with
    | [] => Some (w, m)
    | object :: _ =>
        top ← resolve w m object;
        match top with
        | Some topLevel => Some (startDrag topLevel (pressX e) (pressY e) w m)
        | None => Some (w, m)
        end
    end.

Definition onTouchStart (e : TouchPress) (w : World) (m : t) : option (World * t) :=
  if isXRSessionActive m then Some (w, m)
  else
    match pressTouches e with
    | [touch] =>
        match touchIntersects e with
        | [] => Some (w, m)
        | object :: _ =>
            top ← resolve w m object;
            match top with
            | Some topLevel => Some (startDrag topLevel touch.1 touch.2 w m)
            | None => Some (w, m)
            end
        end
    | _ => Some (w, m)
    end.

Definition handleDrag (cx cy : Qc) (hit : option Vector3) (w : World) (m : t)
    : World * t :=
  match selectedObject m with
  | None => (w, m)
  | Some sel =>
      let m := set_lastMousePosition (cx, cy) m in
      match hit with
      | None => (w, m)
      | Some intersectionPoint =>
          match lastDragPoint m with
          | None => (w, set_lastDragPoint (Some intersectionPoint) m)
          | Some last =>
              let dragDelta := subVectors intersectionPoint last in
              let w :=
                update_obj sel
                  (λ o, with_position (add (position o) dragDelta) o) w in
              let w :=
                match originalScale (obj w sel) with
                | Some s => update_obj sel (with_scale s) w
                | None => w
                end in
              let w :=
                if host w then
                  let o := obj w sel in
                  with_emitted
                    (emitted w ++
                       [mkTransformMsg (name o) (position o) (rotation o)
                          (scale o)]) w
                else w in
              (w, set_lastDragPoint (Some intersectionPoint) m)
          end
      end
  end.

Definition onMouseMove (e : Move) (w : World) (m : t) : World * t :=
  match isDragging m, selectedObject m with
  | true, Some _ => handleDrag (moveX e) (moveY e) (rayIntersectsPlane e) w m
  | _, _ => (w, m)
  end.

Definition onTouchMove (e : TouchMove) (w : World) (m : t) : World * t :=
  match isDragging m, selectedObject m with
  | true, Some _ =>
      match moveTouches e with
      | [touch] => handleDrag touch.1 touch.2 (touchRayIntersectsPlane e) w m
      | _ => (w, m)
      end
  | _, _ => (w, m)
  end.

Definition endDrag (w : World) (m : t) : World * t :=
  if isDragging m then
    (enableOrbitControls m w,
     set_lastDragPoint None (set_selectedObject None (set_isDragging false m)))
  else (w, m).

Definition onMouseUp : World → t → World * t := endDrag.
Definition onTouchEnd : World → t → World * t := endDrag.

(** *** Sequences of pointer events

    A press or a move from either source, and a run of moves. *)
Inductive PressEvent :=
| MousePressed (e : Press)
| TouchPressed (e : TouchPress).

Definition onPress (e : PressEvent) (w : World) (m : t) : option (World * t) :=
  match e with
  | MousePressed e => onMouseDown e w m
  | TouchPressed e => onTouchStart e w m
  end.

(** The node that the press handler takes from the ray cast:
    [intersects[0].object], for a mouse press or a touch with one finger. *)
Definition pressHit (e : PressEvent) : option ObjId :=
  match e with
  | MousePressed e => head (intersects e)
  | TouchPressed e =>
      match pressTouches e with
      | [_] => head (touchIntersects e)
      | _ => None
      end
  end.

Inductive DragMove :=
| MouseMoved (e : Move)
| TouchMoved (e : TouchMove).

Definition onDragMove (e : DragMove) (s : World * t) : World * t :=
  match e with
  | MouseMoved e => onMouseMove e s.1 s.2
  | TouchMoved e => onTouchMove e s.1 s.2
  end.

Definition dragMoves (moves : list DragMove) (s : World * t) : World * t :=
  foldl (λ s e, onDragMove e s) s moves.

(** The plane intersection that reaches [handleDrag] with a move. *)
Definition intersection (e : DragMove) : option Vector3 :=
  match e with
  | MouseMoved e => rayIntersectsPlane e
  | TouchMoved e =>
      match moveTouches e with
      | [_] => touchRayIntersectsPlane e
      | _ => None
      end
  end.

(** The nodes that the walk visits from [object]: the chain of parent
    links, ending with the scene or with a node that has no parent. *)
Inductive climbs (w : World) (sc : ObjId) : option ObjId → list ObjId → Prop :=
| climbs_end : climbs w sc None []
| climbs_scene : climbs w sc (Some sc) [sc]
| climbs_parent (o : ObjId) (path : list ObjId) :
    o ≠ sc →
    climbs w sc (parent (obj w o)) path →
    climbs w sc (Some o) (o :: path).

(** *** XR controllers

    A controller is a node of the scene; the XR runtime writes its pose
    every frame.  Controllers hang directly under the scene, so the
    position read from [matrixWorld] is the node's [position].  A
    [selectstart] carries what [raycaster.intersectObjects(scene.children,
    true)] returns for the controller's ray. *)
Record ControllerSelect := mkControllerSelect {
  target : ObjId;
  allIntersects : list ObjId;
}.

Definition onControllerSelectStart (e : ControllerSelect) (w : World) (m : t)
    : option t :=
  match allIntersects e with
  | [] => Some m
  | object :: _ =>
      top ← resolve w m object;
      match top with
      | Some topLevel =>
          Some (set_lastControllerPosition (position (obj w (target e)))
                  (set_activeController (Some (target e))
                     (set_selectedObject (Some topLevel) m)))
      | None => Some m
      end
  end.

Definition onControllerSelectEnd (m : t) : t :=
  set_rotationMode false (set_activeController None (set_selectedObject None m)).

Definition onControllerSqueezeStart (controller : ObjId) (w : World) (m : t) : t :=
  match selectedObject m with
  | Some sel =>
      set_startQuaternions (quaternion (obj w controller))
        (quaternion (obj w sel)) (set_rotationMode true m)
  | None => m
  end.

Definition onControllerSqueezeEnd (m : t) : t := set_rotationMode false m.

(** The listeners on [renderer.xr] installed by the constructor. *)
Definition onSessionStart (w : World) (m : t) : World * t :=
  let show := update_obj (controllerGrip2 m) (with_visible true)
              ∘ update_obj (controllerGrip1 m) (with_visible true)
              ∘ update_obj (controller2 m) (with_visible true)
              ∘ update_obj (controller1 m) (with_visible true) in
  (show w, set_isXRSessionActive true m).

Definition onSessionEnd (m : t) : t :=
  set_rotationMode false (set_isXRSessionActive false m).

(** *** The draggable list *)

(** [getDraggableObjects] returns [[...this.draggableObjects]]: a new
    array with the same elements. *)
Definition getDraggableObjects (w : World) (m : t) : ArrRef * World :=
  alloc_array (arr w (draggableObjects m)) w.

(** [setDraggableObjects] keeps the caller's array itself. *)
Definition setDraggableObjects (objects : ArrRef) (m : t) : t :=
  set_draggableObjects objects m.

(** *** The per-frame update *)

Definition update (w : World) (m : t) : World * t * list Call :=
  let '(w', m') :=
    match selectedObject m, activeController m, isXRSessionActive m with
    | Some sel, Some controller, true =>
        if rotationMode m then
          let currentControllerQuaternion := quaternion (obj w controller) in
          let deltaQuaternion :=
            multiply currentControllerQuaternion
              (invert (startControllerQuaternion m)) in
          let newObjectQuaternion :=
            multiply deltaQuaternion (startObjectQuaternion m) in
          (update_obj sel (with_quaternion newObjectQuaternion) w, m)
        else
          let currentPosition := position (obj w controller) in
          let delta := subVectors currentPosition (lastControllerPosition m) in
          let delta :=
            if mobile w then multiplyScalar delta (Q2Qc 2) else delta in
          (update_obj sel (λ o, with_position (add (position o) delta) o) w,
           set_lastControllerPosition currentPosition m)
    | _, _, _ => (w, m)
    end in
  let calls :=
    match orbitControls m with
    | Some r => if isXRSessionActive m then [] else [OrbitUpdate r]
    | None => []
    end in
  (w', m', calls).

(** *** Construction

    [new InteractionManager(scene, camera, renderer, domElement)] with a
    renderer: the controls of [window.app] are reused when there are any,
    otherwise the manager creates its own; two controllers and their grips
    are added to the scene. *)
Definition create (sc : ObjId) (w : World) : World * t :=
  let '(ctl, w) :=
    match appControls w with
    | Some r => (r, w)
    | None =>
        let r := fresh (dom (controls w)) in
        (r, with_controls (<[r := mkOrbitControls true true true true]>
                             (controls w)) w)
    end in
  let '(c1, w) := alloc_obj (newGroup "controller-right") w in
  let w := add_child sc c1 w in
  let '(g1, w) := alloc_obj (newGroup "") w in
  let w := add_child sc g1 w in
  let '(c2, w) := alloc_obj (newGroup "controller-left") w in
  let w := add_child sc c2 w in
  let '(g2, w) := alloc_obj (newGroup "") w in
  let w := add_child sc g2 w in
  let '(dr, w) := alloc_array [] w in
  (w, mk sc c1 c2 g1 g2 false false identity identity None None zero3 dr
        false (Q2Qc 0, Q2Qc 0) None (Some ctl)).

End InteractionManager.


(** ** app.js *)

Module App.
Import Three Store.

(** [style.display] of an overlay element. *)
Inductive Display := DisplayNone | DisplayBlock.

#[global] Instance Display_eq_dec : EqDecision Display.
Proof. solve_decision. Defined.

(** The fields of the class that the registry, the placement flow and the
    render loop use.  [loadedModels] is a JavaScript [Map]: entries in
    insertion order, one per key.  An overlay element is [None] until it is
    created.  [selectListening] tells whether the bound [onSelectEvent] is
    registered on the XR session.  [isDragging] is set in the constructor
    and tested in [animate]; no method of the class assigns it again.  The
    camera, the touch-rotation gesture (angles) and the DOM overlays of the
    loaders are not represented. *)
Record t := mk {
  loadedModels : list (string * ObjId);
  draggableObjects : list ObjId;
  isARMode : bool;
  isPlacingProduct : bool;
  isDragging : bool;
  placementReticle : option ObjId;
  placementMessage : option Display;
  placeAgainButton : option Display;
  rotateLeftBtn : option Display;
  rotateRightBtn : option Display;
  hitTestSource : option nat;
  scene : ObjId;
  productGroup : ObjId;
  floor : option ObjId;
  orbitControls : CtlRef;
  interactionManager : option InteractionManager.t;
  selectListening : bool;
}.

Definition set_loadedModels (v : list (string * ObjId)) (a : t) : t :=
  mk v (draggableObjects a) (isARMode a) (isPlacingProduct a) (isDragging a)
    (placementReticle a) (placementMessage a) (placeAgainButton a)
    (rotateLeftBtn a) (rotateRightBtn a) (hitTestSource a) (scene a)
    (productGroup a) (floor a) (orbitControls a) (interactionManager a)
    (selectListening a).
Definition set_draggableObjects (v : list ObjId) (a : t) : t :=
  mk (loadedModels a) v (isARMode a) (isPlacingProduct a) (isDragging a)
    (placementReticle a) (placementMessage a) (placeAgainButton a)
    (rotateLeftBtn a) (rotateRightBtn a) (hitTestSource a) (scene a)
    (productGroup a) (floor a) (orbitControls a) (interactionManager a)
    (selectListening a).
Definition set_isARMode (v : bool) (a : t) : t :=
  mk (loadedModels a) (draggableObjects a) v (isPlacingProduct a)
    (isDragging a) (placementReticle a) (placementMessage a)
    (placeAgainButton a) (rotateLeftBtn a) (rotateRightBtn a)
    (hitTestSource a) (scene a) (productGroup a) (floor a) (orbitControls a)
    (interactionManager a) (selectListening a).
Definition set_isPlacingProduct (v : bool) (a : t) : t :=
  mk (loadedModels a) (draggableObjects a) (isARMode a) v (isDragging a)
    (placementReticle a) (placementMessage a) (placeAgainButton a)
    (rotateLeftBtn a) (rotateRightBtn a) (hitTestSource a) (scene a)
    (productGroup a) (floor a) (orbitControls a) (interactionManager a)
    (selectListening a).
Definition set_placementReticle (v : option ObjId) (a : t) : t :=
  mk (loadedModels a) (draggableObjects a) (isARMode a) (isPlacingProduct a)
    (isDragging a) v (placementMessage a) (placeAgainButton a)
    (rotateLeftBtn a) (rotateRightBtn a) (hitTestSource a) (scene a)
    (productGroup a) (floor a) (orbitControls a) (interactionManager a)
    (selectListening a).
Definition set_placementMessage (v : option Display) (a : t) : t :=
  mk (loadedModels a) (draggableObjects a) (isARMode a) (isPlacingProduct a)
    (isDragging a) (placementReticle a) v (placeAgainButton a)
    (rotateLeftBtn a) (rotateRightBtn a) (hitTestSource a) (scene a)
    (productGroup a) (floor a) (orbitControls a) (interactionManager a)
    (selectListening a).
Definition set_placeAgainButton (v : option Display) (a : t) : t :=
  mk (loadedModels a) (draggableObjects a) (isARMode a) (isPlacingProduct a)
    (isDragging a) (placementReticle a) (placementMessage a) v
    (rotateLeftBtn a) (rotateRightBtn a) (hitTestSource a) (scene a)
    (productGroup a) (floor a) (orbitControls a) (interactionManager a)
    (selectListening a).
Definition set_rotateLeftBtn (v : option Display) (a : t) : t :=
  mk (loadedModels a) (draggableObjects a) (isARMode a) (isPlacingProduct a)
    (isDragging a) (placementReticle a) (placementMessage a)
    (placeAgainButton a) v (rotateRightBtn a) (hitTestSource a) (scene a)
    (productGroup a) (floor a) (orbitControls a) (interactionManager a)
    (selectListening a).
Definition set_rotateRightBtn (v : option Display) (a : t) : t :=
  mk (loadedModels a) (draggableObjects a) (isARMode a) (isPlacingProduct a)
    (isDragging a) (placementReticle a) (placementMessage a)
    (placeAgainButton a) (rotateLeftBtn a) v (hitTestSource a) (scene a)
    (productGroup a) (floor a) (orbitControls a) (interactionManager a)
    (selectListening a).
Definition set_hitTestSource (v : option nat) (a : t) : t :=
  mk (loadedModels a) (draggableObjects a) (isARMode a) (isPlacingProduct a)
    (isDragging a) (placementReticle a) (placementMessage a)
    (placeAgainButton a) (rotateLeftBtn a) (rotateRightBtn a) v (scene a)
    (productGroup a) (floor a) (orbitControls a) (interactionManager a)
    (selectListening a).
Definition set_floor (v : option ObjId) (a : t) : t :=
  mk (loadedModels a) (draggableObjects a) (isARMode a) (isPlacingProduct a)
    (isDragging a) (placementReticle a) (placementMessage a)
    (placeAgainButton a) (rotateLeftBtn a) (rotateRightBtn a)
    (hitTestSource a) (scene a) (productGroup a) v (orbitControls a)
    (interactionManager a) (selectListening a).
Definition set_interactionManager (v : option InteractionManager.t) (a : t) : t :=
  mk (loadedModels a) (draggableObjects a) (isARMode a) (isPlacingProduct a)
    (isDragging a) (placementReticle a) (placementMessage a)
    (placeAgainButton a) (rotateLeftBtn a) (rotateRightBtn a)
    (hitTestSource a) (scene a) (productGroup a) (floor a) (orbitControls a)
    v (selectListening a).
Definition set_selectListening (v : bool) (a : t) : t :=
  mk (loadedModels a) (draggableObjects a) (isARMode a) (isPlacingProduct a)
    (isDragging a) (placementReticle a) (placementMessage a)
    (placeAgainButton a) (rotateLeftBtn a) (rotateRightBtn a)
    (hitTestSource a) (scene a) (productGroup a) (floor a) (orbitControls a)
    (interactionManager a) v.

(** *** The registry *)

(** [Map.prototype.set]: an existing key keeps its place and takes the new
    value, a new key goes last. *)
Fixpoint map_set (k : string) (v : ObjId) (m : list (string * ObjId))
    : list (string * ObjId) :=
  match m with
  | [] => [(k, v)]
  | (k', v') :: m' =>
      if decide (k' = k) then (k, v) :: m' else (k', v') :: map_set k v m'
  end.

(** [Array.from(this.loadedModels.values())]. *)
Definition values (a : t) : list ObjId := (loadedModels a).*2.

Definition updateDragControls (w : World) (a : t) : World * t :=
  let '(draggable, w) := alloc_array (values a) w in
  match interactionManager a with
  | Some m =>
      (w, set_interactionManager
            (Some (InteractionManager.setDraggableObjects draggable m)) a)
  | None => (w, a)
  end.

Definition clearExistingModels (w : World) (a : t) : World * t :=
  let w :=
    foldl (λ w model,
             match parent (obj w model) with
             | Some _ => remove (productGroup a) model w
             | None => w
             end) w (values a) in
  updateDragControls w (set_draggableObjects [] (set_loadedModels [] a)).

(** The success callback of [gltfLoader.load] in [loadModel], for the
    decoded scene root [model]; its descendants are not represented.
    [fitCameraToScene], which moves the camera, is left out. *)
Definition loadModel (nm : string) (model : Object3D) (w : World) (a : t)
    : World * t :=
  let '(modelId, w) := alloc_obj (with_children [] (with_parent None model)) w in
  let '(container, w) := alloc_obj (newGroup nm) w in
  let w := add_child container modelId w in
  let a := set_draggableObjects (draggableObjects a ++ [container]) a in
  let w := add_child (productGroup a) container w in
  let a := set_loadedModels (map_set nm container (loadedModels a)) a in
  match interactionManager a with
  | Some m =>
      let '(draggable, w) := alloc_array (values a) w in
      (w, set_interactionManager
            (Some (InteractionManager.setDraggableObjects draggable m)) a)
  | None => (w, a)
  end.

(** *** AR tap-to-place *)

Definition createPlacementUI (w : World) (a : t) : World * t :=
  let '(reticle, w) :=
    alloc_obj
      (with_visible false
         (with_scale (mkVector3 (Q2Qc (3 # 10)) (Q2Qc (3 # 10)) (Q2Qc (3 # 10)))
            (newGroup ""))) w in
  let w := add_child (scene a) reticle w in
  (w, set_placeAgainButton (Some DisplayNone)
        (set_placementMessage (Some DisplayNone)
           (set_placementReticle (Some reticle) a))).

Definition createARRotationControls (a : t) : t :=
  set_rotateRightBtn (Some DisplayNone) (set_rotateLeftBtn (Some DisplayNone) a).

(** Assigning [style.display] of an element that exists. *)
Definition display (d : Display) (e : option Display) : option Display :=
  (λ _, d) <$> e.

Definition hideRotationButtons (a : t) : t :=
  set_rotateRightBtn (display DisplayNone (rotateRightBtn a))
    (set_rotateLeftBtn (display DisplayNone (rotateLeftBtn a)) a).

(** [onARSessionStart], up to the request for the hit-test source, which
    resolves later ([hitTestSourceReady]).  The new floor lies flat: its
    fixed tilt about the x axis is not represented. *)
Definition onARSessionStart (w : World) (a : t) : World * t :=
  let a := set_isPlacingProduct true (set_isARMode true a) in
  let w := update_obj (productGroup a) (with_visible false) w in
  let '(w, a) :=
    match floor a with
    | Some old =>
        let w := remove (scene a) old w in
        let '(fl, w) := alloc_obj (with_visible false (newGroup "")) w in
        (add_child (scene a) fl w, set_floor (Some fl) a)
    | None => (w, a)
    end in
  let '(w, a) :=
    match placementReticle a with
    | None =>
        let '(w, a) := createPlacementUI w a in
        (w, set_placementMessage (display DisplayBlock (placementMessage a)) a)
    | Some _ =>
        (w, set_placeAgainButton (display DisplayNone (placeAgainButton a))
              (set_placementMessage
                 (display DisplayBlock (placementMessage a)) a))
    end in
  let a :=
    match rotateLeftBtn a, rotateRightBtn a with
    | Some _, Some _ => a
    | _, _ => createARRotationControls a
    end in
  let a := hideRotationButtons a in
  (w, set_selectListening true a).

(** The promise of [requestHitTestSource] resolves with [source]. *)
Definition hitTestSourceReady (source : nat) (a : t) : t :=
  set_hitTestSource (Some source) a.

(** The ['sessionend'] listener on [renderer.xr] and the ['end'] listener
    on the session. *)
Definition onARSessionEnd (a : t) : t :=
  set_hitTestSource None (hideRotationButtons (set_isARMode false a)).

(** The click listener of the Place Again button; [session] tells whether
    [renderer.xr.getSession()] returns a session. *)
Definition placeAgain (session : bool) (w : World) (a : t) : World * t :=
  let w := update_obj (productGroup a) (with_visible false) w in
  let a := set_isPlacingProduct true a in
  let a := set_placementMessage (display DisplayBlock (placementMessage a)) a in
  let a := set_placeAgainButton (display DisplayNone (placeAgainButton a)) a in
  let a := hideRotationButtons a in
  (w, if session then set_selectListening true a else a).

(** A [select] event of the XR session: the positions of the poses
    of [frame.getHitTestResults(hitTestSource)], best first, and the heights
    of the corners of the boxes of what hangs under the product group,
    measured from the group's origin along the world's vertical axis, under
    the group's rotation and scale at that moment. *)
Record Select := mkSelect {
  hitTestResults : list Vector3;
  contentY : list Qc;
}.

Definition Qcmin (a b : Qc) : Qc := if decide (a ≤ b)%Qc then a else b.

Definition minimum (l : list Qc) : option Qc :=
  match l with
  | [] => None
  | h :: l' => Some (foldl Qcmin h l')
  end.

(** [new THREE.Box3().setFromObject(group).min.y]: the product group hangs
    directly under the scene, so the box in world space is the content of
    the group moved by the group's position.  [None] for the empty box of a
    group without geometry, whose [min.y] is [+Infinity]. *)
Definition bboxMinY (group : Object3D) (content : list Qc) : option Qc :=
  minimum ((λ h, (y (position group) + h)%Qc) <$> content).

(** [onSelectEvent].  [None] when the box is empty: the height written to
    the group is then not a number of this model.  The overlay elements
    exist whenever [isPlacingProduct] holds. *)
Definition onSelectEvent (e : Select) (w : World) (a : t) : option (World * t) :=
  match isPlacingProduct a, hitTestSource a with
  | true, Some _ =>
      match hitTestResults e with
      | [] => Some (w, a)
      | pose :: _ =>
          offsetY ← bboxMinY (obj w (productGroup a)) (contentY e);
          let w := update_obj (productGroup a) (with_visible true) w in
          let w :=
            update_obj (productGroup a)
              (with_position (mkVector3 (x pose) (y pose - offsetY)%Qc (z pose)))
              w in
          let w :=
            match floor a with
            | Some fl =>
                update_obj fl (with_visible true)
                  (update_obj fl
                     (with_position (mkVector3 (x pose) (y pose) (z pose))) w)
            | None => w
            end in
          let a := set_isPlacingProduct false a in
          let a :=
            set_placementMessage (display DisplayNone (placementMessage a)) a in
          let w :=
            match placementReticle a with
            | Some reticle => update_obj reticle (with_visible false) w
            | None => w
            end in
          let a :=
            set_placeAgainButton (display DisplayBlock (placeAgainButton a)) a in
          let a :=
            set_rotateRightBtn (display DisplayBlock (rotateRightBtn a))
              (set_rotateLeftBtn (display DisplayBlock (rotateLeftBtn a)) a) in
          Some (w, set_selectListening false a)
      end
  | _, _ => Some (w, a)
  end.

(** The lowest point of the product group in world space for the
    content [content]. *)
Definition lowestPoint (w : World) (a : t) (content : list Qc) : option Qc :=
  bboxMinY (obj w (productGroup a)) content.

(** The placement state machine read off the flags. *)
Inductive Placement := Idle | AwaitingPlacement | Placed.

Definition placement (a : t) : Placement :=
  if isARMode a then
    if isPlacingProduct a then AwaitingPlacement else Placed
  else Idle.

(** *** The render loop

    One call of the animation-loop callback.  [frame] is the XR frame's
    answer to [getHitTestResults] when there is an XR frame. *)
Definition animate (frame : option (list Vector3)) (w : World) (a : t)
    : World * t * list InteractionManager.Call :=
  let w :=
    match isARMode a && isPlacingProduct a, hitTestSource a, frame with
    | true, Some _, Some results =>
        match results, placementReticle a with
        | pose :: _, Some reticle =>
            update_obj reticle
              (with_position (mkVector3 (x pose) (y pose) (z pose)))
              (update_obj reticle (with_visible true) w)
        | [], Some reticle => update_obj reticle (with_visible false) w
        | _, None => w
        end
    | _, _, _ => w
    end in
  let calls1 :=
    if isDragging a then [] else [InteractionManager.OrbitUpdate (orbitControls a)] in
  let '(w, a, calls2) :=
    match interactionManager a with
    | Some m =>
        let '(w, m, c) := InteractionManager.update w m in
        (w, set_interactionManager (Some m) a, c)
    | None => (w, a, [])
    end in
  (w, a, calls1 ++ calls2 ++ [InteractionManager.Render]).

(** *** Construction

    The constructor: scene, product group, floor, orbit controls, the
    interaction manager, and then [window.app = this]. *)
Definition create (onMobile : bool) : World * t :=
  let w := mkWorld ∅ ∅ ∅ None false [] onMobile in
  let '(sc, w) := alloc_obj (newGroup "") w in
  let '(group, w) := alloc_obj (newGroup "") w in
  let w := add_child sc group w in
  let '(fl, w) := alloc_obj (newGroup "") w in
  let w := add_child sc fl w in
  let ctl := fresh (dom (controls w)) in
  let w :=
    with_controls (<[ctl := mkOrbitControls true true true true]> (controls w)) w in
  let '(w, m) := InteractionManager.create sc w in
  let w :=
    mkWorld (objects w) (arrays w) (controls w) (Some ctl) (host w)
      (emitted w) (mobile w) in
  (w, mk [] [] false false false None None None None None None sc group
        (Some fl) ctl (Some m) false).

(** *** Events of the canvas

    The interaction manager listens on the canvas itself; its handlers run
    on the manager that the app holds. *)
Definition toManager (f : World → InteractionManager.t → World * InteractionManager.t)
    (w : World) (a : t) : World * t :=
  match interactionManager a with
  | Some m => let '(w, m) := f w m in (w, set_interactionManager (Some m) a)
  | None => (w, a)
  end.

Definition onPress (e : InteractionManager.PressEvent) (w : World) (a : t)
    : option (World * t) :=
  match interactionManager a with
  | Some m =>
      s ← InteractionManager.onPress e w m;
      Some (s.1, set_interactionManager (Some s.2) a)
  | None => Some (w, a)
  end.

Definition onMove (e : InteractionManager.DragMove) : World → t → World * t :=
  toManager (λ w m, InteractionManager.onDragMove e (w, m)).

Definition onRelease : World → t → World * t :=
  toManager InteractionManager.endDrag.

(** ['sessionstart'] and ['sessionend'] of [renderer.xr]: the manager's
    listener was added first. *)
Definition sessionStart (w : World) (a : t) : World * t :=
  let '(w, a) := toManager InteractionManager.onSessionStart w a in
  onARSessionStart w a.

Definition sessionEnd (w : World) (a : t) : World * t :=
  let '(w, a) :=
    toManager (λ w m, (w, InteractionManager.onSessionEnd m)) w a in
  (w, onARSessionEnd a).

(** *** Runs of registry operations

    A model finishes loading under a name, or the models are cleared. *)
Inductive RegistryOp :=
| Register (nm : string) (model : Object3D)
| Clear.

Definition registryStep (s : World * t) (op : RegistryOp) : World * t :=
  match op with
  | Register nm model => loadModel nm model s.1 s.2
  | Clear => clearExistingModels s.1 s.2
  end.

Definition registryRun (ops : list RegistryOp) (s : World * t) : World * t :=
  foldl registryStep s ops.

(** The names registered by [ops] and not cleared since, in order, with
    repetitions. *)
Definition registeredFrom (names : list string) (ops : list RegistryOp)
    : list string :=
  foldl (λ names op,
           match op with
           | Register nm _ => names ++ [nm]
           | Clear => []
           end) names ops.

Definition registered (ops : list RegistryOp) : list string :=
  registeredFrom [] ops.

(** The draggable list that the interaction manager holds. *)
Definition draggableList (w : World) (a : t) : list ObjId :=
  match interactionManager a with
  | Some m => arr w (InteractionManager.draggableObjects m)
  | None => []
  end.

(** The registry invariant for the names [names] registered since the
    last clear: the manager holds the values of the map, keys and values
    are without repetition, the keys are the names, and every value is a
    node of the store among the children of the product group. *)
Definition consistent (names : list string) (s : World * t) : Prop :=
  live s.1 (productGroup s.2)
  ∧ (∃ m, interactionManager s.2 = Some m
          ∧ arr s.1 (InteractionManager.draggableObjects m) = values s.2)
  ∧ NoDup (loadedModels s.2).*1
  ∧ (∀ k, k ∈ (loadedModels s.2).*1 ↔ k ∈ names)
  ∧ NoDup (values s.2)
  ∧ (∀ v, v ∈ values s.2 →
          live s.1 v ∧ v ∈ children (obj s.1 (productGroup s.2))).

End App.

(** ** uiControls.js: the recent-colours list *)

Module UiControls.

(** What [localStorage.getItem('recentColors')] can hold: text that
    [JSON.parse] rejects, text that parses to something that is not an
    array, or an array of colour strings. *)
Inductive Stored :=
| Unparsable
| NotAnArray
| Colors (l : list string).

(** The [recentColors] entry of [localStorage]; [None] when the key is
    absent. *)
Definition LocalStorage := option Stored.

(** [getRecentColors]: the parsed entry, [[]] when the key is absent or
    [JSON.parse] throws.  A parsed value that is not an array is returned as
    it is ([None] here). *)
Definition getRecentColors (ls : LocalStorage) : option (list string) :=
  match ls with
  | None => Some []
  | Some Unparsable => Some []
  | Some NotAnArray => None
  | Some (Colors l) => Some l
  end.

(** [addRecentColor]: filter, unshift, slice(0, 6), setItem.  On a value
    without [filter] the call throws inside the [try] and nothing is
    stored. *)
Definition addRecentColor (color : string) (ls : LocalStorage) : LocalStorage :=
  match getRecentColors ls with
  | Some recentColors =>
      let recentColors := filter (λ c, c ≠ color) recentColors in
      let recentColors := color :: recentColors in
      let recentColors := take 6 recentColors in
      Some (Colors recentColors)
  | None => ls
  end.

(** *** The Reset button *)
Import Three Store.

(** The body of the [forEach] over the children of the product group.  The
    scale comes from [child.children[0].userData.originalScale]. *)
Definition resetChild (w : World) (child : ObjId) : World :=
  let w := update_obj child (with_position zero3) w in
  let w := update_obj child with_rotation_zero w in
  match children (obj w child) with
  | first :: _ =>
      match originalScale (obj w first) with
      | Some s => update_obj child (with_scale s) w
      | None => update_obj child (with_scale one3) w
      end
  | [] => update_obj child (with_scale one3) w
  end.

(** The original-scale snapshot that the Reset button consults for a
    part: the one kept on the part's first child. *)
Definition storedOriginalScale (w : World) (child : ObjId) : option Vector3 :=
  match children (obj w child) with
  | first :: _ => originalScale (obj w first)
  | [] => None
  end.

(** [resetButton.onclick] on the scene graph: the [forEach] over the
    children of the product group.  The handler ends with
    [app.fitCameraToScene()], which measures the box of the product group,
    moves the camera and sets the target of the two orbit controls before
    calling their [update]; the camera and the targets are no part of a
    [World], and that call is not represented. *)
Definition resetButton_onclick (w : World) (a : App.t) : World :=
  foldl resetChild w (children (obj w (App.productGroup a))).

End UiControls.

(** ** Concrete sessions

    The viewer on a desktop with the parts "blade" and "frame" loaded (the
    containers are the nodes 8 and 10, the product group is node 1; the app's
    orbit controls are instance 0, the manager's instance 1), a mouse press
    on the blade, and an AR session with the blade alone in which the
    hit-test source has arrived.  The blade's lowest corner is level with
    the origin of the product group, and the surface tapped is at height
    1. *)

Module Sessions.
Import Three Store.

Definition onePart : World * App.t :=
  let s := App.create false in
  App.loadModel "blade" (newGroup "Scene") s.1 s.2.

Definition twoParts : World * App.t :=
  App.loadModel "frame" (newGroup "Scene") onePart.1 onePart.2.

Definition pressBlade : InteractionManager.PressEvent :=
  InteractionManager.MousePressed
    (InteractionManager.mkPress (Q2Qc 10) (Q2Qc 20) [8]).

Definition touchFrame : InteractionManager.PressEvent :=
  InteractionManager.TouchPressed
    (InteractionManager.mkTouchPress [(Q2Qc 30, Q2Qc 40)] [10]).

Definition draggingBlade : option (World * App.t) :=
  App.onPress pressBlade twoParts.1 twoParts.2.

(** What the tests below read from a state. *)
Definition session (s : World * App.t) : option (bool * option ObjId) :=
  m ← App.interactionManager s.2;
  Some (InteractionManager.isDragging m, InteractionManager.selectedObject m).

Definition awaitingPlacement : World * App.t :=
  let s := App.sessionStart onePart.1 onePart.2 in
  (s.1, App.hitTestSourceReady 0 s.2).

Definition bladeContent : list Qc := [Q2Qc 0].

Definition tap : App.Select :=
  App.mkSelect [mkVector3 (Q2Qc 0) (Q2Qc 1) (Q2Qc 0)] bladeContent.

Definition placedOnce : option (World * App.t) :=
  App.onSelectEvent tap awaitingPlacement.1 awaitingPlacement.2.

Definition placedTwice : option (World * App.t) :=
  s ← placedOnce;
  let s := App.placeAgain true s.1 s.2 in
  App.onSelectEvent tap s.1 s.2.

Definition lowest (s : World * App.t) : option Qc :=
  App.lowestPoint s.1 s.2 bladeContent.

(** The state after the press on the blade, and the manager in it. *)
Definition afterPress : World * App.t := default twoParts draggingBlade.

Definition managerOf (s : World * App.t) : InteractionManager.t :=
  default (InteractionManager.create 0 s.1).2 (App.interactionManager s.2).

Definition bladeManager : InteractionManager.t := managerOf afterPress.

(** A drag of the blade: a first intersection, a ray that misses the
    plane, a touch move, a mouse move. *)
Definition someMoves : list InteractionManager.DragMove :=
  [InteractionManager.MouseMoved
     (InteractionManager.mkMove (Q2Qc 11) (Q2Qc 20)
        (Some (mkVector3 (Q2Qc 1) (Q2Qc 1) (Q2Qc 0))));
   InteractionManager.MouseMoved
     (InteractionManager.mkMove (Q2Qc 12) (Q2Qc 20) None);
   InteractionManager.TouchMoved
     (InteractionManager.mkTouchMove [(Q2Qc 13, Q2Qc 21)]
        (Some (mkVector3 (Q2Qc 5) (Q2Qc (1 # 2)) (Q2Qc 0))));
   InteractionManager.MouseMoved
     (InteractionManager.mkMove (Q2Qc 14) (Q2Qc 22)
        (Some (mkVector3 (Q2Qc 3) (Q2Qc 2) (Q2Qc 0))))].

(** The parts after such a drag, for the Reset button. *)
Definition displaced : World * App.t :=
  ((InteractionManager.dragMoves someMoves (afterPress.1, bladeManager)).1,
   afterPress.2).

(** An XR session in which the right controller (node 3) has selected
    the blade and is squeezed while turned by the unit quaternion
    (3/5, 0, 4/5, 0); on a later frame it is turned by (0, 1, 0, 0). *)
Definition turn0 : Quaternion :=
  mkQuaternion (Q2Qc (3 # 5)) (Q2Qc 0) (Q2Qc (4 # 5)) (Q2Qc 0).

Definition turn1 : Quaternion :=
  mkQuaternion (Q2Qc 0) (Q2Qc 1) (Q2Qc 0) (Q2Qc 0).

Definition xrSqueeze : World * InteractionManager.t :=
  let s := App.sessionStart twoParts.1 twoParts.2 in
  let w := update_obj 3 (with_quaternion turn0) s.1 in
  (w,
   default (managerOf s)
     (InteractionManager.onControllerSelectStart
        (InteractionManager.mkControllerSelect 3 [8]) w (managerOf s))).

Definition xrLater : World :=
  update_obj 3 (with_quaternion turn1) xrSqueeze.1.

End Sessions.

(** ** Frames of an XR session

    Before each frame the XR runtime writes the pose of a controller to its
    node; the render loop then calls [update]. *)

Module XRFrames.
Import Three Store InteractionManager.

Record Pose := mkPose {
  posePosition : Vector3;
  poseOrientation : Quaternion;
}.

Definition writePose (c : ObjId) (p : Pose) (w : World) : World :=
  update_obj c (with_quaternion (poseOrientation p))
    (update_obj c (with_position (posePosition p)) w).

(** One frame: the controller [c] is at pose [p] when [update] runs. *)
Definition frame (c : ObjId) (s : World * t) (p : Pose) : World * t :=
  (update (writePose c p s.1) s.2).1.

Definition frames (c : ObjId) (ps : list Pose) (s : World * t) : World * t :=
  foldl (frame c) s ps.

(** The factor that [update] applies to the controller's displacement. *)
Definition sensitivity (w : World) : Qc :=
  if mobile w then Q2Qc 2 else Q2Qc 1.

End XRFrames.

(** ** More concrete sessions *)

Module MoreSessions.
Import Three Store Sessions.

(** The two parts with the product group (node 1) made draggable beside the
    frame (node 10). *)
Definition nested : World := write_array 2 [10; 1] twoParts.1.

(** The viewer acting as host of a shared session. *)
Definition hosting : World :=
  mkWorld (objects afterPress.1) (arrays afterPress.1) (controls afterPress.1)
    (appControls afterPress.1) true (emitted afterPress.1) (mobile afterPress.1).

(** The number of moves of a run that translate the selected object: every
    move with a plane intersection but the first one of the session. *)
Definition translations (stored : option Three.Vector3)
    (moves : list InteractionManager.DragMove) : nat :=
  match stored with
  | Some _ => length (omap InteractionManager.intersection moves)
  | None => pred (length (omap InteractionManager.intersection moves))
  end.

(** Poses of the right controller on three frames. *)
Definition somePoses : list XRFrames.Pose :=
  [XRFrames.mkPose (Three.mkVector3 (Q2Qc 1) (Q2Qc 0) (Q2Qc 0)) Sessions.turn0;
   XRFrames.mkPose (Three.mkVector3 (Q2Qc 1) (Q2Qc (1 # 2)) (Q2Qc 0)) Sessions.turn1;
   XRFrames.mkPose (Three.mkVector3 (Q2Qc 0) (Q2Qc 2) (Q2Qc (-1))) Sessions.turn1].

End MoreSessions.

(** ** Attachment of the registered containers

    What the registry keeps besides [App.consistent]: the product group
    lists no child twice and only nodes of the store, and every registered
    container has the product group for parent. *)

Module Attachment.
Import Store App.

Definition attached (s : World * t) : Prop :=
  NoDup (children (obj s.1 (productGroup s.2)))
  ∧ (∀ c, c ∈ children (obj s.1 (productGroup s.2)) → live s.1 c)
  ∧ (∀ v, v ∈ values s.2 →
          parent (obj s.1 v) = Some (productGroup s.2)
          ∧ v ≠ productGroup s.2).

End Attachment.

(** ** Runs of colour choices

    [addRecentColor] called for each colour of [cs] in turn, and the
    distinct entries of a list in order of first occurrence. *)

Module RecentRuns.
Import UiControls.

Definition addRecentColors (cs : list string) (ls : LocalStorage)
    : LocalStorage :=
  foldl (λ ls c, addRecentColor c ls) ls cs.

Fixpoint distinct (l : list string) : list string :=
  match l with
  | [] => []
  | c :: l' => c :: filter (λ d, d ≠ c) (distinct l')
  end.

End RecentRuns.

(** ** app.js: rotation of the product by touch and by the AR buttons

    The three touch listeners of the document and [rotateModel].  They read
    [isARMode] and the product group's [visible], and write the product
    group's [rotation.y] and four fields of the app.  Numbers are exact
    rationals; [Math.atan2] is any function of two numbers. *)

Module TouchRotation.

(** An entry of [e.touches]. *)
Record Touch := mkTouch {
  clientX : Qc;
  clientY : Qc;
}.

Record t := mk {
  isARMode : bool;
  visible : bool;
  rotationY : Qc;
  lastTouchAngle : option Qc;
  touchStartX : option Qc;
  initialRotationY : Qc;
  isSingleTouchRotating : bool;
}.

Definition set_rotationY (v : Qc) (s : t) : t :=
  mk (isARMode s) (visible s) v (lastTouchAngle s) (touchStartX s)
    (initialRotationY s) (isSingleTouchRotating s).
Definition set_lastTouchAngle (v : option Qc) (s : t) : t :=
  mk (isARMode s) (visible s) (rotationY s) v (touchStartX s)
    (initialRotationY s) (isSingleTouchRotating s).
Definition set_touchStartX (v : option Qc) (s : t) : t :=
  mk (isARMode s) (visible s) (rotationY s) (lastTouchAngle s) v
    (initialRotationY s) (isSingleTouchRotating s).
Definition set_initialRotationY (v : Qc) (s : t) : t :=
  mk (isARMode s) (visible s) (rotationY s) (lastTouchAngle s) (touchStartX s)
    v (isSingleTouchRotating s).
Definition set_isSingleTouchRotating (v : bool) (s : t) : t :=
  mk (isARMode s) (visible s) (rotationY s) (lastTouchAngle s) (touchStartX s)
    (initialRotationY s) v.

(** The constructor's values, for a product group at rotation 0. *)
Definition initial : t := mk false true (Q2Qc 0) None None (Q2Qc 0) false.

(** [rotateModel('y', angle)]. *)
Definition rotateModel (angle : Qc) (s : t) : t :=
  set_rotationY (rotationY s + angle)%Qc s.

(** The numeric value of [touchStartX], [null] counting as 0. *)
Definition number (v : option Qc) : Qc := default (Q2Qc 0) v.

Definition rotationFactor : Qc := Q2Qc (1 # 100).

Section Handlers.

Variable atan2 : Qc → Qc → Qc.

(** The angle of the line from the first touch to the second. *)
Definition angle (t0 t1 : Touch) : Qc :=
  atan2 (clientY t1 - clientY t0)%Qc (clientX t1 - clientX t0)%Qc.

Definition onTouchStart (touches : list Touch) (s : t) : t :=
  if negb (isARMode s) then
    match touches with
    | [t0; t1] =>
        if visible s then set_lastTouchAngle (Some (angle t0 t1)) s else s
    | _ => s
    end
  else
    match touches with
    | [t0] =>
        set_isSingleTouchRotating true
          (set_initialRotationY (rotationY s)
             (set_touchStartX (Some (clientX t0)) s))
    | [t0; t1] => set_lastTouchAngle (Some (angle t0 t1)) s
    | _ => s
    end.

(** The two-finger branch of [onTouchMove], the same in both modes. *)
Definition twist (t0 t1 : Touch) (last : Qc) (s : t) : t :=
  let currentAngle := angle t0 t1 in
  let angleDiff := (currentAngle - last)%Qc in
  set_lastTouchAngle (Some currentAngle)
    (set_rotationY (rotationY s + angleDiff)%Qc s).

(** [onTouchMove]; the boolean tells whether [e.preventDefault()] was
    called. *)
Definition onTouchMove (touches : list Touch) (s : t) : t * bool :=
  if negb (isARMode s) then
    match touches, lastTouchAngle s with
    | [t0; t1], Some last =>
        if visible s then (twist t0 t1 last s, true) else (s, false)
    | _, _ => (s, false)
    end
  else if visible s then
    match touches with
    | [t0] =>
        if isSingleTouchRotating s then
          let touchDeltaX := (clientX t0 - number (touchStartX s))%Qc in
          (set_rotationY
             (initialRotationY s + touchDeltaX * rotationFactor)%Qc s, true)
        else (s, false)
    | [t0; t1] =>
        match lastTouchAngle s with
        | Some last => (twist t0 t1 last s, true)
        | None => (s, false)
        end
    | _ => (s, false)
    end
  else (s, false).

(** [onTouchEnd], with the touches that remain. *)
Definition onTouchEnd (touches : list Touch) (s : t) : t :=
  let s := if decide (length touches < 2) then set_lastTouchAngle None s else s in
  if decide (length touches = 0) then set_isSingleTouchRotating false s else s.

(** The events that reach these handlers. *)
Inductive Event :=
| TouchStart (touches : list Touch)
| TouchMove (touches : list Touch)
| TouchEnd (touches : list Touch)
| RotateButton (angle : Qc).

Definition step (s : t) (e : Event) : t :=
  match e with
  | TouchStart ts => onTouchStart ts s
  | TouchMove ts => (onTouchMove ts s).1
  | TouchEnd ts => onTouchEnd ts s
  | RotateButton a => rotateModel a s
  end.

Definition run (es : list Event) (s : t) : t := foldl step s es.

(** The events that leave the snapshot of a one-finger rotation in place:
    all but a [touchstart] with one touch, which takes a new snapshot, and a
    [touchend] with no touch left, which ends the rotation. *)
Definition keepsSnapshot (e : Event) : bool :=
  match e with
  | TouchStart ts => negb (bool_decide (length ts = 1))
  | TouchEnd ts => negb (bool_decide (length ts = 0))
  | TouchMove _ | RotateButton _ => true
  end.

Definition isTouch (e : Event) : bool :=
  match e with
  | RotateButton _ => false
  | _ => true
  end.

End Handlers.

(** The product shown in an AR session, and a twist followed by a
    one-finger move. *)
Definition placed : t := mk true true (Q2Qc 1) None None (Q2Qc 0) false.

Definition finger (x : Z) : Touch := mkTouch (Q2Qc (inject_Z x)) (Q2Qc 0).

Definition twistThenLift : list Event :=
  [TouchStart [finger 10; finger 50];
   TouchMove [finger 10; finger 70];
   TouchEnd [finger 10]].

(** A stand-in for [Math.atan2] in the concrete sessions. *)
Definition slope (dy dx : Qc) : Qc := (dy + dx)%Qc.

End TouchRotation.

(** ** modalManager.js

    The overlay, the browser's timers and the four functions of the module.
    [setInterval] and [setTimeout] draw their ids from one counter that
    starts at 1, and [clearInterval] and [clearTimeout] remove an id from
    the one list of active timers, as the HTML standard has it.  Only
    [hideModal] and [showConfirmationModal] are exported, so that a callback
    handed to [showModal] reaches the module through these two only. *)

Module Modal.

(** A call made by a callback: one of the two exported functions, or
    something outside the module, of which the tag is recorded. *)
Inductive Call :=
| CallHideModal
| CallShowConfirmationModal (message : string)
| Other (tag : nat).

Definition Callback := list Call.

Record Button := mkButton {
  text : string;
  onClick : option Callback;
  autoTimeoutCallback : option Callback;
}.

(** The argument of [showModal]; [countdown] is [None] when it is not a
    number. *)
Record Config := mkConfig {
  title : string;
  message : string;
  countdown : option Qc;
  buttons : list Button;
}.

(** [style.display] of the overlay: not set (the style sheet hides the
    overlay), ['flex'] or ['none']. *)
Inductive Display := Unset | Flex | Hidden.

(** The overlay element: its style, the texts of its parts ([timerText] is
    the number shown after "Auto-close in", [None] for the empty text), its
    buttons and the two ids it remembers. *)
Record Overlay := mkOverlay {
  display : Display;
  titleText : string;
  messageText : string;
  timerText : option Qc;
  buttonList : list Button;
  _interval : option nat;
  _timeout : option nat;
}.

(** An active timer with what its closure holds: [timeLeft] for the
    interval; the interval's id and [buttons[0].autoTimeoutCallback], when
    there is one, for the timeout. *)
Inductive Timer :=
| Interval (timeLeft : Qc)
| Timeout (interval : nat) (auto : option Callback).

Record State := mkState {
  modalOverlay : option Overlay;
  timers : gmap nat Timer;
  nextTimer : nat;
  called : list nat;
}.

Definition initial : State := mkState None ∅ 1 [].

Definition newOverlay : Overlay := mkOverlay Unset "" "" None [] None None.

(** [if (modalOverlay._interval) { clearInterval(...); ... = null; }]: an
    id is truthy when it is not 0. *)
Definition clearStoredInterval (o : Overlay) (tm : gmap nat Timer)
    : Overlay * gmap nat Timer :=
  match _interval o with
  | Some i =>
      if decide (i = 0) then (o, tm)
      else (mkOverlay (display o) (titleText o) (messageText o) (timerText o)
              (buttonList o) None (_timeout o), delete i tm)
  | None => (o, tm)
  end.

Definition clearStoredTimeout (o : Overlay) (tm : gmap nat Timer)
    : Overlay * gmap nat Timer :=
  match _timeout o with
  | Some i =>
      if decide (i = 0) then (o, tm)
      else (mkOverlay (display o) (titleText o) (messageText o) (timerText o)
              (buttonList o) (_interval o) None, delete i tm)
  | None => (o, tm)
  end.

Definition clearStored (o : Overlay) (tm : gmap nat Timer)
    : Overlay * gmap nat Timer :=
  let '(o, tm) := clearStoredInterval o tm in
  clearStoredTimeout o tm.

Definition showModal (cfg : Config) (s : State) : State :=
  let o := default newOverlay (modalOverlay s) in
  let '(o, tm) := clearStored o (timers s) in
  match countdown cfg with
  | Some n =>
      let interval := nextTimer s in
      let timeout := S interval in
      let tm := <[interval := Interval n]> tm in
      let tm :=
        <[timeout := Timeout interval
                       (b ← head (buttons cfg); autoTimeoutCallback b)]> tm in
      mkState
        (Some (mkOverlay Flex (title cfg) (message cfg) (Some n) (buttons cfg)
                 (Some interval) (Some timeout)))
        tm (S timeout) (called s)
  | None =>
      mkState
        (Some (mkOverlay Flex (title cfg) (message cfg) None (buttons cfg)
                 (_interval o) (_timeout o)))
        tm (nextTimer s) (called s)
  end.

Definition hideModal (s : State) : State :=
  match modalOverlay s with
  | Some o =>
      let o :=
        mkOverlay Hidden (titleText o) (messageText o) (timerText o)
          (buttonList o) (_interval o) (_timeout o) in
      let '(o, tm) := clearStored o (timers s) in
      mkState (Some o) tm (nextTimer s) (called s)
  | None => s
  end.

Definition showConfirmationModal (msg : string) (s : State) : State :=
  showModal
    (mkConfig "Confirmation" msg None
       [mkButton "Confirm" (Some [CallHideModal]) None]) s.

Definition runCall (s : State) (c : Call) : State :=
  match c with
  | CallHideModal => hideModal s
  | CallShowConfirmationModal msg => showConfirmationModal msg s
  | Other tag =>
      mkState (modalOverlay s) (timers s) (nextTimer s) (called s ++ [tag])
  end.

Definition runCallback (cb : option Callback) (s : State) : State :=
  match cb with
  | Some calls => foldl runCall s calls
  | None => s
  end.

(** A click on the [k]-th button of the overlay. *)
Definition click (k : nat) (s : State) : State :=
  match modalOverlay s with
  | Some o =>
      match buttonList o !! k with
      | Some btn => hideModal (runCallback (onClick btn) s)
      | None => s
      end
  | None => s
  end.

(** The interval [id] comes due. *)
Definition tick (id : nat) (s : State) : State :=
  match timers s !! id with
  | Some (Interval timeLeft) =>
      let timeLeft := (timeLeft - 1)%Qc in
      mkState
        ((λ o, mkOverlay (display o) (titleText o) (messageText o)
                 (Some timeLeft) (buttonList o) (_interval o) (_timeout o))
           <$> modalOverlay s)
        (<[id := Interval timeLeft]> (timers s)) (nextTimer s) (called s)
  | _ => s
  end.

(** The timeout [id] comes due; it leaves the list of active timers. *)
Definition fire (id : nat) (s : State) : State :=
  match timers s !! id with
  | Some (Timeout interval auto) =>
      let tm := delete interval (delete id (timers s)) in
      let o :=
        (λ o, mkOverlay (display o) (titleText o) (messageText o)
                (timerText o) (buttonList o) None (_timeout o))
          <$> modalOverlay s in
      runCallback auto (hideModal (mkState o tm (nextTimer s) (called s)))
  | _ => s
  end.

(** What can happen to the module. *)
Inductive Event :=
| ShowModal (cfg : Config)
| ShowConfirmationModal (msg : string)
| HideModal
| Click (k : nat)
| Tick (id : nat)
| Fire (id : nat).

Definition step (s : State) (e : Event) : State :=
  match e with
  | ShowModal cfg => showModal cfg s
  | ShowConfirmationModal msg => showConfirmationModal msg s
  | HideModal => hideModal s
  | Click k => click k s
  | Tick id => tick id s
  | Fire id => fire id s
  end.

Definition run (es : list Event) : State := foldl step initial es.

(** The overlay remembers the timer [id]. *)
Definition remembered (id : nat) (t : Timer) (o : Overlay) : Prop :=
  match t with
  | Interval _ => _interval o = Some id
  | Timeout interval _ => _timeout o = Some id ∧ _interval o = Some interval
  end.

(** Every active timer has an id below the counter and is remembered by
    the overlay, which is shown. *)
Definition tidy (s : State) : Prop :=
  0 < nextTimer s
  ∧ ∀ id t, timers s !! id = Some t →
            0 < id < nextTimer s
            ∧ ∃ o, modalOverlay s = Some o ∧ display o = Flex
                   ∧ remembered id t o.

(** A modal that closes by itself after three seconds. *)
Definition countdownModal : Config :=
  mkConfig "Saved" "The file is saved." (Some (Q2Qc 3))
    [mkButton "OK" None (Some [Other 7])].

End Modal.

(** ** Runs of render frames

    The animation-loop callback called once per frame, each frame with the
    answer of its hit test when it is an XR frame. *)

Module RenderLoop.
Import Three Store.

Definition animateRun (frames : list (option (list Vector3)))
    (s : World * App.t) : World * App.t :=
  foldl (λ s frame, (App.animate frame s.1 s.2).1) s frames.

End RenderLoop.

(** ** uiControls.js: the colour picker

    Materials are objects shared by the meshes that use them: a store of
    materials by reference, and the loaded models as trees whose nodes name
    the materials of their meshes.  [Color.getHexString], the [THREE.Color]
    constructor on a colour string and the capitalisation of a name are any
    functions. *)

Module Materials.
Import UiControls.

(** [THREE.Color]: three numbers. *)
Record Color := mkColor {
  red : Qc;
  green : Qc;
  blue : Qc;
}.

Record Material := mkMaterial {
  name : string;
  uuid : string;
  color : Color;
  originalColor : option string;
}.

Definition MatRef := nat.

Abbreviation MaterialStore := (gmap MatRef Material).

(** A node of a loaded model with the materials of its mesh, in the order
    of its [material] array; none when the node is not a mesh or has no
    material. *)
#[local] Unset Elimination Schemes.
Inductive Node := mkNode (nodeMaterials : list MatRef) (nodeChildren : list Node).
#[local] Set Elimination Schemes.

(** The materials that [traverse] meets, in its order: the node first,
    then its children from first to last. *)
Fixpoint traversed (n : Node) : list MatRef :=
  match n with
  | mkNode ms cs =>
      ms ++ (fix each (cs : list Node) : list MatRef :=
               match cs with
               | [] => []
               | c :: cs' => traversed c ++ each cs'
               end) cs
  end.

(** An entry of the material map; the mesh it also holds is never read. *)
Record MaterialData := mkMaterialData {
  model : string;
  material : MatRef;
}.

Definition MaterialMap := list (string * MaterialData).

(** [Map.prototype.set] and [get]. *)
Fixpoint mapSet (k : string) (v : MaterialData) (m : MaterialMap) : MaterialMap :=
  match m with
  | [] => [(k, v)]
  | (k', v') :: m' =>
      if decide (k' = k) then (k, v) :: m' else (k', v') :: mapSet k v m'
  end.

Fixpoint mapGet (k : string) (m : MaterialMap) : option MaterialData :=
  match m with
  | [] => None
  | (k', v') :: m' => if decide (k' = k) then Some v' else mapGet k m'
  end.

(** Truthiness of [userData.originalColor]: [undefined] and the empty
    string are not. *)
Definition truthy (v : option string) : bool :=
  match v with
  | Some s => bool_decide (s ≠ "")
  | None => false
  end.

Definition set_color (c : Color) (m : Material) : Material :=
  mkMaterial (name m) (uuid m) c (originalColor m).
Definition set_originalColor (v : option string) (m : Material) : Material :=
  mkMaterial (name m) (uuid m) (color m) v.

Section Picker.

Variable getHexString : Color → string.
Variable parseColor : string → Color.
Variable capitalize : string → string.

(** [material.name || material.uuid], capitalised, [" - "], the name of the
    model. *)
Definition fullName (modelName : string) (m : Material) : string :=
  let matName := if decide (name m = "") then uuid m else name m in
  capitalize matName +:+ " - " +:+ modelName.

(** The body of [materials.forEach]. *)
Definition visit (modelName : string) (s : MaterialStore * MaterialMap)
    (r : MatRef) : MaterialStore * MaterialMap :=
  match s.1 !! r with
  | Some m =>
      let st :=
        if truthy (originalColor m) then s.1
        else <[r := set_originalColor (Some ("#" +:+ getHexString (color m))) m]> s.1 in
      (st, mapSet (fullName modelName m) (mkMaterialData modelName r) s.2)
  | None => s
  end.

(** [getMaterialsByName] over the entries of [loadedModels]. *)
Definition getMaterialsByName (models : list (string * Node))
    (st : MaterialStore) : MaterialStore * MaterialMap :=
  foldl (λ s entry, foldl (visit entry.1) s (traversed entry.2)) (st, []) models.

Definition applyColorToMaterial (materialMap : MaterialMap) (materialKey : string)
    (colorValue : string) (st : MaterialStore) : MaterialStore :=
  match mapGet materialKey materialMap with
  | Some materialData =>
      alter (set_color (parseColor colorValue)) (material materialData) st
  | None => st
  end.

(** The colour picker opened on the models loaded at that moment, and
    closed by Cancel or by Apply with the selected key and the colour of the
    input.  With no material the picker does not open. *)
Inductive Picked :=
| Cancelled
| Applied (materialKey colorValue : string).

Definition showMaterialColorPicker (models : list (string * Node))
    (choice : Picked) (s : MaterialStore * LocalStorage)
    : MaterialStore * LocalStorage :=
  let '(st, materialMap) := getMaterialsByName models s.1 in
  match materialMap, choice with
  | [], _ => (st, s.2)
  | _, Cancelled => (st, s.2)
  | _, Applied materialKey colorValue =>
      (applyColorToMaterial materialMap materialKey colorValue st,
       addRecentColor colorValue s.2)
  end.

Definition pickerRun (sessions : list (list (string * Node) * Picked))
    (s : MaterialStore * LocalStorage) : MaterialStore * LocalStorage :=
  foldl (λ s session, showMaterialColorPicker session.1 session.2 s) s sessions.

(** How a material [m] that was [m0] can differ after visits: in its
    original colour only, recorded from its colour when there was none. *)
Definition captured (m0 m : Material) : Prop :=
  name m = name m0 ∧ uuid m = uuid m0 ∧ color m = color m0
  ∧ (originalColor m = originalColor m0
     ∨ (truthy (originalColor m0) = false
        ∧ originalColor m = Some ("#" +:+ getHexString (color m0)))).

End Picker.

(** The visits of [getMaterialsByName] in order, each with the model's
    name and the material. *)
Definition visits (models : list (string * Node)) : list (string * MatRef) :=
  models ≫= λ entry, (λ r, (entry.1, r)) <$> traversed entry.2.

(** The key under which a visit files its material. *)
Definition keyOf (capitalize : string → string) (st : MaterialStore)
    (v : string * MatRef) : option string :=
  fullName capitalize v.1 <$> st !! v.2.

(** The material that the picker recolours for the key [k]: that of the
    last visit filed under [k]. *)
Definition target (capitalize : string → string) (st : MaterialStore)
    (models : list (string * Node)) (k : string) : option MatRef :=
  snd <$> last (filter (λ v, keyOf capitalize st v = Some k) (visits models)).

(** A model with two meshes that share the material 1 and a mesh with the
    material 2, both materials named "steel". *)
Definition steel (c : Qc) : Material :=
  mkMaterial "steel" "u" (mkColor c c c) None.

Definition knife : Node :=
  mkNode [] [mkNode [1] []; mkNode [2] [mkNode [1] []]].

Definition knifeMaterials : MaterialStore :=
  <[1 := steel (Q2Qc 0)]> (<[2 := steel (Q2Qc 1)]> ∅).

(** Stand-ins for the three functions in the concrete sessions. *)
Definition hexOf (c : Color) : string :=
  if decide (red c = Q2Qc 0) then "000000" else "ffffff".

Definition colorOf (v : string) : Color :=
  if decide (v = "#000000") then mkColor (Q2Qc 0) (Q2Qc 0) (Q2Qc 0)
  else mkColor (Q2Qc 1) (Q2Qc 1) (Q2Qc 1).

Definition asIs (v : string) : string := v.

End Materials.

(** ** app.js: the names of uploaded files

    [String.prototype.replace] with a string pattern and the empty
    replacement removes the first occurrence of the pattern; the [onchange]
    handler of the file input derives the name of a model from the name of
    its file with two such calls. *)

Module Upload.
Import Three Store App.

Fixpoint skip (n : nat) (s : string) : string :=
  match n, s with
  | 0, _ => s
  | S n', String _ s' => skip n' s'
  | S _, EmptyString => EmptyString
  end.

(** [s.replace(pattern, '')]. *)
Fixpoint replaceFirst (pattern s : string) : string :=
  if String.prefix pattern s then skip (String.length pattern) s
  else
    match s with
    | EmptyString => EmptyString
    | String c s' => String c (replaceFirst pattern s')
    end.

(** [file.name.replace('.glb', '').replace('.gltf', '')]. *)
Definition modelName (fileName : string) : string :=
  replaceFirst ".gltf" (replaceFirst ".glb" fileName).

Fixpoint hasChar (c : Ascii.ascii) (s : string) : bool :=
  match s with
  | EmptyString => false
  | String d s' => if Ascii.ascii_dec d c then true else hasChar c s'
  end.

(** The character ['.']. *)
Definition dot : Ascii.ascii := Ascii.ascii_of_nat 46.

(** A selected file: its name and the scene that the loader decodes from
    it, [None] when loading fails. *)
Definition File := (string * option Object3D)%type.

(** The [onchange] handler of the file input.  With no file selected
    nothing is cleared; a file that fails to load is passed over. *)
Definition onchange (files : list File) (s : World * t) : World * t :=
  match files with
  | [] => s
  | _ =>
      foldl (λ s file,
               match file.2 with
               | Some model => loadModel (modelName file.1) model s.1 s.2
               | None => s
               end)
        (clearExistingModels s.1 s.2) files
  end.

End Upload.

(** ** Accumulated differences

    The differences between the neighbours of [P0; P1; ...; Pn], each as
    [subVectors] computes it: [P1 - P0; ...; Pn - P(n-1)]. *)

Module Accumulation.
Import Three.

Fixpoint differences (l : list Vector3) : list Vector3 :=
  match l with
  | a :: (b :: _) as rest => subVectors b a :: differences rest
  | _ => []
  end.

End Accumulation.

(** ** The arithmetic of three.js in binary64

    JavaScript numbers are IEEE 754 doubles, and every operation rounds.
    The vector and quaternion operations below are those of [Three] on
    doubles, with the operations in the order in which three.js writes them,
    together with the two computations of the interaction manager in which
    the rounding shows: the position of the selected object under
    [handleDrag], and its orientation under [update] in rotation mode. *)

Module Doubles.
Import PrimFloat.

Local Open Scope float_scope.

Record Vector3 := mkVector3 { x : float; y : float; z : float }.

Record Quaternion := mkQuaternion { qx : float; qy : float; qz : float; qw : float }.

(** [Vector3.add], [Vector3.subVectors]. *)
Definition add (a b : Vector3) : Vector3 :=
  mkVector3 (x a + x b) (y a + y b) (z a + z b).

Definition subVectors (a b : Vector3) : Vector3 :=
  mkVector3 (x a - x b) (y a - y b) (z a - z b).

(** [Quaternion.multiply], that is [multiplyQuaternions(a, b)]. *)
Definition multiply (a b : Quaternion) : Quaternion :=
  mkQuaternion
    (qx a * qw b + qw a * qx b + qy a * qz b - qz a * qy b)
    (qy a * qw b + qw a * qy b + qz a * qx b - qx a * qz b)
    (qz a * qw b + qw a * qz b + qx a * qy b - qy a * qx b)
    (qw a * qw b - qx a * qx b - qy a * qy b - qz a * qz b).

(** [Quaternion.invert] is [conjugate]: x, y and z are multiplied by -1. *)
Definition invert (a : Quaternion) : Quaternion :=
  mkQuaternion (qx a * -1) (qy a * -1) (qz a * -1) (qw a).

Definition identity : Quaternion := mkQuaternion 0 0 0 1.

(** *** [handleDrag]

    The selected object's position and the stored intersection, from
    [if (rayIntersectsPlane)] on; the argument is the intersection of the
    ray with the drag plane, [None] when the ray misses it. *)
Record Drag := mkDrag {
  position : Vector3;
  lastDragPoint : option Vector3;
}.

Definition handleDrag (intersectionPoint : option Vector3) (s : Drag) : Drag :=
  match intersectionPoint with
  | Some P =>
      match lastDragPoint s with
      | None => mkDrag (position s) (Some P)
      | Some L =>
          let dragDelta := subVectors P L in
          mkDrag (add (position s) dragDelta) (Some P)
      end
  | None => s
  end.

Definition dragMoves (hits : list (option Vector3)) (s : Drag) : Drag :=
  foldl (λ s hit, handleDrag hit s) s hits.

(** The differences between the neighbours of a list of points, as
    [subVectors] computes them. *)
Fixpoint differences (l : list Vector3) : list Vector3 :=
  match l with
  | a :: (b :: _) as rest => subVectors b a :: differences rest
  | _ => []
  end.

(** *** [update] in rotation mode

    The selected object's orientation and the two snapshots that
    [onControllerSqueezeStart] takes. *)
Record Turning := mkTurning {
  objectQuaternion : Quaternion;
  startControllerQuaternion : Quaternion;
  startObjectQuaternion : Quaternion;
}.

Definition onControllerSqueezeStart (controller object : Quaternion) : Turning :=
  mkTurning object controller object.

Definition update (currentControllerQuaternion : Quaternion) (s : Turning)
    : Turning :=
  let deltaQuaternion :=
    multiply currentControllerQuaternion (invert (startControllerQuaternion s)) in
  let newObjectQuaternion := multiply deltaQuaternion (startObjectQuaternion s) in
  mkTurning newObjectQuaternion (startControllerQuaternion s)
    (startObjectQuaternion s).

(** *** Concrete runs

    The doubles nearest to 0.1, 0.3 and 0.7, as the quotients of integers;
    two drags of an object at the origin along the x axis, from the
    intersection 0.1 to the intersection 0.3, one of them by way of 0.7; and
    a controller squeezed at the orientation (0.1, 0.7, 0.1, 0.7), whose
    squared length is 1 in exact arithmetic, on an object at the identity. *)
Definition tenths (n : float) : float := n / 10.

Definition along (v : float) : Vector3 := mkVector3 v 0 0.

Definition start : Drag := mkDrag (mkVector3 0 0 0) None.

Definition direct : Drag :=
  dragMoves [Some (along (tenths 1)); Some (along (tenths 3))] start.

Definition detour : Drag :=
  dragMoves [Some (along (tenths 1)); Some (along (tenths 7));
             Some (along (tenths 3))] start.

Definition squeezedAt : Quaternion :=
  mkQuaternion (tenths 1) (tenths 7) (tenths 1) (tenths 7).

Definition returned : Turning :=
  update squeezedAt (onControllerSqueezeStart squeezedAt identity).

End Doubles.

(** ** Theorems *)

(** *** The store *)

Module StoreFacts.
Import Three Store.

Lemma obj_update_eq (w : World) (i : ObjId) (f : Object3D → Object3D) :
  live w i → obj (update_obj i f w) i = f (obj w i).
Proof.
  intros [o Ho]. unfold obj, update_obj; simpl.
  rewrite lookup_total_alter_eq, Ho; simpl.
  by rewrite (lookup_total_correct _ _ _ Ho).
Qed.

Lemma obj_update_ne (w : World) (i j : ObjId) (f : Object3D → Object3D) :
  i ≠ j → obj (update_obj i f w) j = obj w j.
Proof. intros Hne. unfold obj, update_obj; simpl. by rewrite lookup_total_alter_ne. Qed.

Lemma live_update (w : World) (i j : ObjId) (f : Object3D → Object3D) :
  live (update_obj i f w) j ↔ live w j.
Proof.
  unfold live, update_obj; simpl. rewrite lookup_alter.
  case_decide; subst; [|done]. by rewrite fmap_is_Some.
Qed.

(** An update through a reference that denotes no node changes nothing. *)
Lemma update_obj_dangling (w : World) (i : ObjId) (f : Object3D → Object3D) :
  objects w !! i = None → update_obj i f w = w.
Proof.
  intros Hi. destruct w as [os ? ? ? ? ? ?]; unfold update_obj, with_objects; simpl in *.
  f_equal. apply map_eq; intros j. rewrite lookup_alter.
  case_decide; subst; [by rewrite Hi|done].
Qed.

(** What an update leaves alone in every node: any field that the update
    function itself keeps. *)
Lemma obj_update_field {A} (g : Object3D → A) (w : World) (i j : ObjId)
    (f : Object3D → Object3D) :
  (∀ o, g (f o) = g o) → g (obj (update_obj i f w) j) = g (obj w j).
Proof.
  intros Hg. destruct (decide (i = j)) as [->|Hne].
  - destruct (objects w !! j) as [o|] eqn:Ho.
    + rewrite obj_update_eq; [apply Hg | by exists o].
    + by rewrite update_obj_dangling.
  - by rewrite obj_update_ne.
Qed.

Lemma update_obj_arrays (i : ObjId) (f : Object3D → Object3D) (w : World) :
  arrays (update_obj i f w) = arrays w.
Proof. done. Qed.

Lemma alloc_obj_fresh (o : Object3D) (w : World) :
  objects w !! (alloc_obj o w).1 = None.
Proof. apply not_elem_of_dom, is_fresh. Qed.

Lemma alloc_obj_new (o : Object3D) (w : World) :
  obj (alloc_obj o w).2 (alloc_obj o w).1 = o.
Proof. unfold obj, alloc_obj; simpl. by rewrite lookup_total_insert_eq. Qed.

Lemma alloc_obj_live (o : Object3D) (w : World) (j : ObjId) :
  live (alloc_obj o w).2 j ↔ j = (alloc_obj o w).1 ∨ live w j.
Proof.
  unfold live, alloc_obj; simpl. rewrite lookup_insert_is_Some.
  pose proof (alloc_obj_fresh o w) as Hf. unfold alloc_obj in Hf; simpl in Hf.
  split.
  - intros [->|[_ H]]; auto.
  - intros [->|H]; [by left|]. right. split; [|done].
    intros <-. destruct H as [x Hx]. congruence.
Qed.

Lemma alloc_obj_old (o : Object3D) (w : World) (j : ObjId) :
  live w j → obj (alloc_obj o w).2 j = obj w j.
Proof.
  intros Hj. unfold obj, alloc_obj; simpl.
  rewrite lookup_total_insert_ne; [done|].
  intros E. pose proof (alloc_obj_fresh o w) as Hf.
  unfold alloc_obj in Hf; simpl in Hf. rewrite E in Hf.
  destruct Hj as [x Hx]. congruence.
Qed.

Lemma alloc_array_read (l : list ObjId) (w : World) :
  arr (alloc_array l w).2 (alloc_array l w).1 = l.
Proof. unfold arr, alloc_array; simpl. by rewrite lookup_insert_eq. Qed.

Lemma alloc_array_objects (l : list ObjId) (w : World) :
  objects (alloc_array l w).2 = objects w.
Proof. done. Qed.

Lemma remove_live (p c : ObjId) (w : World) (j : ObjId) :
  live (remove p c w) j ↔ live w j.
Proof. unfold remove. case_decide; [|done]. by rewrite !live_update. Qed.

Lemma add_child_orphan (p c : ObjId) (w : World) :
  parent (obj w c) = None →
  add_child p c w
  = update_obj p (λ o, with_children (children o ++ [c]) o)
      (update_obj c (with_parent (Some p)) w).
Proof. intros H. unfold add_child. by rewrite H. Qed.

End StoreFacts.

(** *** The walk to the top-level draggable ancestor returns *)

Module WalkFacts.
Import Three Store StoreFacts InteractionManager.

Lemma walk_climbs (w : World) (dr : list ObjId) (sc : ObjId)
    (object : option ObjId) (path : list ObjId) :
  climbs w sc object path →
  ∀ fuel found, length path < fuel →
    topLevelDraggable fuel w dr sc object found
    = Some (foldl (pick dr) found path).
Proof.
  induction 1 as [| |o path Hne Hc IH]; intros fuel found Hlen;
    (destruct fuel as [|fuel]; [simpl in Hlen; lia|]); simpl.
  - done.
  - by rewrite decide_True.
  - rewrite decide_False by done. rewrite IH by (simpl in Hlen; lia). done.
Qed.

Lemma pick_last (dr : list ObjId) (path : list ObjId) (found : option ObjId) :
  foldl (pick dr) found path
  = match last (filter (λ o, o ∈ dr) path) with
    | Some t => Some t
    | None => found
    end.
Proof.
  revert found. induction path as [|o path IH]; intros found; [done|].
  simpl. rewrite IH. unfold pick.
  destruct (decide (o ∈ dr)) as [Hin|Hin].
  - rewrite filter_cons_True by done.
    destruct (filter (λ o, o ∈ dr) path) as [|b l] eqn:E; [done|].
    change (last (o :: b :: l)) with (last (b :: l)).
    destruct (last (b :: l)) eqn:E'; [done|].
    by apply last_None in E'.
  - by rewrite filter_cons_False.
Qed.

Lemma climbs_functional (w : World) (sc : ObjId) (object : option ObjId)
    (p1 p2 : list ObjId) :
  climbs w sc object p1 → climbs w sc object p2 → p1 = p2.
Proof.
  intros H1. revert p2. induction H1 as [| |o path Hne Hc IH]; intros p2 H2;
    inversion H2; subst; try done.
  f_equal. by apply IH.
Qed.

Lemma climbs_from_member (w : World) (sc : ObjId) (object : option ObjId)
    (path : list ObjId) (i : ObjId) :
  climbs w sc object path → i ∈ path →
  ∃ p, climbs w sc (Some i) p ∧ length p ≤ length path.
Proof.
  induction 1 as [| |o path Hne Hc IH]; intros Hin.
  - by apply elem_of_nil in Hin.
  - apply list_elem_of_singleton in Hin as ->.
    exists [sc]. split; [constructor | done].
  - apply elem_of_cons in Hin as [->|Hin].
    + exists (o :: path). split; [by constructor | done].
    + destruct (IH Hin) as (p & Hp & Hl). exists p. split; [done|simpl; lia].
Qed.

Lemma climbs_NoDup (w : World) (sc : ObjId) (object : option ObjId)
    (path : list ObjId) :
  climbs w sc object path → NoDup path.
Proof.
  induction 1 as [| |o path Hne Hc IH].
  - constructor.
  - apply NoDup_singleton.
  - constructor; [|done]. intros Hin.
    destruct (climbs_from_member _ _ _ _ _ Hc Hin) as (p & Hp & Hl).
    assert (p = o :: path)
      by (eapply climbs_functional; [done | by constructor]).
    subst. simpl in Hl. lia.
Qed.

(** All the nodes on the way, but perhaps the last, are nodes of the
    store: a reference to no node has no parent link to follow. *)
Lemma climbs_live (w : World) (sc : ObjId) (object : option ObjId)
    (path : list ObjId) :
  climbs w sc object path →
  ∃ init rest, path = init ++ rest ∧ length rest ≤ 1 ∧ Forall (live w) init.
Proof.
  induction 1 as [| |o path Hne Hc IH].
  - exists [], []. repeat split; [simpl; lia | constructor].
  - exists [], [sc]. repeat split; [simpl; lia | constructor].
  - destruct (objects w !! o) as [ob|] eqn:Ho.
    + destruct IH as (init & rest & -> & Hl & Hf).
      exists (o :: init), rest. repeat split; [done|].
      constructor; [by exists ob | done].
    + assert (Hp : parent (obj w o) = None).
      { unfold obj. by rewrite lookup_total_alt, Ho. }
      rewrite Hp in Hc. inversion Hc; subst.
      exists [], [o]. repeat split; [simpl; lia | constructor].
Qed.

Lemma climbs_length (w : World) (sc : ObjId) (object : option ObjId)
    (path : list ObjId) :
  climbs w sc object path → length path < walk_fuel w.
Proof.
  intros Hc. pose proof (climbs_NoDup _ _ _ _ Hc) as Hnd.
  destruct (climbs_live _ _ _ _ Hc) as (init & rest & -> & Hl & Hf).
  apply NoDup_app in Hnd as (Hnd & _ & _).
  assert (length init ≤ size (objects w)).
  { rewrite <- (size_list_to_set (C := gset ObjId) init) by done.
    rewrite <- size_dom. apply subseteq_size.
    intros i Hi%elem_of_list_to_set. apply elem_of_dom.
    by eapply Forall_forall in Hf. }
  unfold walk_fuel. rewrite length_app. lia.
Qed.

(** On a scene graph whose parent links end, the walk of the press
    handlers returns, with the last draggable node met on the way up. *)
Lemma resolve_climbs (w : World) (m : t) (hit : ObjId) (path : list ObjId) :
  climbs w (scene m) (Some hit) path →
  resolve w m hit
  = Some (last (filter (λ o, o ∈ arr w (draggableObjects m)) path)).
Proof.
  intros Hc. unfold resolve.
  rewrite (walk_climbs _ _ _ _ _ Hc) by by eapply climbs_length.
  rewrite pick_last. by destruct (last _).
Qed.

End WalkFacts.

(** *** Vector and quaternion algebra *)

Module ThreeFacts.
Import Three.
Local Open Scope Qc_scope.

Lemma default_last_cons {A} (a b : A) (l : list A) :
  default a (last (b :: l)) = default b (last l).
Proof.
  destruct l as [|c l]; [done|].
  change (last (b :: c :: l)) with (last (c :: l)).
  destruct (last (c :: l)) eqn:E; [done | by apply last_None in E].
Qed.

Lemma Some_default_last {A} (b : A) (l : list A) :
  Some (default b (last l)) = last (b :: l).
Proof.
  destruct l as [|c l]; [done|].
  change (last (b :: c :: l)) with (last (c :: l)).
  destruct (last (c :: l)) eqn:E; [done | by apply last_None in E].
Qed.

End ThreeFacts.

(** *** Pointer drags *)

Module DragFacts.
Import Three Store StoreFacts ThreeFacts InteractionManager Accumulation Sessions.

Lemma handleDrag_step (cx cy : Qc) (hit : option Vector3) (w : World) (m : t)
    (sel : ObjId) :
  selectedObject m = Some sel → live w sel →
  let s' := handleDrag cx cy hit w m in
  isDragging s'.2 = isDragging m
  ∧ selectedObject s'.2 = Some sel
  ∧ live s'.1 sel
  ∧ lastDragPoint s'.2 = match hit with Some P => Some P | None => lastDragPoint m end
  ∧ position (obj s'.1 sel)
    = match hit, lastDragPoint m with
      | Some P, Some L => add (position (obj w sel)) (subVectors P L)
      | _, _ => position (obj w sel)
      end.
Proof.
  intros Hsel Hlive. unfold handleDrag. rewrite Hsel.
  destruct hit as [P|]; [|done]. simpl.
  destruct (lastDragPoint m) as [L|]; [|done]. simpl.
  set (w1 := update_obj sel _ w).
  assert (H1 : live w1 sel) by by apply live_update.
  assert (P1 : position (obj w1 sel) = add (position (obj w sel)) (subVectors P L))
    by (unfold w1; by rewrite obj_update_eq).
  set (w2 := match originalScale (obj w1 sel) with
             | Some s => update_obj sel (with_scale s) w1
             | None => w1
             end).
  assert (H2 : live w2 sel)
    by (unfold w2; destruct (originalScale _); [by apply live_update|done]).
  assert (P2 : position (obj w2 sel) = position (obj w1 sel)).
  { unfold w2; destruct (originalScale _); [|done].
    by rewrite (obj_update_field position). }
  repeat split; try done; destruct (host w2); simpl; try done;
    by rewrite <- P1, <- P2.
Qed.

Lemma onDragMove_step (e : DragMove) (w : World) (m : t) (sel : ObjId) :
  isDragging m = true → selectedObject m = Some sel → live w sel →
  let s' := onDragMove e (w, m) in
  isDragging s'.2 = true
  ∧ selectedObject s'.2 = Some sel
  ∧ live s'.1 sel
  ∧ lastDragPoint s'.2
    = match intersection e with Some P => Some P | None => lastDragPoint m end
  ∧ position (obj s'.1 sel)
    = match intersection e, lastDragPoint m with
      | Some P, Some L => add (position (obj w sel)) (subVectors P L)
      | _, _ => position (obj w sel)
      end.
Proof.
  intros Hd Hsel Hlive.
  destruct e as [e|e]; simpl; unfold onMouseMove, onTouchMove;
    rewrite Hd, Hsel.
  - pose proof (handleDrag_step (moveX e) (moveY e) (rayIntersectsPlane e)
                  w m sel Hsel Hlive) as H.
    simpl in H. by rewrite Hd in H.
  - destruct (moveTouches e) as [|t [|t' ts]]; simpl; try done.
    pose proof (handleDrag_step t.1 t.2 (touchRayIntersectsPlane e)
                  w m sel Hsel Hlive) as H.
    simpl in H. by rewrite Hd in H.
Qed.

(** From a stored intersection [L] on: the differences between the
    neighbours of [L] and the later intersections, added one after the
    other. *)
Lemma dragMoves_sum (moves : list DragMove) (w : World) (m : t)
    (sel : ObjId) (L : Vector3) :
  isDragging m = true → selectedObject m = Some sel → live w sel →
  lastDragPoint m = Some L →
  let s' := dragMoves moves (w, m) in
  isDragging s'.2 = true
  ∧ selectedObject s'.2 = Some sel
  ∧ live s'.1 sel
  ∧ lastDragPoint s'.2 = Some (default L (last (omap intersection moves)))
  ∧ position (obj s'.1 sel)
    = foldl add (position (obj w sel))
        (differences (L :: omap intersection moves)).
Proof.
  revert w m L. induction moves as [|e moves IH]; intros w m L Hd Hsel Hlive HL.
  { simpl. done. }
  cbn [dragMoves foldl]. fold (dragMoves moves (onDragMove e (w, m))).
  destruct (onDragMove_step e w m sel Hd Hsel Hlive) as (Hd1 & Hs1 & Hl1 & HL1 & Hp1).
  destruct (onDragMove e (w, m)) as [w1 m1]; cbn [fst snd] in *.
  rewrite HL in *.
  change (omap intersection (e :: moves))
    with (match intersection e with
          | Some P => P :: omap intersection moves
          | None => omap intersection moves
          end).
  destruct (intersection e) as [P|].
  - destruct (IH w1 m1 P Hd1 Hs1 Hl1 HL1) as (H1 & H2 & H3 & H4 & H5).
    rewrite default_last_cons.
    refine (conj H1 (conj H2 (conj H3 (conj H4 _)))).
    rewrite H5, Hp1. done.
  - destruct (IH w1 m1 L Hd1 Hs1 Hl1 HL1) as (H1 & H2 & H3 & H4 & H5).
    refine (conj H1 (conj H2 (conj H3 (conj H4 _)))).
    by rewrite H5, Hp1.
Qed.



End DragFacts.

(** *** The interaction manager: presses, frames, the draggable list *)

Module InteractionFacts.
Import Three Store StoreFacts ThreeFacts WalkFacts InteractionManager Sessions.


(** C5, as the code has it. The manager's [update] calls [update()] on its
    orbit controls exactly on the frames without an XR session: never
    while an XR session (and so an XR manipulation) is active, and on every
    other frame, a pointer or touch drag in progress included; on those
    frames it changes nothing else. *)
Theorem update_orbit_gate (w : World) (m : t) (r : CtlRef) :
  orbitControls m = Some r →
  (update w m).2 = (if isXRSessionActive m then [] else [OrbitUpdate r])
  ∧ (isXRSessionActive m = false → update w m = (w, m, [OrbitUpdate r])).
Proof.
  intros Hr. unfold update. rewrite Hr.
  split.
  - by destruct (selectedObject m), (activeController m),
      (isXRSessionActive m), (rotationMode m).
  - intros ->. by destruct (selectedObject m), (activeController m).
Qed.

(** C1, as the code has it. Outside XR a press from the mouse or from one
    finger runs the hit test whatever the state of the session.  On a scene
    graph whose parent links end: when the way up from the hit node meets a
    draggable node, the topmost such node becomes the one selected object,
    the session is live and holds no stored intersection; when it meets
    none, or nothing is hit, the press changes nothing. *)
Theorem press_retargets_session (e : PressEvent) (w : World) (m : t) :
  isXRSessionActive m = false →
  match pressHit e with
  | None => onPress e w m = Some (w, m)
  | Some hit =>
      ∀ path, climbs w (scene m) (Some hit) path →
        ∃ w' m', onPress e w m = Some (w', m')
          ∧ match last (filter (λ o, o ∈ arr w (draggableObjects m)) path) with
            | Some top =>
                selectedObject m' = Some top
                ∧ isDragging m' = true
                ∧ lastDragPoint m' = None
                ∧ w' = disableOrbitControls m w
            | None => w' = w ∧ m' = m
            end
  end.
Proof.
  intros Hxr.
  destruct e as [e|e]; simpl; unfold onMouseDown, onTouchStart; rewrite Hxr.
  - destruct (intersects e) as [|hit rest]; simpl; [done|].
    intros path Hc. rewrite (resolve_climbs _ _ _ _ Hc). simpl.
    destruct (last _) as [top|]; simpl; eauto 10.
  - destruct (pressTouches e) as [|t [|t' ts]]; try done.
    destruct (touchIntersects e) as [|hit rest]; simpl; [done|].
    intros path Hc. rewrite (resolve_climbs _ _ _ _ Hc). simpl.
    destruct (last _) as [top|]; simpl; eauto 10.
Qed.

(** C9. For an array [l] with elements [elems]: after
    [setDraggableObjects(l)] the manager holds [l] itself, and
    [getDraggableObjects()] returns a new array with the elements of [l];
    whatever is then written to the returned array, the manager's list
    still reads [elems]. *)
Theorem draggable_round_trip (w : World) (m : t) (l : ArrRef)
    (elems : list ObjId) :
  arrays w !! l = Some elems →
  let m1 := setDraggableObjects l m in
  let r := (getDraggableObjects w m1).1 in
  let w1 := (getDraggableObjects w m1).2 in
  draggableObjects m1 = l
  ∧ arrays w !! r = None
  ∧ r ≠ l
  ∧ arr w1 r = elems
  ∧ arr w1 (draggableObjects m1) = elems
  ∧ ∀ written : list ObjId,
      arr (write_array r written w1) (draggableObjects m1) = elems
      ∧ arr (write_array r written w1) r = written.
Proof.
  intros Hl m1 r w1.
  assert (Hfresh : arrays w !! r = None).
  { apply not_elem_of_dom. apply is_fresh. }
  assert (Hne : r ≠ l) by (intros ->; congruence).
  assert (Harr : arr w l = elems) by (unfold arr; by rewrite Hl).
  repeat split; try done.
  - unfold arr, w1, getDraggableObjects, alloc_array; simpl.
    fold r. by rewrite lookup_insert_eq.
  - unfold arr, w1, getDraggableObjects, alloc_array; simpl.
    fold r. rewrite lookup_insert_ne by done. by rewrite Hl.
  - unfold arr, write_array, w1, getDraggableObjects, alloc_array; simpl.
    fold r. rewrite !lookup_insert_ne by done. by rewrite Hl.
  - unfold arr, write_array; simpl. by rewrite lookup_insert_eq.
Qed.

(** C1 fails: with the blade (node 8) being dragged by the mouse, a touch
    on the frame (node 10) makes the frame the selected object. *)
Lemma second_press_replaces_selection :
  (draggingBlade ≫= session) = Some (true, Some 8)
  ∧ (s ← draggingBlade; s' ← App.onPress touchFrame s.1 s.2; session s')
    = Some (true, Some 10).
Proof. split; vm_compute; reflexivity. Qed.

(** C5 fails: on a frame rendered while the blade is being dragged, both
    orbit-controls instances are updated. *)
Lemma orbit_updated_during_drag :
  (draggingBlade ≫= session) = Some (true, Some 8)
  ∧ (s ← draggingBlade; Some (App.animate None s.1 s.2).2)
    = Some [OrbitUpdate 0; OrbitUpdate 1; Render].
Proof. split; vm_compute; reflexivity. Qed.


Lemma update_orbit_gate_witness :
  orbitControls bladeManager = Some 1
  ∧ isDragging bladeManager = true
  ∧ (update afterPress.1 bladeManager).2
    = (if isXRSessionActive bladeManager then [] else [OrbitUpdate 1]).
Proof.
  assert (H1 : orbitControls bladeManager = Some 1) by (vm_compute; reflexivity).
  split; [exact H1|]. split; [vm_compute; reflexivity|].
  exact (proj1 (update_orbit_gate afterPress.1 bladeManager 1 H1)).
Defined.

Lemma frame_climbs : climbs afterPress.1 (scene bladeManager) (Some 10) [10; 1; 0].
Proof.
  change (scene bladeManager) with 0.
  apply climbs_parent; [done|].
  replace (parent (obj afterPress.1 10)) with (Some 1)
    by (vm_compute; reflexivity).
  apply climbs_parent; [done|].
  replace (parent (obj afterPress.1 1)) with (Some 0)
    by (vm_compute; reflexivity).
  apply climbs_scene.
Qed.

(** The touch on the frame while the blade is being dragged: the frame
    becomes the selected object. *)
Lemma press_retargets_session_witness :
  isXRSessionActive bladeManager = false
  ∧ selectedObject bladeManager = Some 8
  ∧ ∃ w' m', onPress touchFrame afterPress.1 bladeManager = Some (w', m')
             ∧ selectedObject m' = Some 10.
Proof.
  assert (H1 : isXRSessionActive bladeManager = false) by (vm_compute; reflexivity).
  split; [exact H1|]. split; [vm_compute; reflexivity|].
  destruct (press_retargets_session touchFrame afterPress.1 bladeManager H1
              [10; 1; 0] frame_climbs) as (w' & m' & Hp & Hs).
  exists w', m'. split; [exact Hp|].
  replace (last (filter (λ o, o ∈ arr afterPress.1 (draggableObjects bladeManager))
                   [10; 1; 0])) with (Some 10) in Hs
    by (vm_compute; reflexivity).
  exact (proj1 Hs).
Defined.

Lemma draggable_round_trip_witness :
  arrays twoParts.1 !! 1 = Some [8]
  ∧ arr (getDraggableObjects twoParts.1
           (setDraggableObjects 1 (managerOf twoParts))).2
        (getDraggableObjects twoParts.1
           (setDraggableObjects 1 (managerOf twoParts))).1
    = [8].
Proof.
  assert (H1 : arrays twoParts.1 !! 1 = Some [8]) by (vm_compute; reflexivity).
  split; [exact H1|].
  exact (proj1 (proj2 (proj2 (proj2
           (draggable_round_trip twoParts.1 (managerOf twoParts) 1 [8] H1))))).
Defined.

End InteractionFacts.

(** *** The app: placement, frames, registry *)

Module AppFacts.
Import Three Store StoreFacts ThreeFacts App Sessions.

(** C7. A select event in AwaitingPlacement (AR mode, [isPlacingProduct]
    set, hit-test source present) whose frame has no hit-test result
    changes nothing: the store (visibility and position of the product
    group, floor, reticle) and every field of the app (the placement flag
    and the overlay elements among them) are the same, and the state stays
    AwaitingPlacement. *)
Theorem commit_tap_without_hit (e : Select) (w : World) (a : t) :
  isARMode a = true →
  isPlacingProduct a = true →
  is_Some (hitTestSource a) →
  hitTestResults e = [] →
  onSelectEvent e w a = Some (w, a)
  ∧ placement a = AwaitingPlacement
  ∧ (∀ s, onSelectEvent e w a = Some s → placement s.2 = AwaitingPlacement).
Proof.
  intros Har Hp [src Hs] He.
  assert (H : onSelectEvent e w a = Some (w, a))
    by (unfold onSelectEvent; by rewrite Hp, Hs, He).
  assert (Hpl : placement a = AwaitingPlacement)
    by (unfold placement; by rewrite Har, Hp).
  repeat split; try done.
  intros s Hs'. rewrite H in Hs'. by inversion Hs'; subst.
Qed.

Lemma Qcmin_shift (c a b : Qc) :
  Qcmin (c + a) (c + b) = (c + Qcmin a b)%Qc.
Proof.
  unfold Qcmin. destruct (decide (a ≤ b)%Qc) as [H|H].
  - rewrite decide_True; [done | by apply Qcplus_le_mono_l].
  - rewrite decide_False; [done|]. intros H'. by apply Qcplus_le_mono_l in H'.
Qed.

Lemma minimum_shift (c : Qc) (l : list Qc) :
  minimum ((λ h, (c + h)%Qc) <$> l) = (λ h, (c + h)%Qc) <$> minimum l.
Proof.
  destruct l as [|a l]; [done|]. csimpl. f_equal.
  revert a. induction l as [|b l IH]; intros a; [done|].
  csimpl. rewrite Qcmin_shift. apply IH.
Qed.

(** What a commit tap does to the lowest point: it ends at the height of
    the hit less the height at which the group stood before the tap; on
    the surface exactly when the group stood at height 0, as it does on the
    first placement. *)
Lemma commit_lowest_point (e : Select) (w : World) (a : t) (pose : Vector3)
    (rest : list Vector3) :
  isPlacingProduct a = true →
  is_Some (hitTestSource a) →
  hitTestResults e = pose :: rest →
  contentY e ≠ [] →
  live w (productGroup a) →
  floor a ≠ Some (productGroup a) →
  ∃ s, onSelectEvent e w a = Some s
       ∧ lowestPoint s.1 s.2 (contentY e)
         = Some (y pose - y (position (obj w (productGroup a))))%Qc.
Proof.
  intros Hp [src Hs] He Hc Hlive Hfl.
  unfold onSelectEvent, lowestPoint, bboxMinY. rewrite Hp, Hs, He.
  rewrite minimum_shift.
  destruct (minimum (contentY e)) as [lo|] eqn:Hlo;
    [|by destruct (contentY e)].
  csimpl. eexists. split; [done|]. cbn [fst snd productGroup
    set_selectListening set_rotateRightBtn set_rotateLeftBtn
    set_placeAgainButton set_placementMessage set_isPlacingProduct].
  set (g := productGroup a).
  set (w1 := update_obj g _ (update_obj g _ w)).
  assert (P1 : y (position (obj w1 g))
               = (y pose - (y (position (obj w g)) + lo))%Qc).
  { unfold w1. rewrite obj_update_eq by by apply live_update. done. }
  set (w2 := match floor a with Some fl => _ | None => w1 end).
  assert (P2 : position (obj w2 g) = position (obj w1 g)).
  { unfold w2. destruct (floor a) as [fl|]; [|done].
    assert (fl ≠ g) by (intros ->; by apply Hfl).
    by rewrite !obj_update_ne. }
  set (w3 := match placementReticle _ with Some r => _ | None => w2 end).
  assert (P3 : position (obj w3 g) = position (obj w2 g)).
  { unfold w3. cbn [placementReticle set_placementMessage set_isPlacingProduct].
    destruct (placementReticle a) as [r|]; [|done].
    by rewrite (obj_update_field position). }
  rewrite minimum_shift, Hlo. csimpl. rewrite P3, P2, P1. f_equal. ring.
Qed.

(** C2 on a second placement. The blade is placed by a tap on a surface at
    height 1 and its lowest point is at 1; after Place Again, a tap on the
    same surface leaves the lowest point at 0, below the surface. *)
Theorem second_placement_misses_surface :
  (placedOnce ≫= lowest) = Some (Q2Qc 1)
  ∧ (placedTwice ≫= lowest) = Some (Q2Qc 0)
  ∧ (placedTwice ≫= lowest) ≠ Some (Q2Qc 1).
Proof.
  assert (H1 : (placedOnce ≫= lowest) = Some (Q2Qc 1))
    by (vm_compute; f_equal; apply Qc_is_canon; reflexivity).
  assert (H2 : (placedTwice ≫= lowest) = Some (Q2Qc 0))
    by (vm_compute; f_equal; apply Qc_is_canon; reflexivity).
  split; [exact H1|]. split; [exact H2|].
  rewrite H2. intros H. discriminate H.
Qed.

Lemma commit_tap_without_hit_witness :
  isARMode awaitingPlacement.2 = true
  ∧ isPlacingProduct awaitingPlacement.2 = true
  ∧ is_Some (hitTestSource awaitingPlacement.2)
  ∧ onSelectEvent (mkSelect [] bladeContent) awaitingPlacement.1
      awaitingPlacement.2
    = Some (awaitingPlacement.1, awaitingPlacement.2).
Proof.
  assert (H1 : isARMode awaitingPlacement.2 = true) by (vm_compute; reflexivity).
  assert (H2 : isPlacingProduct awaitingPlacement.2 = true)
    by (vm_compute; reflexivity).
  assert (H3 : is_Some (hitTestSource awaitingPlacement.2))
    by (eexists; vm_compute; reflexivity).
  split; [exact H1|]. split; [exact H2|]. split; [exact H3|].
  exact (proj1 (commit_tap_without_hit (mkSelect [] bladeContent)
                  awaitingPlacement.1 awaitingPlacement.2 H1 H2 H3 eq_refl)).
Defined.

End AppFacts.

(** *** The registry *)

Module RegistryFacts.
Import Three Store StoreFacts App.

Lemma map_set_keys (k : string) (v : ObjId) (m : list (string * ObjId)) :
  (map_set k v m).*1 = if decide (k ∈ m.*1) then m.*1 else m.*1 ++ [k].
Proof.
  induction m as [|[k' v'] m IH]; [done|]. csimpl.
  destruct (decide (k' = k)) as [->|Hne]; csimpl.
  - rewrite decide_True; [done | by left].
  - rewrite IH. destruct (decide (k ∈ m.*1)) as [Hin|Hin].
    + rewrite decide_True; [done | by right].
    + rewrite decide_False; [done|].
      intros [?|?]%elem_of_cons; congruence.
Qed.

Lemma map_set_values_in (k : string) (v x : ObjId) (m : list (string * ObjId)) :
  x ∈ (map_set k v m).*2 → x = v ∨ x ∈ m.*2.
Proof.
  induction m as [|[k' v'] m IH]; csimpl.
  - intros ->%list_elem_of_singleton. by left.
  - destruct (decide (k' = k)) as [->|Hne]; csimpl;
      intros [->|Hin]%elem_of_cons.
    + by left.
    + right. by right.
    + right. by left.
    + destruct (IH Hin); [by left|]. right. by right.
Qed.

Lemma map_set_values_NoDup (k : string) (v : ObjId) (m : list (string * ObjId)) :
  NoDup m.*2 → v ∉ m.*2 → NoDup (map_set k v m).*2.
Proof.
  induction m as [|[k' v'] m IH]; csimpl; intros Hnd Hv.
  - apply NoDup_singleton.
  - apply NoDup_cons in Hnd as [Hv' Hnd].
    apply not_elem_of_cons in Hv as [Hne Hv].
    destruct (decide (k' = k)) as [->|Hk]; csimpl.
    + by constructor.
    + constructor; [|by apply IH].
      intros [->|Hin]%map_set_values_in; done.
Qed.

(** What a finished load does to the store and to the map. *)
Lemma loadModel_effect (nm : string) (model : Object3D) (w : World) (a : t)
    (m : InteractionManager.t) :
  interactionManager a = Some m →
  live w (productGroup a) →
  let s' := loadModel nm model w a in
  ∃ container,
    objects w !! container = None
    ∧ live s'.1 container
    ∧ loadedModels s'.2 = map_set nm container (loadedModels a)
    ∧ productGroup s'.2 = productGroup a
    ∧ children (obj s'.1 (productGroup a))
      = children (obj w (productGroup a)) ++ [container]
    ∧ (∀ j, live w j → live s'.1 j)
    ∧ ∃ m', interactionManager s'.2 = Some m'
            ∧ arr s'.1 (InteractionManager.draggableObjects m') = values s'.2.
Proof.
  intros Hm Hpg. unfold loadModel.
  set (model' := with_children [] (with_parent None model)).
  pose proof (alloc_obj_fresh model' w) as F1.
  pose proof (alloc_obj_new model' w) as N1.
  pose proof (alloc_obj_live model' w) as L1.
  pose proof (alloc_obj_old model' w) as O1.
  destruct (alloc_obj model' w) as [i1 w1]; simpl in F1, N1, L1, O1.
  pose proof (alloc_obj_fresh (newGroup nm) w1) as F2.
  pose proof (alloc_obj_new (newGroup nm) w1) as N2.
  pose proof (alloc_obj_live (newGroup nm) w1) as L2.
  pose proof (alloc_obj_old (newGroup nm) w1) as O2.
  destruct (alloc_obj (newGroup nm) w1) as [i2 w2]; simpl in F2, N2, L2, O2.
  assert (Hl1 : live w2 i1) by (apply L2; right; apply L1; by left).
  assert (Hl2 : live w2 i2) by (apply L2; by left).
  assert (Hlp : live w2 (productGroup a)) by (apply L2; right; apply L1; by right).
  assert (H12 : i1 ≠ i2).
  { intros <-. assert (live w1 i1) by (apply L1; by left).
    destruct H as [x Hx]. congruence. }
  assert (Hp1 : productGroup a ≠ i1).
  { intros E. rewrite E in Hpg. destruct Hpg as [x Hx]. congruence. }
  assert (Hp2 : productGroup a ≠ i2).
  { intros E. assert (H : live w1 i2) by (rewrite <- E; apply L1; by right).
    destruct H as [x Hx]. congruence. }
  assert (Fw : objects w !! i2 = None).
  { destruct (objects w !! i2) as [x|] eqn:E; [|done].
    assert (H : live w1 i2) by (apply L1; right; by exists x).
    destruct H as [y Hy]. congruence. }
  rewrite (add_child_orphan i2 i1 w2)
    by (rewrite O2, N1 by (apply L1; by left); done).
  set (w3 := update_obj i2 _ (update_obj i1 _ w2)).
  assert (P3 : parent (obj w3 i2) = None).
  { unfold w3. rewrite obj_update_eq by by apply live_update.
    simpl. rewrite obj_update_ne by done. by rewrite N2. }
  cbn [productGroup set_draggableObjects set_loadedModels interactionManager].
  rewrite (add_child_orphan (productGroup a) i2 w3 P3).
  set (w4 := update_obj (productGroup a) _ (update_obj i2 _ w3)).
  rewrite Hm.
  set (a' := set_loadedModels _ _).
  pose proof (alloc_array_read (values a') w4) as R5.
  pose proof (alloc_array_objects (values a') w4) as O5.
  destruct (alloc_array (values a') w4) as [r w5]; cbn [fst snd] in R5, O5.
  assert (L4 : ∀ j, live w5 j ↔ live w2 j).
  { intros j. unfold live. rewrite O5. fold (live w4 j). unfold w4, w3.
    by rewrite !live_update. }
  assert (E5 : ∀ j, obj w5 j = obj w4 j) by (intros j; unfold obj; by rewrite O5).
  exists i2. cbn [fst snd]. repeat split; try done.
  - apply L4, Hl2.
  - rewrite E5. unfold w4.
    rewrite obj_update_eq by (rewrite live_update; unfold w3;
      by rewrite !live_update).
    cbn [children with_children]. f_equal. rewrite obj_update_ne by done.
    unfold w3. rewrite !obj_update_ne by done.
    rewrite O2 by (apply L1; by right). by rewrite O1.
  - intros j Hj. apply L4, L2. right. apply L1. by right.
  - eexists. split; [done|]. done.
Qed.

Lemma load_consistent (names : list string) (nm : string) (model : Object3D)
    (s : World * t) :
  consistent names s → consistent (names ++ [nm]) (loadModel nm model s.1 s.2).
Proof.
  destruct s as [w a]. cbn [fst snd].
  intros (Hpg & (m & Hm & Harr) & Hk & Hn & Hv & Hin).
  destruct (loadModel_effect nm model w a m Hm Hpg)
    as (c & Hfresh & Hlive & Hmap & Hpg' & Hch & Hmono & m' & Hm' & Harr').
  destruct (loadModel nm model w a) as [w' a']; cbn [fst snd] in *.
  assert (Hc : c ∉ values a).
  { intros [Hl _]%Hin. destruct Hl as [x Hx]. congruence. }
  unfold consistent, values in *; cbn [fst snd]. rewrite Hpg', Hmap.
  refine (conj _ (conj _ (conj _ (conj _ (conj _ _))))).
  - by apply Hmono.
  - exists m'. by rewrite <- Hmap.
  - rewrite map_set_keys. case_decide; [done|].
    apply NoDup_app. repeat split; [done| |apply NoDup_singleton].
    by intros k Hkin ->%list_elem_of_singleton.
  - intros k. rewrite map_set_keys, elem_of_app, list_elem_of_singleton, <- Hn.
    case_decide as Hd; [|by rewrite elem_of_app, list_elem_of_singleton].
    split; [tauto|]. intros [?| ->]; done.
  - by apply map_set_values_NoDup.
  - intros v Hvin. split.
    + apply map_set_values_in in Hvin as [->|Hvin]; [done|].
      apply Hmono. by apply Hin.
    + rewrite Hch. apply elem_of_app.
      apply map_set_values_in in Hvin as [->|Hvin]; [right; by left|].
      left. by apply Hin.
Qed.

Lemma clear_consistent (names : list string) (s : World * t) :
  consistent names s → consistent [] (clearExistingModels s.1 s.2).
Proof.
  destruct s as [w a]. cbn [fst snd].
  intros (Hpg & (m & Hm & Harr) & _). cbn [fst snd] in *.
  unfold clearExistingModels, updateDragControls.
  set (w' := foldl _ w (values a)).
  assert (Hlive : ∀ j, live w' j ↔ live w j).
  { unfold w'. generalize (values a). intros l. clear.
    revert w. induction l as [|c l IH]; intros w j; [done|]. simpl.
    destruct (parent (obj w c)); rewrite IH; [apply remove_live | done]. }
  change (values (set_draggableObjects [] (set_loadedModels [] a)))
    with (@nil ObjId).
  change (interactionManager (set_draggableObjects [] (set_loadedModels [] a)))
    with (interactionManager a).
  rewrite Hm.
  set (r := alloc_array [] w').
  pose proof (alloc_array_read [] w') as R. 
  pose proof (alloc_array_objects [] w') as O. fold r in R, O.
  destruct r as [r w'']; cbn [fst snd] in *.
  unfold consistent; cbn [fst snd productGroup set_interactionManager
    set_loadedModels set_draggableObjects loadedModels values
    interactionManager].
  refine (conj _ (conj _ (conj _ (conj _ (conj _ _)))));
    try (by apply NoDup_nil); try (by intros ? ?%elem_of_nil).
  - unfold live. rewrite O. by apply Hlive.
  - eexists. split; [done|]. done.
  - done.
Qed.

Lemma run_consistent (ops : list RegistryOp) (names : list string)
    (s : World * t) :
  consistent names s → consistent (registeredFrom names ops) (registryRun ops s).
Proof.
  revert names s. induction ops as [|op ops IH]; intros names s Hs; [done|].
  simpl. apply IH. destruct op as [nm model|]; simpl.
  - by apply load_consistent.
  - by eapply clear_consistent.
Qed.

Lemma create_consistent (onMobile : bool) : consistent [] (create onMobile).
Proof.
  unfold consistent.
  refine (conj _ (conj _ (conj _ (conj _ (conj _ _))))).
  - destruct onMobile; eexists; vm_compute; reflexivity.
  - destruct onMobile; eexists; (split; [vm_compute; reflexivity|]);
      vm_compute; reflexivity.
  - destruct onMobile; apply NoDup_nil_2.
  - by destruct onMobile.
  - destruct onMobile; apply NoDup_nil_2.
  - destruct onMobile; by intros ? ?%elem_of_nil.
Qed.

(** C6. After any run of loads and clears on a new viewer, the draggable
    list that the interaction manager holds has as many entries as there
    are distinct names registered since the last clear, holds no node
    twice, and holds only children of the product group. *)
Theorem registry_consistent (onMobile : bool) (ops : list RegistryOp) :
  let s := registryRun ops (create onMobile) in
  length (draggableList s.1 s.2) = length (remove_dups (registered ops))
  ∧ NoDup (draggableList s.1 s.2)
  ∧ ∀ o, o ∈ draggableList s.1 s.2 →
         o ∈ children (obj s.1 (productGroup s.2)).
Proof.
  intros s.
  destruct (run_consistent ops [] _ (create_consistent onMobile))
    as (Hpg & (m & Hm & Harr) & Hk & Hn & Hv & Hin).
  fold s in Hpg, Hm, Harr, Hk, Hn, Hv, Hin.
  unfold draggableList. rewrite Hm, Harr.
  repeat split; [|done|by apply Hin].
  unfold values. rewrite length_fmap, <- (length_fmap fst).
  apply Permutation_length, NoDup_Permutation;
    [done | apply NoDup_remove_dups |].
  intros k. by rewrite elem_of_remove_dups, Hn.
Qed.

End RegistryFacts.

(** *** The Reset button *)

Module ResetFacts.
Import Three Store StoreFacts UiControls Sessions.

Lemma resetChild_field {A} (g : Object3D → A) (w : World) (c i : ObjId) :
  (∀ v o, g (with_position v o) = g o) →
  (∀ o, g (with_rotation_zero o) = g o) →
  (∀ v o, g (with_scale v o) = g o) →
  g (obj (resetChild w c) i) = g (obj w i).
Proof.
  intros Hp Hr Hs. unfold resetChild.
  repeat case_match; rewrite !obj_update_field; auto.
Qed.

Lemma resetChild_other (w : World) (c i : ObjId) :
  c ≠ i → obj (resetChild w c) i = obj w i.
Proof.
  intros Hne. unfold resetChild.
  repeat case_match; by rewrite !obj_update_ne.
Qed.

Lemma resetChild_live (w : World) (c i : ObjId) :
  live (resetChild w c) i ↔ live w i.
Proof.
  unfold resetChild. repeat case_match; by rewrite !live_update.
Qed.

Lemma resetChild_stored (w : World) (c i : ObjId) :
  storedOriginalScale (resetChild w c) i = storedOriginalScale w i.
Proof.
  unfold storedOriginalScale.
  rewrite (resetChild_field children) by done.
  destruct (children (obj w i)); [done|].
  by rewrite (resetChild_field originalScale).
Qed.

Lemma resetChild_self (w : World) (c : ObjId) :
  live w c →
  position (obj (resetChild w c) c) = zero3
  ∧ rotation (obj (resetChild w c) c) = zero3
  ∧ scale (obj (resetChild w c) c) = default one3 (storedOriginalScale w c).
Proof.
  intros Hc. unfold resetChild, storedOriginalScale.
  set (w1 := update_obj c (with_position zero3) w).
  set (w2 := update_obj c with_rotation_zero w1).
  assert (H1 : live w1 c) by by apply live_update.
  assert (H2 : live w2 c) by by apply live_update.
  assert (Hch : children (obj w2 c) = children (obj w c))
    by (unfold w2, w1; by rewrite !obj_update_field).
  assert (Hos : ∀ i, originalScale (obj w2 i) = originalScale (obj w i))
    by (intros i; unfold w2, w1; by rewrite !obj_update_field).
  assert (Hpos : position (obj w2 c) = zero3).
  { unfold w2. rewrite obj_update_eq by done. simpl.
    unfold w1. by rewrite obj_update_eq. }
  assert (Hrot : rotation (obj w2 c) = zero3).
  { unfold w2. by rewrite obj_update_eq. }
  rewrite Hch. destruct (children (obj w c)) as [|first rest].
  - rewrite (obj_update_field position), (obj_update_field rotation) by done.
    by rewrite obj_update_eq.
  - rewrite Hos. destruct (originalScale (obj w first)) as [s|];
      rewrite (obj_update_field position), (obj_update_field rotation) by done;
      by rewrite obj_update_eq.
Qed.

Lemma reset_fold_field {A} (g : Object3D → A) (l : list ObjId) (w : World)
    (i : ObjId) :
  (∀ w c, g (obj (resetChild w c) i) = g (obj w i)) →
  g (obj (foldl resetChild w l) i) = g (obj w i).
Proof.
  intros Hg. revert w. induction l as [|d l IH]; intros w; [done|].
  simpl. by rewrite IH, Hg.
Qed.

Lemma reset_fold_live (l : list ObjId) (w : World) (i : ObjId) :
  live (foldl resetChild w l) i ↔ live w i.
Proof.
  revert w. induction l as [|d l IH]; intros w; [done|].
  simpl. by rewrite IH, resetChild_live.
Qed.

Lemma reset_fold_stored (l : list ObjId) (w : World) (i : ObjId) :
  storedOriginalScale (foldl resetChild w l) i = storedOriginalScale w i.
Proof.
  revert w. induction l as [|d l IH]; intros w; [done|].
  simpl. by rewrite IH, resetChild_stored.
Qed.

(** Once a part is canonical it stays so under later resets. *)
Lemma reset_fold_keeps (l : list ObjId) (w : World) (c : ObjId) :
  live w c →
  position (obj w c) = zero3 →
  rotation (obj w c) = zero3 →
  scale (obj w c) = default one3 (storedOriginalScale w c) →
  position (obj (foldl resetChild w l) c) = zero3
  ∧ rotation (obj (foldl resetChild w l) c) = zero3
  ∧ scale (obj (foldl resetChild w l) c)
    = default one3 (storedOriginalScale w c).
Proof.
  revert w. induction l as [|d l IH]; intros w Hc Hp Hr Hs; [done|].
  simpl. rewrite <- (resetChild_stored w d c).
  apply IH.
  - by apply resetChild_live.
  - destruct (decide (d = c)) as [->|Hne];
      [by apply resetChild_self | by rewrite resetChild_other].
  - destruct (decide (d = c)) as [->|Hne];
      [by apply resetChild_self | by rewrite resetChild_other].
  - rewrite resetChild_stored.
    destruct (decide (d = c)) as [->|Hne];
      [by apply resetChild_self | by rewrite resetChild_other].
Qed.

Lemma reset_fold_sets (l : list ObjId) (w : World) (c : ObjId) :
  c ∈ l → live w c →
  position (obj (foldl resetChild w l) c) = zero3
  ∧ rotation (obj (foldl resetChild w l) c) = zero3
  ∧ scale (obj (foldl resetChild w l) c)
    = default one3 (storedOriginalScale w c).
Proof.
  revert w. induction l as [|d l IH]; intros w Hin Hc.
  { by apply elem_of_nil in Hin. }
  simpl. rewrite <- (resetChild_stored w d c).
  destruct (decide (c ∈ l)) as [Hl|Hl].
  - apply IH; [done | by apply resetChild_live].
  - apply elem_of_cons in Hin as [->|]; [|done].
    destruct (resetChild_self w d Hc) as (Hp & Hr & Hs).
    apply reset_fold_keeps; try done.
    + by apply resetChild_live.
    + by rewrite resetChild_stored.
Qed.



End ResetFacts.

(** *** Recent colours *)

Module UiControlsFacts.
Import UiControls.

Lemma filter_ne_fixed (c : string) (l : list string) :
  c ∉ l → filter (λ d, d ≠ c) l = l.
Proof.
  induction l as [|a l IH]; intros Hc; [done|].
  apply not_elem_of_cons in Hc as [Hne Hl].
  rewrite filter_cons_True; [|congruence]. by rewrite IH.
Qed.

Lemma not_in_filter_ne (c : string) (l : list string) :
  c ∉ filter (λ d, d ≠ c) l.
Proof. intros [H _]%list_elem_of_filter. by apply H. Qed.

Lemma not_in_take (c : string) (n : nat) (l : list string) :
  c ∉ l → c ∉ take n l.
Proof. intros Hc Hin. apply Hc. eapply subseteq_take, Hin. Qed.

(** C8. For every colour [c] and every stored list [l], [addRecentColor c]
    stores a list that starts with [c], holds [c] nowhere else, and has at
    most six entries; a second [addRecentColor c] stores the same list. *)
Theorem addRecentColor_invariant (c : string) (l : list string) :
  ∃ rest : list string,
    addRecentColor c (Some (Colors l)) = Some (Colors (c :: rest))
    ∧ (c ∉ rest)
    ∧ (length (c :: rest) ≤ 6)
    ∧ rest = take 5 (filter (λ d, d ≠ c) l)
    ∧ addRecentColor c (addRecentColor c (Some (Colors l)))
      = addRecentColor c (Some (Colors l)).
Proof.
  exists (take 5 (filter (λ d, d ≠ c) l)).
  assert (Hnin : c ∉ take 5 (filter (λ d, d ≠ c) l))
    by apply not_in_take, not_in_filter_ne.
  repeat split; try done.
  - simpl. rewrite length_take. lia.
  - unfold addRecentColor; simpl.
    rewrite filter_cons_False; [|by intros H; apply H].
    rewrite (filter_ne_fixed c _ Hnin). simpl.
    by rewrite take_take.
Qed.

End UiControlsFacts.

(** ** Further properties of the interaction manager *)

Module SessionFacts.
Import Three Store StoreFacts ThreeFacts WalkFacts InteractionManager Sessions.

Lemma last_filter_None {A} (P : A → Prop) `{!∀ x, Decision (P x)} (l : list A) :
  last (filter P l) = None → Forall (λ o, ¬ P o) l.
Proof.
  intros Hn%last_None. apply Forall_forall. intros o Ho Hp.
  assert (Hin : o ∈ filter P l) by by apply list_elem_of_filter.
  rewrite Hn in Hin. by apply elem_of_nil in Hin.
Qed.

Lemma last_filter_Some {A} (P : A → Prop) `{!∀ x, Decision (P x)} (l : list A)
    (t : A) :
  last (filter P l) = Some t →
  P t ∧ ∃ below above, l = below ++ t :: above ∧ Forall (λ o, ¬ P o) above.
Proof.
  induction l as [|a l IH]; [done|].
  destruct (decide (P a)) as [Ha|Ha].
  - rewrite filter_cons_True, last_cons by done.
    destruct (last (filter P l)) as [b|] eqn:E.
    + intros [= ->]. destruct (IH eq_refl) as (Hp & below & above & -> & Hf).
      split; [done|]. by exists (a :: below), above.
    + intros [= ->]. split; [done|]. exists [], l. split; [done|].
      exact (last_filter_None P l E).
  - rewrite filter_cons_False by done. intros Hl.
    destruct (IH Hl) as (Hp & below & above & -> & Hf).
    split; [done|]. by exists (a :: below), above.
Qed.

(** X1. The walk of the press handlers returns on every scene graph whose
    parent links end, and resolves the hit node to the draggable node
    nearest to the scene on the way up: no node above it is draggable, so of
    nested draggable nodes the outer one is taken; it finds nothing exactly
    when no node on the way up is draggable. *)
Theorem resolve_topmost (w : World) (m : t) (hit : ObjId) (path : list ObjId) :
  climbs w (scene m) (Some hit) path →
  ∃ top, resolve w m hit = Some top
    ∧ match top with
      | Some t =>
          t ∈ arr w (draggableObjects m)
          ∧ ∃ below above,
              path = below ++ t :: above
              ∧ Forall (λ o, o ∉ arr w (draggableObjects m)) above
      | None => Forall (λ o, o ∉ arr w (draggableObjects m)) path
      end.
Proof.
  intros Hc. rewrite (resolve_climbs _ _ _ _ Hc). eexists. split; [done|].
  destruct (last _) as [t|] eqn:E.
  - by apply last_filter_Some in E.
  - by apply last_filter_None in E.
Qed.

Lemma nested_climbs :
  climbs MoreSessions.nested (scene (managerOf twoParts)) (Some 10) [10; 1; 0].
Proof.
  change (scene (managerOf twoParts)) with 0.
  apply climbs_parent; [done|].
  replace (parent (obj MoreSessions.nested 10)) with (Some 1)
    by (vm_compute; reflexivity).
  apply climbs_parent; [done|].
  replace (parent (obj MoreSessions.nested 1)) with (Some 0)
    by (vm_compute; reflexivity).
  apply climbs_scene.
Qed.

(** With the frame and the product group above it both draggable, a hit on
    the frame resolves to the product group. *)
Lemma resolve_topmost_witness :
  climbs MoreSessions.nested (scene (managerOf twoParts)) (Some 10) [10; 1; 0]
  ∧ resolve MoreSessions.nested (managerOf twoParts) 10 = Some (Some 1).
Proof.
  split; [exact nested_climbs|].
  destruct (resolve_topmost MoreSessions.nested (managerOf twoParts) 10
              [10; 1; 0] nested_climbs) as (top & Hr & _).
  rewrite Hr. vm_compute in Hr. symmetry. exact Hr.
Defined.

(** What a drag move leaves alone: the manager's flags and the parts of
    the store other than the nodes and the messages. *)
Lemma handleDrag_keeps (cx cy : Qc) (hit : option Vector3) (w : World) (m : t) :
  let s' := handleDrag cx cy hit w m in
  controls s'.1 = controls w ∧ appControls s'.1 = appControls w
  ∧ arrays s'.1 = arrays w ∧ host s'.1 = host w ∧ mobile s'.1 = mobile w
  ∧ isDragging s'.2 = isDragging m ∧ selectedObject s'.2 = selectedObject m
  ∧ orbitControls s'.2 = orbitControls m
  ∧ isXRSessionActive s'.2 = isXRSessionActive m
  ∧ draggableObjects s'.2 = draggableObjects m ∧ scene s'.2 = scene m.
Proof.
  unfold handleDrag.
  destruct (selectedObject m) as [sel|] eqn:Hs;
    [|cbn [fst snd]; by rewrite Hs].
  destruct hit as [P|]; [|done]. cbn [lastDragPoint set_lastMousePosition].
  destruct (lastDragPoint m) as [L|]; [|done].
  cbn [fst snd].
  set (w1 := update_obj sel _ w).
  destruct (originalScale (obj w1 sel)); destruct (host _) eqn:Hh; done.
Qed.

Lemma onDragMove_keeps (e : DragMove) (s : World * t) :
  let s' := onDragMove e s in
  controls s'.1 = controls s.1 ∧ appControls s'.1 = appControls s.1
  ∧ arrays s'.1 = arrays s.1 ∧ host s'.1 = host s.1 ∧ mobile s'.1 = mobile s.1
  ∧ isDragging s'.2 = isDragging s.2 ∧ selectedObject s'.2 = selectedObject s.2
  ∧ orbitControls s'.2 = orbitControls s.2
  ∧ isXRSessionActive s'.2 = isXRSessionActive s.2
  ∧ draggableObjects s'.2 = draggableObjects s.2 ∧ scene s'.2 = scene s.2.
Proof.
  destruct s as [w m]. destruct e as [e|e]; cbn [onDragMove fst snd];
    unfold onMouseMove, onTouchMove.
  - pose proof (handleDrag_keeps (moveX e) (moveY e) (rayIntersectsPlane e)
                  w m) as K. cbv zeta in K.
    destruct (isDragging m) eqn:Hd, (selectedObject m) as [sel|] eqn:Hs;
      cbn [fst snd]; rewrite ?Hd, ?Hs;
      first [done | by rewrite Hd, Hs in K].
  - destruct (moveTouches e) as [|t [|t' ts]] eqn:Ht.
    + destruct (isDragging m) eqn:Hd, (selectedObject m) as [sel|] eqn:Hs;
        cbn [fst snd]; by rewrite ?Hd, ?Hs.
    + pose proof (handleDrag_keeps t.1 t.2 (touchRayIntersectsPlane e) w m)
        as K. cbv zeta in K.
      destruct (isDragging m) eqn:Hd, (selectedObject m) as [sel|] eqn:Hs;
        cbn [fst snd]; rewrite ?Hd, ?Hs;
        first [done | by rewrite Hd, Hs in K].
    + destruct (isDragging m) eqn:Hd, (selectedObject m) as [sel|] eqn:Hs;
        cbn [fst snd]; by rewrite ?Hd, ?Hs.
Qed.

Lemma dragMoves_keeps (moves : list DragMove) (s : World * t) :
  let s' := dragMoves moves s in
  controls s'.1 = controls s.1 ∧ appControls s'.1 = appControls s.1
  ∧ arrays s'.1 = arrays s.1 ∧ host s'.1 = host s.1 ∧ mobile s'.1 = mobile s.1
  ∧ isDragging s'.2 = isDragging s.2 ∧ selectedObject s'.2 = selectedObject s.2
  ∧ orbitControls s'.2 = orbitControls s.2
  ∧ isXRSessionActive s'.2 = isXRSessionActive s.2
  ∧ draggableObjects s'.2 = draggableObjects s.2 ∧ scene s'.2 = scene s.2.
Proof.
  revert s. induction moves as [|e moves IH]; intros s; [done|].
  cbn [dragMoves foldl]. fold (dragMoves moves (onDragMove e s)).
  destruct (IH (onDragMove e s)) as (-> & -> & -> & -> & -> & -> & -> & -> & -> & -> & ->).
  apply onDragMove_keeps.
Qed.

Lemma switch_all_lookup (b : bool) (m : t) (w : World) (c : CtlRef) :
  controls (switch_all b m w) !! c
  = if decide (orbitControls m = Some c ∨ appControls w = Some c)
    then (λ _, mkOrbitControls b b b b) <$> controls w !! c
    else controls w !! c.
Proof.
  unfold switch_all.
  set (w1 := match orbitControls m with
             | Some r => switch_controls b r w
             | None => w
             end).
  assert (Ha : appControls w1 = appControls w)
    by (unfold w1; by destruct (orbitControls m)).
  assert (L1 : controls w1 !! c
               = if decide (orbitControls m = Some c)
                 then (λ _, mkOrbitControls b b b b) <$> controls w !! c
                 else controls w !! c).
  { unfold w1, switch_controls. destruct (orbitControls m) as [r|].
    - cbn [controls with_controls]. rewrite lookup_alter.
      repeat case_decide; congruence.
    - by rewrite decide_False. }
  rewrite Ha. destruct (appControls w) as [r'|].
  - unfold switch_controls. cbn [controls with_controls].
    rewrite lookup_alter.
    destruct (decide (r' = c)) as [->|Hne]; rewrite L1;
      destruct (controls w !! c);
      repeat case_decide; simplify_eq; try done; intuition congruence.
  - rewrite L1. repeat case_decide; try done; intuition congruence.
Qed.

Lemma switch_all_appControls (b : bool) (m : t) (w : World) :
  appControls (switch_all b m w) = appControls w.
Proof.
  unfold switch_all.
  set (w1 := match orbitControls m with
             | Some r => switch_controls b r w
             | None => w
             end).
  assert (Ha : appControls w1 = appControls w)
    by (unfold w1; by destruct (orbitControls m)).
  rewrite Ha. destruct (appControls w); [|done]. by rewrite <- Ha.
Qed.

Lemma onPress_starts (e : PressEvent) (w : World) (m : t) (hit top : ObjId)
    (path : list ObjId) :
  isXRSessionActive m = false →
  pressHit e = Some hit →
  climbs w (scene m) (Some hit) path →
  last (filter (λ o, o ∈ arr w (draggableObjects m)) path) = Some top →
  ∃ px py, onPress e w m = Some (startDrag top px py w m).
Proof.
  intros Hxr Hhit Hc Htop.
  destruct e as [e|e]; cbn [onPress pressHit] in *;
    unfold onMouseDown, onTouchStart; rewrite Hxr.
  - destruct (intersects e) as [|h rest]; [done|]. injection Hhit as ->.
    rewrite (resolve_climbs _ _ _ _ Hc), Htop. by eexists _, _.
  - destruct (pressTouches e) as [|t [|t' ts]]; try done.
    destruct (touchIntersects e) as [|h rest]; [done|]. injection Hhit as ->.
    rewrite (resolve_climbs _ _ _ _ Hc), Htop. by eexists _, _.
Qed.

(** X2. A press that selects an object switches off every switch of the
    manager's and of the app's orbit controls; they stay off through every
    move of the drag; the release switches all of them on, whatever they were
    before the press, and ends the session.  Other orbit-controls instances
    are not touched. *)
Theorem drag_session_suspends_orbit (e : PressEvent) (w : World) (m : t)
    (hit top : ObjId) (path : list ObjId) (moves : list DragMove) (c : CtlRef) :
  isXRSessionActive m = false →
  pressHit e = Some hit →
  climbs w (scene m) (Some hit) path →
  last (filter (λ o, o ∈ arr w (draggableObjects m)) path) = Some top →
  ∃ pressed, onPress e w m = Some pressed
    ∧ let dragged := dragMoves moves pressed in
      let released := endDrag dragged.1 dragged.2 in
      let during (b : bool) :=
        if decide (orbitControls m = Some c ∨ appControls w = Some c)
        then (λ _, mkOrbitControls b b b b) <$> controls w !! c
        else controls w !! c in
      controls pressed.1 !! c = during false
      ∧ controls dragged.1 !! c = during false
      ∧ controls released.1 !! c = during true
      ∧ isDragging dragged.2 = true
      ∧ isDragging released.2 = false
      ∧ selectedObject released.2 = None
      ∧ lastDragPoint released.2 = None.
Proof.
  intros Hxr Hhit Hc Htop.
  destruct (onPress_starts e w m hit top path Hxr Hhit Hc Htop) as (px & py & Hp).
  eexists. split; [exact Hp|]. cbv zeta.
  set (pressed := startDrag top px py w m).
  destruct (dragMoves_keeps moves pressed) as (Kc & Ka & _ & _ & _ & Kd & _ & Ko & _).
  set (dragged := dragMoves moves pressed) in *.
  assert (Hp1 : controls pressed.1 !! c
                = if decide (orbitControls m = Some c ∨ appControls w = Some c)
                  then (λ _, mkOrbitControls false false false false)
                         <$> controls w !! c
                  else controls w !! c) by apply switch_all_lookup.
  assert (Hd : isDragging dragged.2 = true) by by rewrite Kd.
  split; [exact Hp1|]. split; [by rewrite Kc|].
  unfold endDrag. rewrite Hd. cbn [fst snd].
  split; [|done].
  unfold enableOrbitControls. rewrite switch_all_lookup, Ko, Ka, Kc, Hp1.
  change (appControls pressed.1) with (appControls (switch_all false m w)).
  rewrite switch_all_appControls.
  change (orbitControls pressed.2) with (orbitControls m).
  case_decide; [|done]. by destruct (controls w !! c).
Qed.

(** What one call of [handleDrag] does to the nodes and to the messages. *)
Lemma handleDrag_effect (cx cy : Qc) (hit : option Vector3) (w : World) (m : t)
    (sel : ObjId) :
  selectedObject m = Some sel → live w sel →
  let s' := handleDrag cx cy hit w m in
  let moved :=
    match hit, lastDragPoint m with Some _, Some _ => true | _, _ => false end in
  (∀ j, j ≠ sel → obj s'.1 j = obj w j)
  ∧ (∀ j, live s'.1 j ↔ live w j)
  ∧ (∀ A (g : Object3D → A),
       (∀ v o, g (with_position v o) = g o) →
       (∀ v o, g (with_scale v o) = g o) →
       g (obj s'.1 sel) = g (obj w sel))
  ∧ scale (obj s'.1 sel)
    = (if moved then default (scale (obj w sel)) (originalScale (obj w sel))
       else scale (obj w sel))
  ∧ emitted s'.1
    = emitted w
      ++ (if moved && host w
          then [mkTransformMsg (name (obj w sel)) (position (obj s'.1 sel))
                  (rotation (obj w sel)) (scale (obj s'.1 sel))]
          else []).
Proof.
  intros Hsel Hlive. unfold handleDrag. rewrite Hsel.
  destruct hit as [P|];
    [|cbn [fst snd]; by rewrite app_nil_r].
  cbn [lastDragPoint set_lastMousePosition].
  destruct (lastDragPoint m) as [L|];
    [|cbn [fst snd]; by rewrite app_nil_r].
  cbn [fst snd andb].
  set (w1 := update_obj sel _ w).
  assert (H1 : live w1 sel) by by apply live_update.
  set (w2 := match originalScale (obj w1 sel) with
             | Some s => update_obj sel (with_scale s) w1
             | None => w1
             end).
  assert (Hos : originalScale (obj w1 sel) = originalScale (obj w sel))
    by (unfold w1; by rewrite (obj_update_field originalScale)).
  assert (E2 : ∀ j, j ≠ sel → obj w2 j = obj w j).
  { intros j Hj. unfold w2. destruct (originalScale (obj w1 sel));
      unfold w1; by rewrite ?obj_update_ne. }
  assert (L2 : ∀ j, live w2 j ↔ live w j).
  { intros j. unfold w2. destruct (originalScale (obj w1 sel));
      unfold w1; by rewrite ?live_update. }
  assert (G2 : ∀ A (g : Object3D → A),
             (∀ v o, g (with_position v o) = g o) →
             (∀ v o, g (with_scale v o) = g o) →
             g (obj w2 sel) = g (obj w sel)).
  { intros A g Hp Hsc. unfold w2. destruct (originalScale (obj w1 sel));
      unfold w1; by rewrite ?obj_update_field. }
  assert (S2 : scale (obj w2 sel)
               = default (scale (obj w sel)) (originalScale (obj w sel))).
  { unfold w2. rewrite Hos. destruct (originalScale (obj w sel)) as [sc|]; simpl.
    - by rewrite obj_update_eq.
    - unfold w1. by rewrite (obj_update_field scale). }
  assert (Hh : host w2 = host w)
    by (unfold w2; by destruct (originalScale (obj w1 sel))).
  assert (He : emitted w2 = emitted w)
    by (unfold w2; by destruct (originalScale (obj w1 sel))).
  rewrite Hh. destruct (host w).
  - change (obj (with_emitted _ w2)) with (obj w2).
    change (live (with_emitted _ w2)) with (live w2).
    cbn [emitted with_emitted]. rewrite He.
    rewrite (G2 _ name), (G2 _ rotation) by done. done.
  - rewrite He, app_nil_r. done.
Qed.

Lemma onDragMove_effect (e : DragMove) (w : World) (m : t) (sel : ObjId) :
  isDragging m = true → selectedObject m = Some sel → live w sel →
  let s' := onDragMove e (w, m) in
  let moved :=
    match intersection e, lastDragPoint m with
    | Some _, Some _ => true
    | _, _ => false
    end in
  (∀ j, j ≠ sel → obj s'.1 j = obj w j)
  ∧ (∀ j, live s'.1 j ↔ live w j)
  ∧ (∀ A (g : Object3D → A),
       (∀ v o, g (with_position v o) = g o) →
       (∀ v o, g (with_scale v o) = g o) →
       g (obj s'.1 sel) = g (obj w sel))
  ∧ scale (obj s'.1 sel)
    = (if moved then default (scale (obj w sel)) (originalScale (obj w sel))
       else scale (obj w sel))
  ∧ emitted s'.1
    = emitted w
      ++ (if moved && host w
          then [mkTransformMsg (name (obj w sel)) (position (obj s'.1 sel))
                  (rotation (obj w sel)) (scale (obj s'.1 sel))]
          else []).
Proof.
  intros Hd Hsel Hlive.
  destruct e as [e|e]; cbn [onDragMove intersection fst snd];
    unfold onMouseMove, onTouchMove; rewrite Hd, Hsel.
  - by apply handleDrag_effect.
  - destruct (moveTouches e) as [|t [|t' ts]];
      [cbn [fst snd]; by rewrite app_nil_r
      |by apply handleDrag_effect
      |cbn [fst snd]; by rewrite app_nil_r].
Qed.

Lemma dragMoves_effect (moves : list DragMove) (w : World) (m : t) (sel : ObjId) :
  isDragging m = true → selectedObject m = Some sel → live w sel →
  let s' := dragMoves moves (w, m) in
  let n := MoreSessions.translations (lastDragPoint m) moves in
  (∀ j, j ≠ sel → obj s'.1 j = obj w j)
  ∧ (∀ j, live s'.1 j ↔ live w j)
  ∧ (∀ A (g : Object3D → A),
       (∀ v o, g (with_position v o) = g o) →
       (∀ v o, g (with_scale v o) = g o) →
       g (obj s'.1 sel) = g (obj w sel))
  ∧ scale (obj s'.1 sel)
    = (if decide (0 < n)
       then default (scale (obj w sel)) (originalScale (obj w sel))
       else scale (obj w sel))
  ∧ (n = 0 → position (obj s'.1 sel) = position (obj w sel))
  ∧ ∃ msgs,
      emitted s'.1 = emitted w ++ msgs
      ∧ length msgs = (if host w then n else 0)
      ∧ Forall (λ msg, customId msg = name (obj w sel)
                       ∧ msgRotation msg = rotation (obj w sel)) msgs
      ∧ ∀ msg, last msgs = Some msg →
               msgPosition msg = position (obj s'.1 sel)
               ∧ msgScale msg = scale (obj s'.1 sel).
Proof.
  revert w m. induction moves as [|e moves IH]; intros w m Hd Hsel Hlive.
  { cbn [dragMoves foldl fst snd]. unfold MoreSessions.translations.
    assert (Hn : match lastDragPoint m with
                 | Some _ => length (omap intersection [])
                 | None => pred (length (omap intersection []))
                 end = 0) by by destruct (lastDragPoint m).
    rewrite Hn. do 5 (split; [done|]). exists []. rewrite app_nil_r.
    destruct (host w); by repeat split. }
  cbn [dragMoves foldl]. fold (dragMoves moves (onDragMove e (w, m))).
  destruct (DragFacts.onDragMove_step e w m sel Hd Hsel Hlive)
    as (Hd1 & Hs1 & Hl1 & HL1 & Hp1).
  destruct (onDragMove_effect e w m sel Hd Hsel Hlive)
    as (E1 & L1 & G1 & S1 & M1).
  destruct (onDragMove_keeps e (w, m)) as (_ & _ & _ & Hh1 & _).
  destruct (onDragMove e (w, m)) as [w1 m1]; cbn [fst snd] in *.
  destruct (IH w1 m1 Hd1 Hs1 Hl1) as (E2 & L2 & G2 & S2 & P2 & msgs & M2 & N2 & F2 & T2).
  set (s' := dragMoves moves (w1, m1)) in *.
  set (moved := match intersection e, lastDragPoint m with
                | Some _, Some _ => true
                | _, _ => false
                end) in *.
  set (n1 := MoreSessions.translations (lastDragPoint m1) moves) in *.
  assert (Hn : MoreSessions.translations (lastDragPoint m) (e :: moves)
               = (if moved then 1 else 0) + n1).
  { unfold n1, moved, MoreSessions.translations. rewrite HL1. csimpl.
    destruct (intersection e), (lastDragPoint m); simpl; lia. }
  rewrite Hn.
  assert (Hos : originalScale (obj w1 sel) = originalScale (obj w sel))
    by by apply G1.
  split; [intros j Hj; by rewrite E2, E1|].
  split; [intros j; by rewrite L2, L1|].
  split; [intros A g Hgp Hgs; by rewrite G2, G1|].
  split.
  { rewrite S2, S1, Hos. destruct moved; repeat case_decide; try lia; try done.
    by destruct (originalScale (obj w sel)). }
  split.
  { intros H0. assert (moved = false) as Hm by (destruct moved; [lia|done]).
    rewrite P2 by (rewrite Hm in H0; done).
    rewrite Hp1. fold moved. rewrite Hm in *.
    unfold moved in Hm. by destruct (intersection e), (lastDragPoint m). }
  rewrite M1 in M2. rewrite Hh1 in N2.
  eexists. split; [by rewrite M2, <- app_assoc|].
  split.
  { rewrite length_app, N2. destruct moved, (host w); simpl; lia. }
  split.
  { apply Forall_app. split.
    - destruct (moved && host w); [|done]. by repeat constructor.
    - eapply Forall_impl; [exact F2|]. intros msg [-> ->].
      by rewrite (G1 _ name), (G1 _ rotation). }
  intros msg Hlast. rewrite last_app in Hlast.
  destruct (last msgs) as [msg'|] eqn:El.
  - injection Hlast as ->. by apply T2.
  - apply last_None in El. subst msgs. simpl in N2.
    assert (n1 = 0 ∨ host w = false) as Hz
      by (destruct (host w); [left; lia | by right]).
    destruct (moved && host w) eqn:Emh; [|done].
    apply andb_prop in Emh as [_ Hh]. destruct Hz as [Hz|Hz]; [|congruence].
    injection Hlast as <-. cbn [msgPosition msgScale].
    rewrite S2, P2 by done. rewrite decide_False by lia. done.
Qed.

(** X3. A run of drag moves changes no node but the selected one, and of that
    node only the position and the scale: name, parent, children,
    orientation, visibility and the original-scale snapshot stay; the scale
    is the original-scale snapshot, when there is one, as soon as one move
    has translated the node, and untouched before. *)
Theorem drag_moves_only_translate (moves : list DragMove) (w : World) (m : t)
    (sel : ObjId) :
  isDragging m = true → selectedObject m = Some sel → live w sel →
  lastDragPoint m = None →
  let s' := dragMoves moves (w, m) in
  (∀ j, j ≠ sel → obj s'.1 j = obj w j)
  ∧ (∀ j, live s'.1 j ↔ live w j)
  ∧ name (obj s'.1 sel) = name (obj w sel)
  ∧ parent (obj s'.1 sel) = parent (obj w sel)
  ∧ children (obj s'.1 sel) = children (obj w sel)
  ∧ quaternion (obj s'.1 sel) = quaternion (obj w sel)
  ∧ rotation (obj s'.1 sel) = rotation (obj w sel)
  ∧ visible (obj s'.1 sel) = visible (obj w sel)
  ∧ originalScale (obj s'.1 sel) = originalScale (obj w sel)
  ∧ scale (obj s'.1 sel)
    = (if decide (2 ≤ length (omap intersection moves))
       then default (scale (obj w sel)) (originalScale (obj w sel))
       else scale (obj w sel)).
Proof.
  intros Hd Hsel Hlive HL.
  destruct (dragMoves_effect moves w m sel Hd Hsel Hlive)
    as (E & L & G & S & _).
  cbv zeta. split; [exact E|]. split; [exact L|].
  do 7 (split; [by apply G|]).
  rewrite S. unfold MoreSessions.translations. rewrite HL.
  repeat case_decide; try done; lia.
Qed.

(** X4. The messages of a drag.  A host sends one ['model-transform'] message
    for every move that translates the object, that is one less than there
    are plane intersections, each with the object's name, and the last one
    with the position and scale in which the drag leaves the object; a
    viewer that is not a host sends none. *)
Theorem drag_emits_per_translation (moves : list DragMove) (w : World) (m : t)
    (sel : ObjId) :
  isDragging m = true → selectedObject m = Some sel → live w sel →
  lastDragPoint m = None →
  let s' := dragMoves moves (w, m) in
  ∃ msgs,
    emitted s'.1 = emitted w ++ msgs
    ∧ length msgs
      = (if host w then pred (length (omap intersection moves)) else 0)
    ∧ Forall (λ msg, customId msg = name (obj w sel)) msgs
    ∧ ∀ msg, last msgs = Some msg →
             msgPosition msg = position (obj s'.1 sel)
             ∧ msgScale msg = scale (obj s'.1 sel).
Proof.
  intros Hd Hsel Hlive HL.
  destruct (dragMoves_effect moves w m sel Hd Hsel Hlive)
    as (_ & _ & _ & _ & _ & msgs & M & N & F & T).
  exists msgs. unfold MoreSessions.translations in N. rewrite HL in N.
  split; [exact M|]. split; [exact N|]. split; [|exact T].
  eapply Forall_impl; [exact F|]. by intros msg [? _].
Qed.

Lemma blade_climbs :
  climbs twoParts.1 (scene (managerOf twoParts)) (Some 8) [8; 1; 0].
Proof.
  change (scene (managerOf twoParts)) with 0.
  apply climbs_parent; [done|].
  replace (parent (obj twoParts.1 8)) with (Some 1) by (vm_compute; reflexivity).
  apply climbs_parent; [done|].
  replace (parent (obj twoParts.1 1)) with (Some 0) by (vm_compute; reflexivity).
  apply climbs_scene.
Qed.

(** The press on the blade switches the manager's orbit controls
    (instance 1) off, and the release after the moves switches them on. *)
Lemma drag_session_suspends_orbit_witness :
  isXRSessionActive (managerOf twoParts) = false
  ∧ pressHit pressBlade = Some 8
  ∧ climbs twoParts.1 (scene (managerOf twoParts)) (Some 8) [8; 1; 0]
  ∧ last (filter (λ o, o ∈ arr twoParts.1 (draggableObjects (managerOf twoParts)))
            [8; 1; 0]) = Some 8
  ∧ ∃ pressed, onPress pressBlade twoParts.1 (managerOf twoParts) = Some pressed
      ∧ controls pressed.1 !! 1 = Some (mkOrbitControls false false false false)
      ∧ controls (endDrag (dragMoves someMoves pressed).1
                    (dragMoves someMoves pressed).2).1 !! 1
        = Some (mkOrbitControls true true true true).
Proof.
  assert (H1 : isXRSessionActive (managerOf twoParts) = false)
    by (vm_compute; reflexivity).
  assert (H2 : pressHit pressBlade = Some 8) by (vm_compute; reflexivity).
  assert (H4 : last (filter (λ o, o ∈ arr twoParts.1
                                    (draggableObjects (managerOf twoParts)))
                       [8; 1; 0]) = Some 8) by (vm_compute; reflexivity).
  split; [exact H1|]. split; [exact H2|]. split; [exact blade_climbs|].
  split; [exact H4|].
  destruct (drag_session_suspends_orbit pressBlade twoParts.1
              (managerOf twoParts) 8 8 [8; 1; 0] someMoves 1
              H1 H2 blade_climbs H4) as (pressed & Hp & Hc1 & _ & Hc3 & _).
  exists pressed. split; [exact Hp|]. split.
  - etrans; [exact Hc1|]. vm_compute. reflexivity.
  - etrans; [exact Hc3|]. vm_compute. reflexivity.
Defined.

(** The drag of the blade leaves the frame (node 10) as it was. *)
Lemma drag_moves_only_translate_witness :
  isDragging bladeManager = true
  ∧ selectedObject bladeManager = Some 8
  ∧ live afterPress.1 8
  ∧ lastDragPoint bladeManager = None
  ∧ obj (dragMoves someMoves (afterPress.1, bladeManager)).1 10
    = obj afterPress.1 10.
Proof.
  assert (H1 : isDragging bladeManager = true) by (vm_compute; reflexivity).
  assert (H2 : selectedObject bladeManager = Some 8) by (vm_compute; reflexivity).
  assert (H3 : live afterPress.1 8) by (eexists; vm_compute; reflexivity).
  assert (H4 : lastDragPoint bladeManager = None) by (vm_compute; reflexivity).
  split; [exact H1|]. split; [exact H2|]. split; [exact H3|]. split; [exact H4|].
  apply (proj1 (drag_moves_only_translate someMoves afterPress.1 bladeManager 8
                  H1 H2 H3 H4)).
  discriminate.
Defined.

(** As a host the viewer sends two messages for the three intersections of
    the drag of the blade. *)
Lemma drag_emits_per_translation_witness :
  isDragging bladeManager = true
  ∧ selectedObject bladeManager = Some 8
  ∧ live MoreSessions.hosting 8
  ∧ lastDragPoint bladeManager = None
  ∧ ∃ msgs,
      emitted (dragMoves someMoves (MoreSessions.hosting, bladeManager)).1
      = emitted MoreSessions.hosting ++ msgs
      ∧ length msgs = 2.
Proof.
  assert (H1 : isDragging bladeManager = true) by (vm_compute; reflexivity).
  assert (H2 : selectedObject bladeManager = Some 8) by (vm_compute; reflexivity).
  assert (H3 : live MoreSessions.hosting 8) by (eexists; vm_compute; reflexivity).
  assert (H4 : lastDragPoint bladeManager = None) by (vm_compute; reflexivity).
  split; [exact H1|]. split; [exact H2|]. split; [exact H3|]. split; [exact H4|].
  destruct (drag_emits_per_translation someMoves MoreSessions.hosting
              bladeManager 8 H1 H2 H3 H4) as (msgs & M & N & _).
  exists msgs. split; [exact M|]. rewrite N. vm_compute. reflexivity.
Defined.

End SessionFacts.

(** ** Frames of an XR manipulation *)

Module XRFacts.
Import Three Store StoreFacts ThreeFacts InteractionManager XRFrames Sessions.
Local Open Scope Qc_scope.

Lemma multiplyScalar_one (v : Vector3) : multiplyScalar v (Q2Qc 1) = v.
Proof. destruct v; unfold multiplyScalar; simpl. f_equal; ring. Qed.

Lemma writePose_effect (c : ObjId) (p : Pose) (w : World) :
  live w c →
  position (obj (writePose c p w) c) = posePosition p
  ∧ quaternion (obj (writePose c p w) c) = poseOrientation p
  ∧ (∀ j, j ≠ c → obj (writePose c p w) j = obj w j)
  ∧ (∀ j, live (writePose c p w) j ↔ live w j)
  ∧ mobile (writePose c p w) = mobile w.
Proof.
  intros Hc. unfold writePose.
  assert (H1 : live (update_obj c (with_position (posePosition p)) w) c)
    by by apply live_update.
  split; [rewrite (obj_update_field position) by done; by rewrite obj_update_eq|].
  split; [by rewrite obj_update_eq|].
  split; [intros j Hj; by rewrite !obj_update_ne|].
  split; [intros j; by rewrite !live_update|done].
Qed.

(** One frame in translation mode. *)
Lemma frame_translates (c sel : ObjId) (p : Pose) (w : World) (m : t) :
  selectedObject m = Some sel → activeController m = Some c →
  isXRSessionActive m = true → rotationMode m = false →
  sel ≠ c → live w sel → live w c →
  let s' := frame c (w, m) p in
  selectedObject s'.2 = Some sel ∧ activeController s'.2 = Some c
  ∧ isXRSessionActive s'.2 = true ∧ rotationMode s'.2 = false
  ∧ live s'.1 sel ∧ live s'.1 c ∧ mobile s'.1 = mobile w
  ∧ lastControllerPosition s'.2 = posePosition p
  ∧ position (obj s'.1 sel)
    = add (position (obj w sel))
        (multiplyScalar (subVectors (posePosition p) (lastControllerPosition m))
           (sensitivity w)).
Proof.
  intros Hsel Hact Hxr Hrot Hne Hls Hlc.
  destruct (writePose_effect c p w Hlc) as (Pc & _ & Eo & Lo & Mo).
  unfold frame, update. cbn [fst snd]. rewrite Hsel, Hact, Hxr, Hrot.
  cbn [fst snd]. rewrite Pc, Mo.
  repeat (split; [done || (rewrite live_update; by apply Lo)|]).
  rewrite obj_update_eq by by apply Lo.
  cbn [position with_position]. rewrite (Eo sel Hne).
  unfold sensitivity. destruct (mobile w); [done|].
  by rewrite multiplyScalar_one.
Qed.

(** One frame in rotation mode moves nothing and keeps the manager. *)
Lemma frame_rotates (c sel : ObjId) (p : Pose) (w : World) (m : t) :
  selectedObject m = Some sel → activeController m = Some c →
  isXRSessionActive m = true → rotationMode m = true →
  sel ≠ c → live w sel → live w c →
  let s' := frame c (w, m) p in
  s'.2 = m ∧ live s'.1 sel ∧ live s'.1 c ∧ mobile s'.1 = mobile w
  ∧ position (obj s'.1 sel) = position (obj w sel)
  ∧ quaternion (obj s'.1 sel)
    = multiply (multiply (poseOrientation p) (invert (startControllerQuaternion m)))
        (startObjectQuaternion m).
Proof.
  intros Hsel Hact Hxr Hrot Hne Hls Hlc.
  destruct (writePose_effect c p w Hlc) as (_ & Qc' & Eo & Lo & Mo).
  unfold frame, update. cbn [fst snd]. rewrite Hsel, Hact, Hxr, Hrot.
  cbn [fst snd]. rewrite Qc'.
  split; [done|].
  split; [rewrite live_update; by apply Lo|].
  split; [rewrite live_update; by apply Lo|].
  split; [done|].
  split; [rewrite (obj_update_field position) by done; by rewrite Eo|].
  rewrite obj_update_eq by by apply Lo. done.
Qed.

(** X6. Rotation mode does not follow the controller's position and does not
    record it either: frames in rotation mode leave the object where it is,
    and the first frame after the squeeze is released moves the object by the
    whole displacement of the controller since the last frame in translation
    mode. *)
Theorem rotation_mode_defers_translation (c sel : ObjId) (ps : list Pose)
    (p : Pose) (w : World) (m : t) :
  selectedObject m = Some sel → activeController m = Some c →
  isXRSessionActive m = true → rotationMode m = true →
  sel ≠ c → live w sel → live w c →
  let s1 := frames c ps (w, m) in
  let s2 := frame c (s1.1, onControllerSqueezeEnd s1.2) p in
  position (obj s1.1 sel) = position (obj w sel)
  ∧ lastControllerPosition s1.2 = lastControllerPosition m
  ∧ position (obj s2.1 sel)
    = add (position (obj w sel))
        (multiplyScalar
           (subVectors (posePosition p) (lastControllerPosition m))
           (sensitivity w)).
Proof.
  intros Hsel Hact Hxr Hrot Hne Hls Hlc.
  assert (R : let s1 := frames c ps (w, m) in
              s1.2 = m ∧ live s1.1 sel ∧ live s1.1 c
              ∧ mobile s1.1 = mobile w
              ∧ position (obj s1.1 sel) = position (obj w sel)).
  { clear p. revert w Hls Hlc. induction ps as [|q ps IH]; intros w Hls Hlc; [done|].
    cbn [frames foldl]. fold (frames c ps (frame c (w, m) q)).
    destruct (frame_rotates c sel q w m Hsel Hact Hxr Hrot Hne Hls Hlc)
      as (Hm1 & Hl1 & Hc1 & Hmo1 & Hp1 & _).
    destruct (frame c (w, m) q) as [w1 m1]; cbn [fst snd] in *. subst m1.
    destruct (IH w1 Hl1 Hc1) as (? & ? & ? & Hmo & Hp).
    repeat split; try done; congruence. }
  cbv zeta in *. destruct R as (Hm1 & Hl1 & Hc1 & Hmo & Hp1).
  destruct (frames c ps (w, m)) as [w1 m1]; cbn [fst snd] in *. subst m1.
  split; [exact Hp1|]. split; [done|].
  destruct (frame_translates c sel p w1 (onControllerSqueezeEnd m)
              Hsel Hact Hxr eq_refl Hne Hl1 Hc1) as (_ & _ & _ & _ & _ & _ & _ & _ & Hp2).
  rewrite Hp2, Hp1. unfold sensitivity. by rewrite Hmo.
Qed.

(** The same frames with the squeeze held leave the blade in place. *)
Lemma rotation_mode_defers_translation_witness :
  selectedObject (onControllerSqueezeStart 3 xrSqueeze.1 xrSqueeze.2) = Some 8
  ∧ activeController (onControllerSqueezeStart 3 xrSqueeze.1 xrSqueeze.2) = Some 3
  ∧ isXRSessionActive (onControllerSqueezeStart 3 xrSqueeze.1 xrSqueeze.2) = true
  ∧ rotationMode (onControllerSqueezeStart 3 xrSqueeze.1 xrSqueeze.2) = true
  ∧ live xrSqueeze.1 8 ∧ live xrSqueeze.1 3
  ∧ position
      (obj (frames 3 MoreSessions.somePoses
              (xrSqueeze.1, onControllerSqueezeStart 3 xrSqueeze.1 xrSqueeze.2)).1
         8)
    = position (obj xrSqueeze.1 8).
Proof.
  set (m := onControllerSqueezeStart 3 xrSqueeze.1 xrSqueeze.2).
  assert (H1 : selectedObject m = Some 8) by (vm_compute; reflexivity).
  assert (H2 : activeController m = Some 3) by (vm_compute; reflexivity).
  assert (H3 : isXRSessionActive m = true) by (vm_compute; reflexivity).
  assert (H4 : rotationMode m = true) by (vm_compute; reflexivity).
  assert (H5 : live xrSqueeze.1 8) by (eexists; vm_compute; reflexivity).
  assert (H6 : live xrSqueeze.1 3) by (eexists; vm_compute; reflexivity).
  split; [exact H1|]. split; [exact H2|]. split; [exact H3|].
  split; [exact H4|]. split; [exact H5|]. split; [exact H6|].
  assert (H7 : 8 ≠ 3) by discriminate.
  pose proof (rotation_mode_defers_translation 3 8
                MoreSessions.somePoses (mkPose zero3 identity)
                xrSqueeze.1 m H1 H2 H3 H4 H7 H5 H6) as H.
  cbv zeta in H. destruct H as [H _].
  exact H.
Defined.

End XRFacts.

(** ** Further properties of the placement flow *)

Module PlacementFacts.
Import Three Store StoreFacts ThreeFacts App Sessions.

(** What the updates of the scene graph keep of every node. *)
Lemma remove_field {A} (g : Object3D → A) (p c j : ObjId) (w : World) :
  (∀ q o, g (with_parent q o) = g o) →
  (∀ l o, g (with_children l o) = g o) →
  g (obj (remove p c w) j) = g (obj w j).
Proof.
  intros Hp Hc. unfold remove. case_decide; [|done].
  by rewrite !obj_update_field.
Qed.

Lemma add_child_field {A} (g : Object3D → A) (p c j : ObjId) (w : World) :
  (∀ q o, g (with_parent q o) = g o) →
  (∀ l o, g (with_children l o) = g o) →
  g (obj (add_child p c w) j) = g (obj w j).
Proof.
  intros Hp Hc. unfold add_child. rewrite !obj_update_field by done.
  destruct (parent (obj w c)); [by apply remove_field | done].
Qed.

Lemma add_child_live (p c j : ObjId) (w : World) :
  live (add_child p c w) j ↔ live w j.
Proof.
  unfold add_child. rewrite !live_update.
  destruct (parent (obj w c)); [apply remove_live | done].
Qed.

(** The store after [onARSessionStart]: the nodes that were there are
    still there and, but for the product group, as visible as before. *)
Lemma onARSessionStart_effect (w : World) (a : t) :
  live w (productGroup a) →
  let s := onARSessionStart w a in
  live s.1 (productGroup a)
  ∧ visible (obj s.1 (productGroup a)) = false
  ∧ position (obj s.1 (productGroup a)) = position (obj w (productGroup a))
  ∧ productGroup s.2 = productGroup a
  ∧ isARMode s.2 = true
  ∧ isPlacingProduct s.2 = true
  ∧ selectListening s.2 = true
  ∧ hitTestSource s.2 = hitTestSource a
  ∧ is_Some (placementReticle s.2)
  ∧ (placementReticle a = None ∨ is_Some (placementMessage a) →
     placementMessage s.2 = Some DisplayBlock).
Proof.
  intros Hpg. destruct a as [lm dr ar pl dg re msg again rl rr hs sc pg fl oc im sl].
  cbn [productGroup placementReticle placementMessage hitTestSource] in *.
  unfold onARSessionStart, createPlacementUI.
  cbn [productGroup floor scene placementReticle set_isARMode
       set_isPlacingProduct].
  set (w1 := update_obj pg (with_visible false) w).
  assert (L1 : live w1 pg) by by apply live_update.
  assert (V1 : visible (obj w1 pg) = false) by (unfold w1; by rewrite obj_update_eq).
  assert (P1 : position (obj w1 pg) = position (obj w pg))
    by (unfold w1; by rewrite (obj_update_field position)).
  clearbody w1.
  destruct fl as [old|], re as [r|], rl, rr;
    repeat (cbn -[alloc_obj add_child remove obj live];
            match goal with
            | |- context [alloc_obj ?X ?W] =>
                let O := fresh "O" in let L := fresh "L" in
                let LW := fresh "LW" in
                let f := fresh "f" in let w' := fresh "w'" in
                assert (LW : live W pg)
                  by (rewrite ?add_child_live, ?remove_live; assumption);
                pose proof (alloc_obj_old X W pg LW) as O;
                pose proof (proj2 (alloc_obj_live X W pg) (or_intror LW)) as L;
                destruct (alloc_obj X W) as [f w']; cbn [fst snd] in O, L
            end);
    cbn -[alloc_obj add_child remove obj live];
    repeat first
      [ rewrite add_child_live | rewrite remove_live
      | rewrite (add_child_field visible) by done
      | rewrite (add_child_field position) by done
      | rewrite (remove_field visible) by done
      | rewrite (remove_field position) by done
      | match goal with O : obj _ pg = _ |- _ => rewrite O end ];
    (split; [assumption|]); (split; [assumption|]); (split; [assumption|]);
    do 5 (split; [reflexivity|]); (split; [by eexists|]);
    try (intros [?|[? ->]]; done); try done.
Qed.

(** X7. Ending an AR session before the product is placed leaves the product
    group hidden.  [onARSessionStart] hides the group; the listeners of the
    end of the session (with or without the hit-test source obtained in
    between) clear [isARMode] and the hit-test source and do not show the
    group again; the viewer is back in the idle state, and a [select] event
    delivered afterwards changes nothing. *)
Theorem session_end_leaves_product_hidden (w : World) (a : t)
    (source : option nat) :
  live w (productGroup a) →
  let s := onARSessionStart w a in
  let a1 := from_option (λ src, hitTestSourceReady src s.2) s.2 source in
  let a2 := onARSessionEnd a1 in
  placement a2 = Idle
  ∧ productGroup a2 = productGroup a
  ∧ visible (obj s.1 (productGroup a2)) = false
  ∧ ∀ e, onSelectEvent e s.1 a2 = Some (s.1, a2).
Proof.
  intros Hpg s a1 a2.
  destruct (onARSessionStart_effect w a Hpg)
    as (_ & Hv & _ & Hg & _). fold s in Hv, Hg.
  assert (G2 : productGroup a2 = productGroup a).
  { unfold a2, a1. by destruct source. }
  refine (conj _ (conj G2 (conj _ _))).
  - done.
  - by rewrite G2.
  - intros e. unfold onSelectEvent.
    replace (hitTestSource a2) with (@None nat) by done.
    by destruct (isPlacingProduct a2).
Qed.

(** The session of the one-part viewer, ended after the hit-test source
    arrived and before any tap. *)
Lemma session_end_leaves_product_hidden_witness :
  live onePart.1 (productGroup onePart.2)
  ∧ visible (obj (onARSessionStart onePart.1 onePart.2).1
               (productGroup onePart.2)) = false.
Proof.
  assert (H : live onePart.1 (productGroup onePart.2))
    by (eexists; vm_compute; reflexivity).
  split; [exact H|].
  pose proof (session_end_leaves_product_hidden onePart.1 onePart.2 (Some 0) H)
    as K.
  cbv zeta in K. destruct K as (_ & G & V & _).
  rewrite G in V. exact V.
Defined.



End PlacementFacts.

(** ** Reloading and clearing the registry *)

Module ReloadFacts.
Import Three Store StoreFacts App Attachment RegistryFacts.

Lemma map_set_member (k : string) (v : ObjId) (m : list (string * ObjId)) :
  (k, v) ∈ map_set k v m.
Proof.
  induction m as [|[k' v'] m IH]; csimpl; [by left|].
  case_decide; [by left | by right].
Qed.

Lemma map_set_value (k : string) (v : ObjId) (m : list (string * ObjId)) :
  v ∈ (map_set k v m).*2.
Proof.
  apply list_elem_of_fmap. exists (k, v). split; [done | apply map_set_member].
Qed.

(** The value that a key held is gone from the values once the key is set
    again. *)
Lemma map_set_replaces (k : string) (v v0 : ObjId) (m : list (string * ObjId)) :
  NoDup m.*1 → NoDup m.*2 → (k, v0) ∈ m → v ≠ v0 →
  v0 ∉ (map_set k v m).*2.
Proof.
  induction m as [|[k' v'] m IH]; csimpl; intros Hk Hv Hin Hne.
  { by apply elem_of_nil in Hin. }
  apply NoDup_cons in Hk as [Hk' Hk]. apply NoDup_cons in Hv as [Hv' Hv].
  destruct (decide (k' = k)) as [->|Hkk]; csimpl.
  - apply elem_of_cons in Hin as [E|Hin].
    + injection E as <-. apply not_elem_of_cons. split; [congruence | done].
    + exfalso. apply Hk'. apply list_elem_of_fmap. by exists (k, v0).
  - apply elem_of_cons in Hin as [E|Hin]; [congruence|].
    apply not_elem_of_cons. split; [|by apply IH].
    intros ->. apply Hv'. apply list_elem_of_fmap. by exists (k, v').
Qed.

Lemma elem_of_remove_first_ne (x c : ObjId) (l : list ObjId) :
  x ≠ c → x ∈ remove_first c l ↔ x ∈ l.
Proof.
  intros Hne. induction l as [|d l IH]; [done|]. simpl.
  case_decide as Hd.
  - subst d. rewrite elem_of_cons. split; [by right | by intros [?|?]].
  - by rewrite !elem_of_cons, IH.
Qed.

Lemma elem_of_remove_first (x c : ObjId) (l : list ObjId) :
  x ∈ remove_first c l → x ∈ l.
Proof.
  induction l as [|d l IH]; [done|]. simpl. case_decide.
  - by right.
  - intros [->|H']%elem_of_cons; [by left | right; by apply IH].
Qed.

Lemma remove_first_gone (c : ObjId) (l : list ObjId) :
  NoDup l → c ∉ remove_first c l.
Proof.
  induction l as [|d l IH]; intros Hnd; [by intros ?%elem_of_nil|].
  apply NoDup_cons in Hnd as [Hd Hnd]. simpl. case_decide as E.
  - by subst d.
  - apply not_elem_of_cons. split; [congruence | by apply IH].
Qed.

Lemma remove_first_NoDup (c : ObjId) (l : list ObjId) :
  NoDup l → NoDup (remove_first c l).
Proof.
  induction l as [|d l IH]; intros Hnd; [done|].
  apply NoDup_cons in Hnd as [Hd Hnd]. simpl. case_decide; [done|].
  constructor; [|by apply IH]. intros H'%elem_of_remove_first. by apply Hd.
Qed.

(** The store after a finished load: the new container hangs under the
    product group, the product group has it for last child, and every
    other node that was there is as it was. *)
Lemma loadModel_store (nm : string) (model : Object3D) (w : World) (a : t)
    (m : InteractionManager.t) :
  interactionManager a = Some m →
  live w (productGroup a) →
  let s' := loadModel nm model w a in
  ∃ container,
    objects w !! container = None
    ∧ live s'.1 container
    ∧ loadedModels s'.2 = map_set nm container (loadedModels a)
    ∧ parent (obj s'.1 container) = Some (productGroup a)
    ∧ obj s'.1 (productGroup a)
      = with_children (children (obj w (productGroup a)) ++ [container])
          (obj w (productGroup a))
    ∧ (∀ j, live w j → j ≠ productGroup a → obj s'.1 j = obj w j).
Proof.
  intros Hm Hpg. unfold loadModel.
  set (model' := with_children [] (with_parent None model)).
  pose proof (alloc_obj_fresh model' w) as F1.
  pose proof (alloc_obj_new model' w) as N1.
  pose proof (alloc_obj_live model' w) as L1.
  pose proof (alloc_obj_old model' w) as O1.
  destruct (alloc_obj model' w) as [i1 w1]; simpl in F1, N1, L1, O1.
  pose proof (alloc_obj_fresh (newGroup nm) w1) as F2.
  pose proof (alloc_obj_new (newGroup nm) w1) as N2.
  pose proof (alloc_obj_live (newGroup nm) w1) as L2.
  pose proof (alloc_obj_old (newGroup nm) w1) as O2.
  destruct (alloc_obj (newGroup nm) w1) as [i2 w2]; simpl in F2, N2, L2, O2.
  assert (Hl1 : live w2 i1) by (apply L2; right; apply L1; by left).
  assert (Hl2 : live w2 i2) by (apply L2; by left).
  assert (Hlp : live w2 (productGroup a)) by (apply L2; right; apply L1; by right).
  assert (H12 : i1 ≠ i2).
  { intros <-. assert (live w1 i1) by (apply L1; by left).
    destruct H as [x Hx]. congruence. }
  assert (Hp1 : productGroup a ≠ i1).
  { intros E. rewrite E in Hpg. destruct Hpg as [x Hx]. congruence. }
  assert (Hp2 : productGroup a ≠ i2).
  { intros E. assert (H : live w1 i2) by (rewrite <- E; apply L1; by right).
    destruct H as [x Hx]. congruence. }
  assert (Fw : objects w !! i2 = None).
  { destruct (objects w !! i2) as [x|] eqn:E; [|done].
    assert (H : live w1 i2) by (apply L1; right; by exists x).
    destruct H as [y Hy]. congruence. }
  rewrite (add_child_orphan i2 i1 w2)
    by (rewrite O2, N1 by (apply L1; by left); done).
  set (w3 := update_obj i2 _ (update_obj i1 _ w2)).
  assert (P3 : parent (obj w3 i2) = None).
  { unfold w3. rewrite obj_update_eq by by apply live_update.
    simpl. rewrite obj_update_ne by done. by rewrite N2. }
  assert (L3 : live w3 i2) by (unfold w3; by rewrite !live_update).
  cbn [productGroup set_draggableObjects set_loadedModels interactionManager].
  rewrite (add_child_orphan (productGroup a) i2 w3 P3).
  set (w4 := update_obj (productGroup a) _ (update_obj i2 _ w3)).
  rewrite Hm.
  set (a' := set_loadedModels _ _).
  pose proof (alloc_array_objects (values a') w4) as O5.
  destruct (alloc_array (values a') w4) as [r w5]; cbn [fst snd] in O5.
  assert (E5 : ∀ j, obj w5 j = obj w4 j) by (intros j; unfold obj; by rewrite O5).
  assert (Old : ∀ j, live w j → j ≠ i1 ∧ j ≠ i2).
  { intros j [x Hx]. split; intros ->; congruence. }
  exists i2. cbn [fst snd]. refine (conj Fw (conj _ (conj _ (conj _ (conj _ _))))).
  - unfold live. rewrite O5. fold (live w4 i2). unfold w4.
    by rewrite !live_update.
  - done.
  - rewrite E5. unfold w4. rewrite obj_update_ne by done.
    by rewrite obj_update_eq.
  - rewrite E5. unfold w4.
    rewrite obj_update_eq by (by rewrite live_update; unfold w3;
      rewrite !live_update).
    rewrite obj_update_ne by done.
    unfold w3. rewrite !obj_update_ne by done.
    rewrite O2 by (apply L1; by right). by rewrite O1.
  - intros j Hj Hne. destruct (Old j Hj) as [Hj1 Hj2].
    rewrite E5. unfold w4. rewrite !obj_update_ne by done.
    unfold w3. rewrite !obj_update_ne by done.
    rewrite O2 by (apply L1; by right). by rewrite O1.
Qed.

Lemma load_attached (names : list string) (nm : string) (model : Object3D)
    (s : World * t) :
  consistent names s → attached s → attached (loadModel nm model s.1 s.2).
Proof.
  destruct s as [w a]. cbn [fst snd].
  intros (Hpg & (m & Hm & Harr) & Hk & Hn & Hv & Hin) (Hnd & Hch & Hpar).
  cbn [fst snd] in *.
  destruct (loadModel_effect nm model w a m Hm Hpg)
    as (c0 & _ & _ & _ & Hpg' & _ & Hmono & _).
  destruct (loadModel_store nm model w a m Hm Hpg)
    as (c & Hfresh & Hlc & Hmap & Hpc & Hgrp & Hold).
  destruct (loadModel nm model w a) as [w' a']; cbn [fst snd] in *.
  assert (Hcl : ¬ live w c) by (intros [x Hx]; congruence).
  unfold attached, values in *; cbn [fst snd]. rewrite Hpg', Hmap, Hgrp.
  cbn [children with_children].
  refine (conj _ (conj _ _)).
  - apply NoDup_app. refine (conj Hnd (conj _ (NoDup_singleton _))).
    intros x Hx ->%list_elem_of_singleton. by apply Hcl, Hch.
  - intros d [Hd| ->%list_elem_of_singleton]%elem_of_app.
    + by apply Hmono, Hch.
    + done.
  - intros v [->|Hvin]%map_set_values_in.
    + split; [done|]. intros ->. by apply Hcl.
    + destruct (Hpar v Hvin) as [Hp Hne].
      rewrite Hold; [done | by apply Hin | done].
Qed.

(** The loop of [clearExistingModels] over registered containers that
    hang under the product group. *)
Lemma clear_fold (pg : ObjId) (l : list ObjId) (w : World) :
  live w pg → NoDup l → pg ∉ l →
  NoDup (children (obj w pg)) →
  (∀ v, v ∈ l → live w v ∧ parent (obj w v) = Some pg
                ∧ v ∈ children (obj w pg)) →
  let w' :=
    foldl (λ w model,
             match parent (obj w model) with
             | Some _ => remove pg model w
             | None => w
             end) w l in
  (∀ j, live w' j ↔ live w j)
  ∧ (∀ x, x ∈ children (obj w' pg) ↔ x ∈ children (obj w pg) ∧ x ∉ l)
  ∧ NoDup (children (obj w' pg))
  ∧ (∀ v, v ∈ l → parent (obj w' v) = None)
  ∧ (∀ j, j ∉ l → j ≠ pg → obj w' j = obj w j).
Proof.
  revert w. induction l as [|v l IH]; intros w Hpg Hl Hpl Hnd Hall.
  { simpl. refine (conj _ (conj _ (conj Hnd (conj _ _)))); try done.
    - intros x. split; [intros H; split; [done | by intros ?%elem_of_nil]
                       | by intros [? _]].
    - by intros v ?%elem_of_nil. }
  apply NoDup_cons in Hl as [Hvl Hl].
  apply not_elem_of_cons in Hpl as [Hpv Hpl].
  destruct (Hall v) as (Lv & Pv & Cv); [by left|].
  cbn [foldl]. rewrite Pv.
  set (w1 := remove pg v w).
  assert (L1 : ∀ j, live w1 j ↔ live w j) by (intros j; apply remove_live).
  assert (C1 : children (obj w1 pg) = remove_first v (children (obj w pg))).
  { unfold w1, remove. rewrite decide_True by done.
    rewrite obj_update_eq by by apply live_update.
    by rewrite obj_update_ne. }
  assert (P1 : parent (obj w1 v) = None).
  { unfold w1, remove. rewrite decide_True by done.
    rewrite obj_update_ne by done. by rewrite obj_update_eq. }
  assert (O1 : ∀ j, j ≠ v → j ≠ pg → obj w1 j = obj w j).
  { intros j Hj1 Hj2. unfold w1, remove. rewrite decide_True by done.
    by rewrite !obj_update_ne. }
  destruct (IH w1) as (La & Ca & Na & Pa & Oa).
  - by apply L1.
  - done.
  - done.
  - rewrite C1. by apply remove_first_NoDup.
  - intros u Hu. destruct (Hall u) as (Lu & Pu & Cu); [by right|].
    assert (u ≠ v) by (intros ->; done).
    assert (u ≠ pg) by (intros ->; done).
    rewrite O1 by done. rewrite C1.
    refine (conj _ (conj Pu _)); [by apply L1|].
    by apply elem_of_remove_first_ne.
  - refine (conj _ (conj _ (conj Na (conj _ _)))).
    + intros j. by rewrite La.
    + intros x. rewrite Ca, C1, not_elem_of_cons. split.
      * intros [Hx Hxl]. assert (x ≠ v).
        { intros ->. by apply (remove_first_gone v (children (obj w pg))). }
        split; [by apply (elem_of_remove_first x v) | done].
      * intros [Hx [Hxv Hxl]]. split; [|done].
        by apply elem_of_remove_first_ne.
    + intros u [->|Hu]%elem_of_cons; [|by apply Pa].
      rewrite Oa by done. done.
    + intros j [Hjv Hjl]%not_elem_of_cons Hjp.
      rewrite Oa by done. by apply O1.
Qed.

(** What [clearExistingModels] does to a registry whose containers hang
    under the product group. *)
Lemma clear_effect (names : list string) (s : World * t) :
  consistent names s → attached s →
  let s' := clearExistingModels s.1 s.2 in
  productGroup s'.2 = productGroup s.2
  ∧ loadedModels s'.2 = []
  ∧ (∀ j, live s'.1 j ↔ live s.1 j)
  ∧ (∀ x, x ∈ children (obj s'.1 (productGroup s.2))
          ↔ x ∈ children (obj s.1 (productGroup s.2)) ∧ x ∉ values s.2)
  ∧ NoDup (children (obj s'.1 (productGroup s.2)))
  ∧ (∀ v, v ∈ values s.2 → parent (obj s'.1 v) = None).
Proof.
  destruct s as [w a]. cbn [fst snd].
  intros (Hpg & (m & Hm & Harr) & Hk & Hn & Hv & Hin) (Hnd & Hch & Hpar).
  cbn [fst snd] in *.
  unfold clearExistingModels, updateDragControls.
  destruct (clear_fold (productGroup a) (values a) w) as (La & Ca & Na & Pa & _).
  - done.
  - done.
  - intros Hp. by destruct (Hpar _ Hp).
  - done.
  - intros v Hvin. destruct (Hin v Hvin), (Hpar v Hvin). done.
  - set (w' := foldl _ w (values a)) in *.
    change (values (set_draggableObjects [] (set_loadedModels [] a)))
      with (@nil ObjId).
    change (interactionManager (set_draggableObjects [] (set_loadedModels [] a)))
      with (interactionManager a).
    rewrite Hm.
    pose proof (alloc_array_objects [] w') as O.
    destruct (alloc_array [] w') as [r w'']; cbn [fst snd] in *.
    assert (E : ∀ j, obj w'' j = obj w' j) by (intros j; unfold obj; by rewrite O).
    refine (conj _ (conj _ (conj _ (conj _ (conj _ _))))); try done.
    + intros j. unfold live. rewrite O. apply La.
    + intros x. rewrite E. apply Ca.
    + by rewrite E.
    + intros v Hvin. rewrite E. by apply Pa.
Qed.

Lemma clear_attached (names : list string) (s : World * t) :
  consistent names s → attached s → attached (clearExistingModels s.1 s.2).
Proof.
  intros Hc Ha.
  destruct (clear_effect names s Hc Ha) as (Hg & Hl & Hlive & Hch & Hnd & _).
  destruct Ha as (_ & Hcl & _).
  unfold attached, values. rewrite Hg, Hl.
  refine (conj Hnd (conj _ _)).
  - intros c [Hc' _]%Hch. by apply Hlive, Hcl.
  - by intros v ?%elem_of_nil.
Qed.

Lemma run_attached (ops : list RegistryOp) (names : list string)
    (s : World * t) :
  consistent names s → attached s → attached (registryRun ops s).
Proof.
  revert names s. induction ops as [|op ops IH]; intros names s Hc Ha; [done|].
  simpl. destruct op as [nm model|]; simpl.
  - apply (IH (names ++ [nm])); [by apply load_consistent|].
    by eapply load_attached.
  - apply (IH []); [by eapply clear_consistent|].
    by eapply clear_attached.
Qed.

Lemma create_attached (onMobile : bool) : attached (create onMobile).
Proof.
  unfold attached.
  replace (children (obj (create onMobile).1 (productGroup (create onMobile).2)))
    with (@nil ObjId) by (destruct onMobile; vm_compute; reflexivity).
  replace (values (create onMobile).2) with (@nil ObjId)
    by (by destruct onMobile).
  refine (conj NoDup_nil_2 (conj _ _)); by intros ? ?%elem_of_nil.
Qed.

(** X9. Loading a model under a name that is registered already replaces the
    container in the registry and in the draggable list, and leaves the
    replaced container where it was: it is still a child of the product
    group, it is no longer draggable, and a later [clearExistingModels],
    which detaches the registered containers only, does not detach it. *)
Theorem replaced_container_stays_in_group (onMobile : bool)
    (ops : list RegistryOp) (nm : string) (model model' : Object3D) :
  let s0 := registryRun ops (create onMobile) in
  let s1 := loadModel nm model s0.1 s0.2 in
  let s2 := loadModel nm model' s1.1 s1.2 in
  let s3 := clearExistingModels s2.1 s2.2 in
  ∃ old new,
    (nm, old) ∈ loadedModels s1.2
    ∧ old ∈ draggableList s1.1 s1.2
    ∧ (nm, new) ∈ loadedModels s2.2
    ∧ new ≠ old
    ∧ new ∈ draggableList s2.1 s2.2
    ∧ (old ∉ draggableList s2.1 s2.2)
    ∧ length (draggableList s2.1 s2.2) = length (draggableList s1.1 s1.2)
    ∧ old ∈ children (obj s2.1 (productGroup s2.2))
    ∧ old ∈ children (obj s3.1 (productGroup s3.2))
    ∧ (new ∉ children (obj s3.1 (productGroup s3.2))).
Proof.
  intros s0 s1 s2 s3.
  pose proof (run_consistent ops [] _ (create_consistent onMobile)) as C0.
  pose proof (run_attached ops [] _ (create_consistent onMobile)
                (create_attached onMobile)) as A0.
  fold s0 in C0, A0. set (names := registeredFrom [] ops) in C0.
  pose proof (load_consistent names nm model s0 C0) as C1.
  pose proof (load_attached names nm model s0 C0 A0) as A1.
  fold s1 in C1, A1.
  pose proof (load_consistent (names ++ [nm]) nm model' s1 C1) as C2.
  pose proof (load_attached (names ++ [nm]) nm model' s1 C1 A1) as A2.
  fold s2 in C2, A2.
  destruct C0 as (Hpg0 & (m0 & Hm0 & Harr0) & _).
  destruct (loadModel_effect nm model s0.1 s0.2 m0 Hm0 Hpg0)
    as (old & _ & Hlo & Hmap1 & _). fold s1 in Hlo, Hmap1.
  destruct C1 as (Hpg1 & (m1 & Hm1 & Harr1) & Hk1 & Hn1 & Hv1 & Hin1).
  destruct (loadModel_effect nm model' s1.1 s1.2 m1 Hm1 Hpg1)
    as (new & Hfresh & _ & Hmap2 & Hpg2 & Hch2 & _). fold s2 in Hmap2, Hpg2, Hch2.
  assert (Hne : new ≠ old).
  { intros ->. destruct Hlo as [x Hx]. congruence. }
  assert (Hold1 : (nm, old) ∈ loadedModels s1.2)
    by (rewrite Hmap1; apply map_set_member).
  assert (Hov1 : old ∈ values s1.2).
  { apply list_elem_of_fmap. by exists (nm, old). }
  assert (Hnew2 : new ∈ values s2.2).
  { unfold values. rewrite Hmap2. apply map_set_value. }
  assert (Hold2 : old ∉ values s2.2).
  { unfold values. rewrite Hmap2. by apply map_set_replaces. }
  assert (Hch : old ∈ children (obj s2.1 (productGroup s2.2))).
  { rewrite Hpg2, Hch2. apply elem_of_app. left. by apply Hin1. }
  pose proof (clear_effect _ s2 C2 A2) as (Hg3 & _ & _ & Hch3 & _).
  fold s3 in Hg3, Hch3.
  destruct C2 as (_ & (m2 & Hm2 & Harr2) & Hk2 & Hn2 & Hv2 & Hin2).
  exists old, new. unfold draggableList. rewrite Hm1, Hm2, Harr1, Harr2.
  refine (conj Hold1 (conj Hov1 (conj _ (conj Hne (conj Hnew2 (conj Hold2
    (conj _ (conj Hch (conj _ _))))))))).
  - rewrite Hmap2. apply map_set_member.
  - unfold values. rewrite !length_fmap, <- !(length_fmap fst).
    rewrite Hmap2, map_set_keys. rewrite decide_True; [done|].
    apply list_elem_of_fmap. by exists (nm, old).
  - rewrite Hg3. apply Hch3. done.
  - rewrite Hg3. intros [_ H]%Hch3. done.
Qed.

(** X10. [clearExistingModels] after any run of loads and clears: every
    container that was registered, and so every draggable object, has left
    the product group and has no parent; the registry and the draggable list
    are empty; what else hung under the product group still does. *)
Theorem clear_detaches_registered (onMobile : bool) (ops : list RegistryOp) :
  let s := registryRun ops (create onMobile) in
  let s' := clearExistingModels s.1 s.2 in
  loadedModels s'.2 = []
  ∧ draggableList s'.1 s'.2 = []
  ∧ (∀ c, c ∈ draggableList s.1 s.2 →
          (c ∉ children (obj s'.1 (productGroup s'.2)))
          ∧ parent (obj s'.1 c) = None
          ∧ live s'.1 c)
  ∧ (∀ x, x ∈ children (obj s.1 (productGroup s.2)) →
          x ∉ draggableList s.1 s.2 →
          x ∈ children (obj s'.1 (productGroup s'.2))).
Proof.
  intros s s'.
  pose proof (run_consistent ops [] _ (create_consistent onMobile)) as C.
  pose proof (run_attached ops [] _ (create_consistent onMobile)
                (create_attached onMobile)) as A.
  fold s in C, A.
  pose proof (clear_consistent _ s C) as C'. fold s' in C'.
  destruct (clear_effect _ s C A) as (Hg & Hl & Hlive & Hch & _ & Hpar).
  fold s' in Hg, Hl, Hlive, Hch, Hpar.
  destruct C as (_ & (m & Hm & Harr) & _ & _ & _ & Hin).
  destruct C' as (_ & (m' & Hm' & Harr') & _).
  unfold draggableList. rewrite Hm, Hm', Harr, Harr', Hg.
  unfold values at 1. rewrite Hl.
  refine (conj eq_refl (conj eq_refl (conj _ _))).
  - intros c Hc. refine (conj _ (conj (Hpar c Hc) _)).
    + intros [_ H]%Hch. done.
    + apply Hlive. by apply Hin.
  - intros x Hx Hnx. by apply Hch.
Qed.

(** X11. A finished load leaves the parts that are there as they are: every
    node of the store other than the product group is unchanged, so that a
    part dragged, turned or scaled before keeps its transform, and the
    product group keeps its own transform and visibility and gains the new
    container as last child. *)
Theorem load_keeps_existing_nodes (nm : string) (model : Object3D) (w : World)
    (a : t) (m : InteractionManager.t) :
  interactionManager a = Some m →
  live w (productGroup a) →
  let s' := loadModel nm model w a in
  (∀ j, live w j → j ≠ productGroup a → obj s'.1 j = obj w j)
  ∧ position (obj s'.1 (productGroup a)) = position (obj w (productGroup a))
  ∧ quaternion (obj s'.1 (productGroup a))
    = quaternion (obj w (productGroup a))
  ∧ scale (obj s'.1 (productGroup a)) = scale (obj w (productGroup a))
  ∧ visible (obj s'.1 (productGroup a)) = visible (obj w (productGroup a))
  ∧ ∃ container,
      ¬ live w container
      ∧ children (obj s'.1 (productGroup a))
        = children (obj w (productGroup a)) ++ [container]
      ∧ parent (obj s'.1 container) = Some (productGroup a).
Proof.
  intros Hm Hpg s'.
  destruct (loadModel_store nm model w a m Hm Hpg)
    as (c & Hfresh & _ & _ & Hpc & Hgrp & Hold). fold s' in Hpc, Hgrp, Hold.
  rewrite Hgrp. refine (conj Hold (conj eq_refl (conj eq_refl (conj eq_refl
    (conj eq_refl _))))).
  exists c. refine (conj _ (conj eq_refl Hpc)).
  intros [o Ho]. congruence.
Qed.

(** A third model loaded after the blade was dragged: the blade (node 8)
    is where the drag left it. *)
Lemma load_keeps_existing_nodes_witness :
  interactionManager Sessions.displaced.2 = Some (Sessions.managerOf Sessions.displaced)
  ∧ live Sessions.displaced.1 (productGroup Sessions.displaced.2)
  ∧ obj (loadModel "handle" (newGroup "Scene") Sessions.displaced.1
           Sessions.displaced.2).1 8
    = obj Sessions.displaced.1 8.
Proof.
  assert (H1 : interactionManager Sessions.displaced.2
               = Some (Sessions.managerOf Sessions.displaced))
    by (vm_compute; reflexivity).
  assert (H2 : live Sessions.displaced.1 (productGroup Sessions.displaced.2))
    by (eexists; vm_compute; reflexivity).
  assert (H3 : live Sessions.displaced.1 8)
    by (eexists; vm_compute; reflexivity).
  assert (H4 : 8 ≠ productGroup Sessions.displaced.2)
    by (vm_compute; discriminate).
  split; [exact H1|]. split; [exact H2|].
  exact (proj1 (load_keeps_existing_nodes "handle" (newGroup "Scene")
                  Sessions.displaced.1 Sessions.displaced.2 _ H1 H2) 8 H3 H4).
Defined.

End ReloadFacts.

(** ** Runs of colour choices and the reach of Reset *)

Module RecentFacts.
Import Three Store StoreFacts UiControls RecentRuns Sessions.

Lemma distinct_elem (c : string) (l : list string) :
  c ∈ distinct l ↔ c ∈ l.
Proof.
  induction l as [|a l IH]; [done|]. simpl.
  rewrite !elem_of_cons, list_elem_of_filter, IH.
  destruct (decide (c = a)); [subst; tauto | tauto].
Qed.

Lemma distinct_NoDup (l : list string) : NoDup (distinct l).
Proof.
  induction l as [|a l IH]; simpl; [constructor|].
  constructor; [|by apply NoDup_filter].
  intros [H _]%list_elem_of_filter. by apply H.
Qed.

Lemma distinct_fixed (l : list string) : NoDup l → distinct l = l.
Proof.
  induction l as [|a l IH]; intros Hnd; [done|].
  apply NoDup_cons in Hnd as [Ha Hnd]. simpl. rewrite IH by done.
  f_equal. by apply UiControlsFacts.filter_ne_fixed.
Qed.

(** Of a list without repetition, the entry beyond the first [n + 1] does
    not matter to the first [n] entries other than [c]. *)
Lemma take_filter_take (c : string) (n : nat) (D : list string) :
  NoDup D →
  take n (filter (λ d, d ≠ c) (take (S n) D))
  = take n (filter (λ d, d ≠ c) D).
Proof.
  revert n. induction D as [|d D IH]; intros n Hnd; [done|].
  apply NoDup_cons in Hnd as [Hd Hnd]. cbn [take].
  destruct (decide (d = c)) as [->|Hne].
  - rewrite !filter_cons_False by (intros H; by apply H).
    rewrite (UiControlsFacts.filter_ne_fixed c D Hd).
    rewrite (UiControlsFacts.filter_ne_fixed c (take n D))
      by by apply UiControlsFacts.not_in_take.
    rewrite take_take. f_equal. lia.
  - rewrite !filter_cons_True by done.
    destruct n as [|n]; [done|]. cbn [take]. f_equal. by apply IH.
Qed.

Lemma addRecentColors_snoc (cs : list string) (c : string) (ls : LocalStorage) :
  addRecentColors (cs ++ [c]) ls = addRecentColor c (addRecentColors cs ls).
Proof. unfold addRecentColors. by rewrite foldl_app. Qed.

(** X12. The recent-colours list after a run of colour choices: the distinct
    colours of the run, latest first, followed by the colours stored before
    that were not chosen again, cut to six.  This holds when the list
    stored before has no repetition and at most six entries, as every list
    that [addRecentColor] has stored does, and when the entry is absent or
    unparsable, which counts as the empty list. *)
Theorem recent_colors_after_run (cs : list string) (ls : LocalStorage)
    (l : list string) :
  getRecentColors ls = Some l →
  NoDup l →
  length l ≤ 6 →
  getRecentColors (addRecentColors cs ls)
  = Some (take 6 (distinct (reverse cs ++ l))).
Proof.
  intros Hls Hnd Hlen. induction cs as [|c cs IH] using rev_ind.
  - simpl. rewrite Hls, distinct_fixed by done. by rewrite take_ge.
  - rewrite addRecentColors_snoc, reverse_snoc. unfold addRecentColor.
    rewrite IH. cbn [getRecentColors app distinct].
    set (D := distinct (reverse cs ++ l)).
    change (take 6 (c :: ?X)) with (c :: take 5 X).
    do 2 f_equal. apply (take_filter_take c 5 D), distinct_NoDup.
Qed.

(** Three choices on a list of six: the colour chosen twice is listed
    once, and the two oldest colours have left the list. *)
Lemma recent_colors_after_run_witness :
  getRecentColors (Some (Colors ["a"; "b"; "c"; "d"; "e"; "f"]))
  = Some ["a"; "b"; "c"; "d"; "e"; "f"]
  ∧ NoDup ["a"; "b"; "c"; "d"; "e"; "f"]
  ∧ length ["a"; "b"; "c"; "d"; "e"; "f"] ≤ 6
  ∧ getRecentColors
      (addRecentColors ["x"; "c"; "x"]
         (Some (Colors ["a"; "b"; "c"; "d"; "e"; "f"])))
    = Some ["x"; "c"; "a"; "b"; "d"; "e"].
Proof.
  assert (H1 : NoDup ["a"; "b"; "c"; "d"; "e"; "f"]).
  { apply (bool_decide_unpack _). vm_compute. reflexivity. }
  assert (H2 : length ["a"; "b"; "c"; "d"; "e"; "f"] ≤ 6) by (simpl; lia).
  split; [reflexivity|]. split; [exact H1|]. split; [exact H2|].
  exact (recent_colors_after_run ["x"; "c"; "x"]
           (Some (Colors ["a"; "b"; "c"; "d"; "e"; "f"]))
           ["a"; "b"; "c"; "d"; "e"; "f"] eq_refl H1 H2).
Defined.

(** X13. Corrupt storage.  An absent or unparsable entry is replaced by the
    one-colour list at the first choice.  An entry that parses to
    something that is not an array is never replaced: every call throws
    inside its [try] block before [setItem], whatever colours are chosen,
    and [getRecentColors] keeps returning the non-array. *)
Theorem corrupt_entry_never_repaired (c : string) (cs : list string) :
  addRecentColor c None = Some (Colors [c])
  ∧ addRecentColor c (Some Unparsable) = Some (Colors [c])
  ∧ addRecentColors cs (Some NotAnArray) = Some NotAnArray
  ∧ getRecentColors (addRecentColors cs (Some NotAnArray)) = None.
Proof.
  assert (H : addRecentColors cs (Some NotAnArray) = Some NotAnArray).
  { induction cs as [|d cs IH] using rev_ind; [done|].
    by rewrite addRecentColors_snoc, IH. }
  rewrite H. done.
Qed.

Lemma reset_fold_other (l : list ObjId) (w : World) (i : ObjId) :
  i ∉ l → obj (foldl resetChild w l) i = obj w i.
Proof.
  revert w. induction l as [|d l IH]; intros w Hi; [done|].
  apply not_elem_of_cons in Hi as [Hne Hi]. simpl.
  rewrite IH by done. by apply ResetFacts.resetChild_other.
Qed.

Lemma resetChild_rest (w : World) (c : ObjId) :
  arrays (resetChild w c) = arrays w
  ∧ emitted (resetChild w c) = emitted w.
Proof. unfold resetChild. by repeat case_match. Qed.

(** X14. The reach of the Reset button among the nodes of the scene: a
    node that is not a child of the product group is left exactly as it
    was, the product group itself included, so that an AR placement survives
    a Reset; the draggable arrays are untouched and no transform is
    broadcast.  (The call of [fitCameraToScene] that ends the handler moves
    the camera and sets the targets of the orbit controls; neither is a node
    of the scene, and the statement says nothing of them.) *)
Theorem reset_touches_children_only (w : World) (a : App.t) (i : ObjId) :
  i ∉ children (obj w (App.productGroup a)) →
  let w' := resetButton_onclick w a in
  obj w' i = obj w i
  ∧ arrays w' = arrays w
  ∧ emitted w' = emitted w.
Proof.
  intros Hi w'. unfold w', resetButton_onclick.
  split; [by apply reset_fold_other|]. clear Hi w'.
  generalize (children (obj w (App.productGroup a))). intros l. revert w.
  induction l as [|d l IH]; intros w; [done|]. simpl.
  destruct (IH (resetChild w d)) as (H1 & H2).
  destruct (resetChild_rest w d) as (K1 & K2).
  by rewrite H1, H2, K1, K2.
Qed.

(** The product group of the session in which the blade was dragged. *)
Lemma reset_touches_children_only_witness :
  (App.productGroup displaced.2
     ∉ children (obj displaced.1 (App.productGroup displaced.2)))
  ∧ obj (resetButton_onclick displaced.1 displaced.2)
      (App.productGroup displaced.2)
    = obj displaced.1 (App.productGroup displaced.2).
Proof.
  assert (H : App.productGroup displaced.2
              ∉ children (obj displaced.1 (App.productGroup displaced.2))).
  { replace (children (obj displaced.1 (App.productGroup displaced.2)))
      with [8; 10] by (vm_compute; reflexivity).
    replace (App.productGroup displaced.2) with 1 by (vm_compute; reflexivity).
    apply (bool_decide_unpack _). vm_compute. reflexivity. }
  split; [exact H|].
  exact (proj1 (reset_touches_children_only displaced.1 displaced.2 _ H)).
Defined.

End RecentFacts.

(** ** Rotation by touch *)

Module TouchFacts.
Import TouchRotation.

Section Angle.

Variable atan2 : Qc → Qc → Qc.

Lemma step_mode (s : t) (e : Event) :
  isARMode (step atan2 s e) = isARMode s
  ∧ visible (step atan2 s e) = visible s.
Proof.
  destruct e as [ts|ts|ts|a]; simpl;
    unfold onTouchStart, onTouchMove, onTouchEnd, twist;
    repeat case_match; done.
Qed.

Lemma step_snapshot (s : t) (e : Event) :
  keepsSnapshot e = true →
  touchStartX (step atan2 s e) = touchStartX s
  ∧ initialRotationY (step atan2 s e) = initialRotationY s
  ∧ (isSingleTouchRotating s = true →
     isSingleTouchRotating (step atan2 s e) = true).
Proof.
  destruct e as [ts|ts|ts|a]; simpl; intros Hk;
    unfold onTouchStart, onTouchMove, onTouchEnd, twist;
    repeat case_match; simplify_eq/=; try done;
    try (by vm_compute in Hk);
    try (by rewrite bool_decide_true in Hk).
Qed.

Lemma run_snapshot (es : list Event) (s : t) :
  forallb keepsSnapshot es = true →
  isARMode (run atan2 es s) = isARMode s
  ∧ visible (run atan2 es s) = visible s
  ∧ touchStartX (run atan2 es s) = touchStartX s
  ∧ initialRotationY (run atan2 es s) = initialRotationY s
  ∧ (isSingleTouchRotating s = true →
     isSingleTouchRotating (run atan2 es s) = true).
Proof.
  revert s. induction es as [|e es IH]; intros s Hk; [done|].
  simpl in Hk. apply andb_true_iff in Hk as [He Hes].
  destruct (IH (step atan2 s e) Hes) as (H1 & H2 & H3 & H4 & H5).
  destruct (step_mode s e) as [M1 M2].
  destruct (step_snapshot s e He) as (S1 & S2 & S3).
  unfold run in *. simpl.
  rewrite H1, H2, H3, H4, M1, M2, S1, S2.
  refine (conj eq_refl (conj eq_refl (conj eq_refl (conj eq_refl _)))).
  intros Hs. by apply H5, S3.
Qed.

(** X15. In AR mode the one-finger rotation is measured from the snapshot taken
    at the one-finger [touchstart]: whatever happened since (a second
    finger put down, two-finger twists, moves, fingers lifted with one
    remaining, rotation buttons), a move with one finger at x sets
    [rotation.y] to the rotation of the snapshot plus 0.01 times the distance
    from the x of the [touchstart].  The rotations made in between are
    discarded, and a finger back at its starting x restores the rotation of
    the snapshot. *)
Theorem single_finger_rotation_from_snapshot (s : t) (t0 t1 : Touch)
    (es : list Event) :
  isARMode s = true →
  visible s = true →
  forallb keepsSnapshot es = true →
  let s' := run atan2 (TouchStart [t0] :: es ++ [TouchMove [t1]]) s in
  rotationY s'
  = (rotationY s + (clientX t1 - clientX t0) * rotationFactor)%Qc
  ∧ (clientX t1 = clientX t0 → rotationY s' = rotationY s).
Proof.
  intros Har Hv Hk s'.
  assert (H : rotationY s'
    = (rotationY s + (clientX t1 - clientX t0) * rotationFactor)%Qc).
  { unfold s', run. cbn [foldl]. rewrite foldl_app. cbn [foldl step].
    set (s1 := onTouchStart atan2 [t0] s).
    assert (K : isARMode s1 = true ∧ visible s1 = true
                ∧ touchStartX s1 = Some (clientX t0)
                ∧ initialRotationY s1 = rotationY s
                ∧ isSingleTouchRotating s1 = true).
    { unfold s1, onTouchStart. rewrite Har. done. }
    destruct K as (K1 & K2 & K3 & K4 & K5).
    destruct (run_snapshot es s1 Hk) as (H1 & H2 & H3 & H4 & H5).
    unfold run in *. unfold onTouchMove.
    rewrite H1, H2, H3, H4, H5, K1, K2, K3, K4 by done. done. }
  split; [done|]. intros E. rewrite H, E. ring.
Qed.

Lemma step_hidden (s : t) (e : Event) :
  visible s = false → isTouch e = true →
  rotationY (step atan2 s e) = rotationY s
  ∧ ∀ ts, (onTouchMove atan2 ts s).2 = false.
Proof.
  intros Hv He. split.
  - destruct e as [ts|ts|ts|a]; simpl; [| | |done];
      unfold onTouchStart, onTouchMove, onTouchEnd; rewrite ?Hv;
      repeat case_match; done.
  - intros ts. unfold onTouchMove. rewrite Hv. repeat case_match; done.
Qed.

(** X17. While the product group is hidden, as it is from the start of an AR
    session to the commit tap, no touch event turns it, and no
    [touchmove] is consumed. *)
Theorem hidden_product_not_turned (s : t) (es : list Event) :
  visible s = false →
  forallb isTouch es = true →
  rotationY (run atan2 es s) = rotationY s
  ∧ visible (run atan2 es s) = false
  ∧ ∀ ts, (onTouchMove atan2 ts (run atan2 es s)).2 = false.
Proof.
  revert s. induction es as [|e es IH]; intros s Hv Hes.
  { unfold run. cbn [foldl]. refine (conj eq_refl (conj Hv _)).
    apply (step_hidden s (TouchMove []) Hv eq_refl). }
  simpl in Hes. apply andb_true_iff in Hes as [He Hes].
  destruct (step_mode s e) as [_ M]. rewrite Hv in M.
  destruct (step_hidden s e Hv He) as [R _].
  destruct (IH (step atan2 s e) M Hes) as (H1 & H2 & H3).
  unfold run in *. cbn [foldl]. by rewrite H1, R.
Qed.

End Angle.

(** A twist of two fingers, then one finger lifted and the other moved: the
    rotation is that of the snapshot plus 0.01 times the distance moved. *)
Lemma single_finger_rotation_from_snapshot_witness :
  isARMode placed = true
  ∧ visible placed = true
  ∧ forallb keepsSnapshot twistThenLift = true
  ∧ rotationY
      (run slope (TouchStart [finger 10] :: twistThenLift
                    ++ [TouchMove [finger 110]]) placed)
    = (rotationY placed
       + (clientX (finger 110) - clientX (finger 10)) * rotationFactor)%Qc.
Proof.
  assert (H1 : isARMode placed = true) by reflexivity.
  assert (H2 : visible placed = true) by reflexivity.
  assert (H3 : forallb keepsSnapshot twistThenLift = true)
    by (vm_compute; reflexivity).
  split; [exact H1|]. split; [exact H2|]. split; [exact H3|].
  exact (proj1 (single_finger_rotation_from_snapshot slope placed
                  (finger 10) (finger 110) twistThenLift H1 H2 H3)).
Defined.

Lemma hidden_product_not_turned_witness :
  visible (mk true false (Q2Qc 1) None None (Q2Qc 0) false) = false
  ∧ forallb isTouch (TouchStart [finger 10] :: twistThenLift) = true
  ∧ rotationY (run slope (TouchStart [finger 10] :: twistThenLift)
                 (mk true false (Q2Qc 1) None None (Q2Qc 0) false))
    = Q2Qc 1.
Proof.
  assert (H1 : visible (mk true false (Q2Qc 1) None None (Q2Qc 0) false) = false)
    by reflexivity.
  assert (H2 : forallb isTouch (TouchStart [finger 10] :: twistThenLift) = true)
    by reflexivity.
  split; [exact H1|]. split; [exact H2|].
  exact (proj1 (hidden_product_not_turned slope _ _ H1 H2)).
Defined.

End TouchFacts.

(** ** The timers of the modal *)

Module ModalFacts.
Import Modal.

Lemma clearStored_empty (o : Overlay) (tm : gmap nat Timer) :
  (∀ id t, tm !! id = Some t → 0 < id ∧ remembered id t o) →
  (clearStored o tm).2 = ∅.
Proof.
  intros H. apply map_eq. intros id. rewrite lookup_empty.
  destruct ((clearStored o tm).2 !! id) as [t|] eqn:E; [exfalso|done].
  unfold clearStored, clearStoredInterval, clearStoredTimeout in E.
  destruct (_interval o) as [i|] eqn:Ei; [destruct (decide (i = 0))|];
    cbn [_timeout] in E;
    (destruct (_timeout o) as [j|] eqn:Ej; [destruct (decide (j = 0))|]);
    cbn [snd] in E;
    repeat match type of E with
           | delete _ _ !! _ = Some _ =>
               apply lookup_delete_Some in E as [? E]
           end;
    destruct (H id t E) as [Hpos Hr];
    destruct t as [left|k cb]; simpl in Hr; destruct_and?; simplify_eq; lia.
Qed.

Lemma tidy_empty (s : State) : 0 < nextTimer s → timers s = ∅ → tidy s.
Proof.
  intros Hn He. split; [done|]. intros id t. rewrite He, lookup_empty. done.
Qed.

Lemma tidy_remembered (s : State) (o : Overlay) :
  tidy s → modalOverlay s = Some o →
  ∀ id t, timers s !! id = Some t → 0 < id ∧ remembered id t o.
Proof.
  intros [_ H] Ho id t Ht. destruct (H id t Ht) as ([Hp _] & o' & Ho' & _ & Hr).
  split; [done|]. congruence.
Qed.

Lemma tidy_no_overlay (s : State) :
  tidy s → modalOverlay s = None → timers s = ∅.
Proof.
  intros [_ H] Ho. apply map_eq. intros id. rewrite lookup_empty.
  destruct (timers s !! id) as [t|] eqn:E; [|done].
  destruct (H id t E) as (_ & o & Ho' & _). congruence.
Qed.

(** [hideModal] leaves no timer behind. *)
Lemma hideModal_clean (s : State) :
  tidy s →
  timers (hideModal s) = ∅
  ∧ nextTimer (hideModal s) = nextTimer s
  ∧ called (hideModal s) = called s
  ∧ (∀ o, modalOverlay s = Some o →
          ∃ o', modalOverlay (hideModal s) = Some o' ∧ display o' = Hidden).
Proof.
  intros Ht. unfold hideModal.
  destruct (modalOverlay s) as [o|] eqn:Ho.
  - set (o1 := mkOverlay Hidden _ _ _ _ _ _).
    pose proof (clearStored_empty o1 (timers s)) as E.
    assert (D : display (clearStored o1 (timers s)).1 = Hidden).
    { unfold clearStored, clearStoredInterval, clearStoredTimeout.
      repeat case_match; simplify_eq/=; done. }
    destruct (clearStored o1 (timers s)) as [o2 tm]; cbn [fst snd] in *.
    refine (conj _ (conj eq_refl (conj eq_refl _))).
    + apply E. intros id t Hid.
      destruct (tidy_remembered s o Ht Ho id t Hid) as [Hp Hr].
      split; [done|]. by destruct t.
    + intros ? _. by exists o2.
  - refine (conj (tidy_no_overlay s Ht Ho) (conj eq_refl (conj eq_refl _))).
    by intros.
Qed.

Lemma hideModal_tidy (s : State) : tidy s → tidy (hideModal s).
Proof.
  intros Ht. destruct (hideModal_clean s Ht) as (E & N & _).
  apply tidy_empty; [rewrite N; apply Ht | done].
Qed.

Lemma showModal_tidy (cfg : Config) (s : State) : tidy s → tidy (showModal cfg s).
Proof.
  intros Ht. unfold showModal.
  set (o := default newOverlay (modalOverlay s)).
  pose proof (clearStored_empty o (timers s)) as E.
  assert (Hr : ∀ id t, timers s !! id = Some t → 0 < id ∧ remembered id t o).
  { intros id t Hid. destruct Ht as [_ H].
    destruct (H id t Hid) as ([Hp _] & o' & Ho' & _ & Hr).
    split; [done|]. unfold o. by rewrite Ho'. }
  specialize (E Hr).
  destruct (clearStored o (timers s)) as [o1 tm]; cbn [snd] in E. subst tm.
  destruct Ht as [Hn _].
  destruct (countdown cfg) as [n|].
  - split; [simpl; lia|]. intros id t. cbn [timers nextTimer modalOverlay].
    intros [[<- <-]|[Hne Hl]]%lookup_insert_Some.
    + split; [lia|]. eexists. by split.
    + apply lookup_insert_Some in Hl as [[<- <-]|[_ Hl]].
      * split; [lia|]. eexists. by split.
      * by rewrite lookup_empty in Hl.
  - by apply tidy_empty.
Qed.

(** With no countdown [showModal] starts no timer. *)
Lemma showModal_plain_clean (cfg : Config) (s : State) :
  tidy s → countdown cfg = None → timers (showModal cfg s) = ∅.
Proof.
  intros Ht Hc. unfold showModal.
  set (o := default newOverlay (modalOverlay s)).
  pose proof (clearStored_empty o (timers s)) as E.
  assert (Hr : ∀ id t, timers s !! id = Some t → 0 < id ∧ remembered id t o).
  { intros id t Hid. destruct Ht as [_ H].
    destruct (H id t Hid) as ([Hp _] & o' & Ho' & _ & Hr).
    split; [done|]. unfold o. by rewrite Ho'. }
  specialize (E Hr).
  destruct (clearStored o (timers s)) as [o1 tm]; cbn [snd] in E.
  by rewrite Hc.
Qed.

Lemma runCall_tidy (s : State) (c : Call) : tidy s → tidy (runCall s c).
Proof.
  intros Ht. destruct c as [|msg|tag]; simpl.
  - by apply hideModal_tidy.
  - by apply showModal_tidy.
  - exact Ht.
Qed.

Lemma runCallback_tidy (cb : option Callback) (s : State) :
  tidy s → tidy (runCallback cb s).
Proof.
  destruct cb as [calls|]; [|done]. simpl. revert s.
  induction calls as [|c calls IH]; intros s Ht; [done|].
  simpl. by apply IH, runCall_tidy.
Qed.

(** A callback starts no timer. *)
Lemma runCallback_clean (cb : option Callback) (s : State) :
  tidy s → timers s = ∅ → timers (runCallback cb s) = ∅.
Proof.
  destruct cb as [calls|]; [|done]. simpl. revert s.
  induction calls as [|c calls IH]; intros s Ht He; [done|].
  simpl. apply IH; [by apply runCall_tidy|].
  destruct c as [|msg|tag]; simpl.
  - by apply hideModal_clean.
  - by apply showModal_plain_clean.
  - done.
Qed.

Lemma click_tidy (k : nat) (s : State) : tidy s → tidy (click k s).
Proof.
  intros Ht. unfold click. repeat case_match; try done.
  by apply hideModal_tidy, runCallback_tidy.
Qed.

Lemma tick_tidy (id : nat) (s : State) : tidy s → tidy (tick id s).
Proof.
  intros Ht. unfold tick.
  destruct (timers s !! id) as [[n|i cb]|] eqn:E; try done.
  destruct Ht as [Hn H]. split; [done|].
  intros id' t. cbn [timers nextTimer modalOverlay].
  intros [[<- <-]|[Hne Hl]]%lookup_insert_Some.
  - destruct (H id _ E) as (Hp & o & Ho & Hd & Hr).
    split; [done|]. rewrite Ho. eexists. split; [done|]. by split.
  - destruct (H id' t Hl) as (Hp & o & Ho & Hd & Hr).
    split; [done|]. rewrite Ho. eexists. split; [done|]. split; [done|].
    by destruct t.
Qed.

(** What is left when a timeout comes due and has cleared its interval. *)
Lemma fire_rest (id i : nat) (cb : option Callback) (s : State) :
  tidy s → timers s !! id = Some (Timeout i cb) →
  delete i (delete id (timers s)) = ∅.
Proof.
  intros [_ H] E. apply map_eq. intros j. rewrite lookup_empty.
  destruct (delete i (delete id (timers s)) !! j) as [t|] eqn:Ej; [|done].
  apply lookup_delete_Some in Ej as [Hji Ej].
  apply lookup_delete_Some in Ej as [Hjd Ej].
  destruct (H id _ E) as (_ & o & Ho & _ & Ht & Hi).
  destruct (H j t Ej) as (_ & o' & Ho' & _ & Hr).
  assert (o' = o) by congruence. subst o'.
  destruct t as [n|k c]; simpl in Hr; destruct_and?; congruence.
Qed.

Lemma fire_clean (id i : nat) (cb : option Callback) (s : State) :
  tidy s → timers s !! id = Some (Timeout i cb) →
  tidy (fire id s) ∧ timers (fire id s) = ∅.
Proof.
  intros Ht E. unfold fire. rewrite E, (fire_rest id i cb s Ht E).
  set (s1 := mkState _ ∅ _ _).
  assert (T1 : tidy s1) by (apply tidy_empty; [apply Ht | done]).
  split.
  - by apply runCallback_tidy, hideModal_tidy.
  - apply runCallback_clean; [by apply hideModal_tidy|].
    by apply hideModal_clean.
Qed.

Lemma fire_tidy (id : nat) (s : State) : tidy s → tidy (fire id s).
Proof.
  intros Ht. destruct (timers s !! id) as [[n|i cb]|] eqn:E.
  - unfold fire. by rewrite E.
  - by apply (fire_clean id i cb).
  - unfold fire. by rewrite E.
Qed.

Lemma step_tidy (s : State) (e : Event) : tidy s → tidy (step s e).
Proof.
  intros Ht. destruct e; simpl.
  - by apply showModal_tidy.
  - by apply showModal_tidy.
  - by apply hideModal_tidy.
  - by apply click_tidy.
  - by apply tick_tidy.
  - by apply fire_tidy.
Qed.

Lemma run_tidy (es : list Event) : tidy (run es).
Proof.
  unfold run. induction es as [|e es IH] using rev_ind.
  - apply tidy_empty; [simpl; lia | done].
  - rewrite foldl_app. simpl. by apply step_tidy.
Qed.

(** X18. No timer of the modal is ever orphaned.  After any sequence of calls
    of [showModal], [showConfirmationModal] and [hideModal], button clicks,
    and intervals and timeouts coming due, every active timer is one whose
    id the overlay remembers, and the overlay is shown; so at most one
    interval and one timeout are active, and none while the overlay is
    hidden. *)
Theorem modal_timers_remembered (es : list Event) (id : nat) (t : Timer) :
  timers (run es) !! id = Some t →
  ∃ o, modalOverlay (run es) = Some o
       ∧ display o = Flex
       ∧ match t with
         | Interval _ => _interval o = Some id
         | Timeout interval _ =>
             _timeout o = Some id ∧ _interval o = Some interval
         end.
Proof.
  intros Hid. destruct (run_tidy es) as [_ H].
  destruct (H id t Hid) as (_ & o & Ho & Hd & Hr).
  exists o. by refine (conj Ho (conj Hd _)).
Qed.

(** The countdown modal after one tick of its interval. *)
Lemma modal_timers_remembered_witness :
  timers (run [ShowModal countdownModal; Tick 1]) !! 2
  = Some (Timeout 1 (Some [Other 7]))
  ∧ ∃ o, modalOverlay (run [ShowModal countdownModal; Tick 1]) = Some o
         ∧ display o = Flex.
Proof.
  assert (H : timers (run [ShowModal countdownModal; Tick 1]) !! 2
              = Some (Timeout 1 (Some [Other 7])))
    by (vm_compute; reflexivity).
  split; [exact H|].
  destruct (modal_timers_remembered [ShowModal countdownModal; Tick 1] 2 _ H)
    as (o & Ho & Hd & _).
  exists o. split; [exact Ho | exact Hd].
Defined.

(** X19. Closing the modal cancels its timers.  In every state the module can
    reach, [hideModal], a click on a button of the overlay, and the
    auto-close timeout coming due each leave no active timer, whatever the
    callbacks of the button or of the timeout call; so the auto-close
    callback cannot run after the modal was closed, nor a second time. *)
Theorem closing_cancels_timers (es : list Event) :
  let s := run es in
  timers (hideModal s) = ∅
  ∧ (∀ o, modalOverlay s = Some o →
          ∃ o', modalOverlay (hideModal s) = Some o' ∧ display o' = Hidden)
  ∧ (∀ k o btn, modalOverlay s = Some o → buttonList o !! k = Some btn →
                timers (click k s) = ∅)
  ∧ (∀ id i cb, timers s !! id = Some (Timeout i cb) →
                timers (fire id s) = ∅
                ∧ ∀ id', fire id' (fire id s) = fire id s).
Proof.
  intros s. pose proof (run_tidy es) as Ht. fold s in Ht.
  destruct (hideModal_clean s Ht) as (H1 & _ & _ & H2).
  refine (conj H1 (conj H2 (conj _ _))).
  - intros k o btn Ho Hb. unfold click. rewrite Ho, Hb.
    by apply hideModal_clean, runCallback_tidy.
  - intros id i cb E. destruct (fire_clean id i cb s Ht E) as [_ Hc].
    split; [done|]. intros id'. unfold fire at 1. by rewrite Hc, lookup_empty.
Qed.

End ModalFacts.

(** ** The reticle across render frames *)

Module RenderFacts.
Import Three Store StoreFacts App RenderLoop Sessions.

Lemma update_effect (w : World) (m : InteractionManager.t) :
  let r := InteractionManager.update w m in
  (∀ j, visible (obj r.1.1 j) = visible (obj w j))
  ∧ (∀ j, live r.1.1 j ↔ live w j)
  ∧ InteractionManager.selectedObject r.1.2 = InteractionManager.selectedObject m
  ∧ (∀ j, InteractionManager.selectedObject m ≠ Some j → obj r.1.1 j = obj w j).
Proof.
  unfold InteractionManager.update.
  destruct (InteractionManager.selectedObject m) as [sel|] eqn:Hs;
    [destruct (InteractionManager.activeController m) as [c|];
     [destruct (InteractionManager.isXRSessionActive m);
      [destruct (InteractionManager.rotationMode m)|]|]|];
    cbn [fst snd]; rewrite ?Hs;
    (refine (conj _ (conj _ (conj _ _)));
     [ intros j; by rewrite ?(obj_update_field visible)
     | intros j; by rewrite ?live_update
     | done
     | intros j Hj; rewrite ?obj_update_ne; [done | intros ->; by apply Hj ..] ]).
Qed.

(** One frame: what it keeps of the app, and what it does to the nodes
    other than the reticle. *)
Lemma animate_keeps (frame : option (list Vector3)) (w : World) (a : t) :
  let s' := (animate frame w a).1 in
  isARMode s'.2 = isARMode a
  ∧ isPlacingProduct s'.2 = isPlacingProduct a
  ∧ hitTestSource s'.2 = hitTestSource a
  ∧ placementReticle s'.2 = placementReticle a
  ∧ (∀ j, live s'.1 j ↔ live w j)
  ∧ (∀ j, placementReticle a ≠ Some j →
          visible (obj s'.1 j) = visible (obj w j))
  ∧ (isARMode a && isPlacingProduct a = false →
     ∀ j, visible (obj s'.1 j) = visible (obj w j))
  ∧ (∀ sel, (∃ m, interactionManager s'.2 = Some m
                  ∧ InteractionManager.selectedObject m = Some sel)
            ↔ (∃ m, interactionManager a = Some m
                    ∧ InteractionManager.selectedObject m = Some sel)).
Proof.
  unfold animate.
  set (w0 := match isARMode a && isPlacingProduct a with true => _ | false => _ end).
  assert (L0 : ∀ j, live w0 j ↔ live w j).
  { intros j. unfold w0. repeat case_match; by rewrite ?live_update. }
  assert (V0 : ∀ j, placementReticle a ≠ Some j →
                    visible (obj w0 j) = visible (obj w j)).
  { intros j Hj. unfold w0. repeat case_match; try done;
      rewrite ?obj_update_ne; try (done || congruence). }
  assert (I0 : isARMode a && isPlacingProduct a = false → w0 = w).
  { intros E. unfold w0. by rewrite E. }
  destruct (interactionManager a) as [m|] eqn:Hm.
  - pose proof (update_effect w0 m) as (U1 & U2 & U3 & _).
    destruct (InteractionManager.update w0 m) as [[w1 m1] c];
      cbn [fst snd] in *.
    refine (conj eq_refl (conj eq_refl (conj eq_refl (conj eq_refl
      (conj _ (conj _ (conj _ _))))))).
    + intros j. by rewrite U2.
    + intros j Hj. by rewrite U1, V0.
    + intros E j. by rewrite U1, (I0 E).
    + intros sel. split; intros (m' & Hm' & Hsel).
      * cbn in Hm'. injection Hm' as <-. exists m. split; [done|].
        by rewrite <- U3.
      * injection Hm' as <-. exists m1. split; [done|]. by rewrite U3.
  - cbn [fst snd].
    refine (conj eq_refl (conj eq_refl (conj eq_refl (conj eq_refl
      (conj L0 (conj V0 (conj _ _))))))).
    + intros E j. by rewrite (I0 E).
    + intros sel. by rewrite Hm.
Qed.

(** X20. Outside placement mode, that is before an AR session and from the
    commit tap to Place Again, no render frame shows or hides a node,
    whatever the hit tests return: the reticle hidden by the commit tap stays
    hidden, and the product group stays shown. *)
Theorem frames_outside_placement_keep_visibility
    (frames : list (option (list Vector3))) (w : World) (a : t) :
  isARMode a && isPlacingProduct a = false →
  let s' := animateRun frames (w, a) in
  isARMode s'.2 && isPlacingProduct s'.2 = false
  ∧ ∀ j, visible (obj s'.1 j) = visible (obj w j) ∧ (live s'.1 j ↔ live w j).
Proof.
  revert w a. induction frames as [|f frames IH]; intros w a E; [done|].
  unfold animateRun. cbn [foldl fst snd].
  destruct (animate_keeps f w a) as (H1 & H2 & _ & _ & HL & _ & HV & _).
  specialize (HV E).
  destruct (animate f w a).1 as [w1 a1] eqn:E1; cbn [fst snd] in *.
  destruct (IH w1 a1) as [K1 K2]; [by rewrite H1, H2|].
  unfold animateRun in K1, K2. split; [exact K1|].
  intros j. destruct (K2 j) as [K3 K4]. split.
  - by rewrite K3.
  - by rewrite K4.
Qed.

(** The frames after the first tap of the concrete AR session: the
    reticle (node 10) stays hidden. *)
Lemma frames_outside_placement_keep_visibility_witness :
  ∃ s, placedOnce = Some s
       ∧ isARMode s.2 && isPlacingProduct s.2 = false
       ∧ visible (obj (animateRun
                         [Some [mkVector3 (Q2Qc 2) (Q2Qc 1) (Q2Qc 0)]; None]
                         (s.1, s.2)).1 10)
         = visible (obj s.1 10).
Proof.
  destruct placedOnce as [s|] eqn:E; [|vm_compute in E; discriminate E].
  exists s. split; [reflexivity|].
  assert (H : isARMode s.2 && isPlacingProduct s.2 = false).
  { vm_compute in E. injection E as <-. reflexivity. }
  split; [exact H|].
  exact (proj1 (proj2 (frames_outside_placement_keep_visibility
                         [Some [mkVector3 (Q2Qc 2) (Q2Qc 1) (Q2Qc 0)]; None]
                         s.1 s.2 H) 10)).
Defined.

Lemma animateRun_keeps (frames : list (option (list Vector3))) (w : World)
    (a : t) :
  let s' := animateRun frames (w, a) in
  isARMode s'.2 = isARMode a
  ∧ isPlacingProduct s'.2 = isPlacingProduct a
  ∧ hitTestSource s'.2 = hitTestSource a
  ∧ placementReticle s'.2 = placementReticle a
  ∧ (∀ j, live s'.1 j ↔ live w j)
  ∧ (∀ j, placementReticle a ≠ Some j →
          visible (obj s'.1 j) = visible (obj w j))
  ∧ (∀ sel, (∃ m, interactionManager s'.2 = Some m
                  ∧ InteractionManager.selectedObject m = Some sel)
            ↔ (∃ m, interactionManager a = Some m
                    ∧ InteractionManager.selectedObject m = Some sel)).
Proof.
  revert w a. induction frames as [|f frames IH]; intros w a; [done|].
  unfold animateRun. cbn [foldl fst snd].
  destruct (animate_keeps f w a) as (H1 & H2 & H3 & H4 & H5 & H6 & _ & H7).
  destruct (animate f w a).1 as [w1 a1]; cbn [fst snd] in *.
  destruct (IH w1 a1) as (K1 & K2 & K3 & K4 & K5 & K6 & K7).
  unfold animateRun in *.
  rewrite K1, K2, K3, K4, H1, H2, H3, H4.
  refine (conj eq_refl (conj eq_refl (conj eq_refl (conj eq_refl
    (conj _ (conj _ _)))))).
  - intros j. by rewrite K5.
  - intros j Hj. rewrite K6 by by rewrite H4. by apply H6.
  - intros sel. by rewrite K7.
Qed.

(** One XR frame while the product awaits placement. *)
Lemma animate_reticle (results : list Vector3) (w : World) (a : t) (r : ObjId) :
  isARMode a = true →
  isPlacingProduct a = true →
  is_Some (hitTestSource a) →
  placementReticle a = Some r →
  live w r →
  (∀ m, interactionManager a = Some m →
        InteractionManager.selectedObject m ≠ Some r) →
  let s' := (animate (Some results) w a).1 in
  match results with
  | pose :: _ =>
      visible (obj s'.1 r) = true
      ∧ position (obj s'.1 r) = mkVector3 (x pose) (y pose) (z pose)
  | [] => visible (obj s'.1 r) = false
  end.
Proof.
  intros Har Hpl [src Hs] Hr Hl Hsel. unfold animate.
  rewrite Har, Hpl, Hs, Hr. cbn [andb].
  destruct results as [|pose rest].
  - set (w0 := update_obj r (with_visible false) w).
    assert (R0 : visible (obj w0 r) = false)
      by (unfold w0; by rewrite obj_update_eq).
    clearbody w0.
    destruct (interactionManager a) as [m|] eqn:Hm; [|done].
    pose proof (update_effect w0 m) as (_ & _ & _ & U).
    specialize (U r (Hsel m eq_refl)).
    destruct (InteractionManager.update w0 m) as [[w1 m1] c]; cbn [fst snd] in *.
    by rewrite U.
  - set (w0 := update_obj r (with_position _) _).
    assert (R0 : visible (obj w0 r) = true
                 ∧ position (obj w0 r) = mkVector3 (x pose) (y pose) (z pose)).
    { unfold w0. rewrite !obj_update_eq by (rewrite ?live_update; done). done. }
    clearbody w0.
    destruct (interactionManager a) as [m|] eqn:Hm; [|done].
    pose proof (update_effect w0 m) as (_ & _ & _ & U).
    specialize (U r (Hsel m eq_refl)).
    destruct (InteractionManager.update w0 m) as [[w1 m1] c]; cbn [fst snd] in *.
    by rewrite U.
Qed.

(** X21. While the product awaits placement in an AR session, the reticle
    shows the last hit test: after an XR frame with hits it is visible at
    the first hit, after an XR frame without hits it is hidden, whatever the
    frames before; no other node is shown or hidden by the frames. *)
Theorem reticle_tracks_hits (frames : list (option (list Vector3)))
    (results : list Vector3) (w : World) (a : t) (r : ObjId) :
  isARMode a = true →
  isPlacingProduct a = true →
  is_Some (hitTestSource a) →
  placementReticle a = Some r →
  live w r →
  (∀ m, interactionManager a = Some m →
        InteractionManager.selectedObject m ≠ Some r) →
  let s' := animateRun (frames ++ [Some results]) (w, a) in
  match results with
  | pose :: _ =>
      visible (obj s'.1 r) = true
      ∧ position (obj s'.1 r) = mkVector3 (x pose) (y pose) (z pose)
  | [] => visible (obj s'.1 r) = false
  end
  ∧ ∀ j, j ≠ r → visible (obj s'.1 j) = visible (obj w j).
Proof.
  intros Har Hpl Hs Hr Hl Hsel s'.
  split.
  - unfold s', animateRun. rewrite foldl_app. cbn [foldl].
    fold (animateRun frames (w, a)).
    destruct (animateRun_keeps frames w a) as (K1 & K2 & K3 & K4 & K5 & _ & K7).
    apply animate_reticle.
    + by rewrite K1.
    + by rewrite K2.
    + by rewrite K3.
    + by rewrite K4.
    + by apply K5.
    + intros m Hm Hm'.
      destruct (proj1 (K7 r)) as (m0 & Hm0 & Hs0); [by exists m|].
      by apply (Hsel m0).
  - intros j Hj.
    destruct (animateRun_keeps (frames ++ [Some results]) w a)
      as (_ & _ & _ & _ & _ & K6 & _).
    apply K6. rewrite Hr. congruence.
Qed.

(** The concrete AR session before the first tap: a frame without hits,
    a frame that is no XR frame, and a frame with a hit at (2, 1, 0). *)
Lemma reticle_tracks_hits_witness :
  isARMode awaitingPlacement.2 = true
  ∧ isPlacingProduct awaitingPlacement.2 = true
  ∧ is_Some (hitTestSource awaitingPlacement.2)
  ∧ placementReticle awaitingPlacement.2 = Some 10
  ∧ live awaitingPlacement.1 10
  ∧ visible (obj (animateRun
                    ([Some []; None]
                       ++ [Some [mkVector3 (Q2Qc 2) (Q2Qc 1) (Q2Qc 0)]])
                    (awaitingPlacement.1, awaitingPlacement.2)).1 10) = true.
Proof.
  assert (H1 : isARMode awaitingPlacement.2 = true) by (vm_compute; reflexivity).
  assert (H2 : isPlacingProduct awaitingPlacement.2 = true)
    by (vm_compute; reflexivity).
  assert (H3 : is_Some (hitTestSource awaitingPlacement.2))
    by (eexists; vm_compute; reflexivity).
  assert (H4 : placementReticle awaitingPlacement.2 = Some 10)
    by (vm_compute; reflexivity).
  assert (H5 : live awaitingPlacement.1 10)
    by (eexists; vm_compute; reflexivity).
  assert (H6 : ∀ m, interactionManager awaitingPlacement.2 = Some m →
                    InteractionManager.selectedObject m ≠ Some 10).
  { intros m Hm. vm_compute in Hm. injection Hm as <-. discriminate. }
  split; [exact H1|]. split; [exact H2|]. split; [exact H3|].
  split; [exact H4|]. split; [exact H5|].
  exact (proj1 (proj1 (reticle_tracks_hits [Some []; None]
                         [mkVector3 (Q2Qc 2) (Q2Qc 1) (Q2Qc 0)]
                         awaitingPlacement.1 awaitingPlacement.2 10
                         H1 H2 H3 H4 H5 H6))).
Defined.

End RenderFacts.

(** ** The colour picker *)

Module MaterialFacts.
Import UiControls Materials.

Section Picker.

Variable getHexString : Color → string.
Variable parseColor : string → Color.
Variable capitalize : string → string.

#[local] Abbreviation visit := (Materials.visit getHexString capitalize).
#[local] Abbreviation captured := (Materials.captured getHexString).

Lemma truthy_hex (c : Color) : truthy (Some ("#" +:+ getHexString c)) = true.
Proof. done. Qed.

Lemma mapGet_mapSet (k k' : string) (v : MaterialData) (m : MaterialMap) :
  mapGet k (mapSet k' v m) = if decide (k' = k) then Some v else mapGet k m.
Proof.
  induction m as [|[k0 v0] m IH]; simpl.
  - done.
  - destruct (decide (k0 = k')) as [->|Hne]; simpl.
    + by destruct (decide (k' = k)).
    + rewrite IH. destruct (decide (k0 = k)) as [->|]; [|done].
      by rewrite decide_False.
Qed.

(** The loop of [getMaterialsByName] is one loop over the visits. *)
Lemma getMaterialsByName_visits (models : list (string * Node))
    (s : MaterialStore * MaterialMap) :
  foldl (λ s entry, foldl (visit entry.1) s (traversed entry.2)) s models
  = foldl (λ s v, visit v.1 s v.2) s (visits models).
Proof.
  revert s. induction models as [|[nm tree] models IH]; intros s; [done|].
  unfold visits. rewrite bind_cons, foldl_app. cbn [foldl fst snd].
  rewrite IH. f_equal. generalize (traversed tree). intros l. revert s.
  induction l as [|r l IHl]; intros s; [done|]. simpl. apply IHl.
Qed.

Lemma captured_refl (m : Material) : captured m m.
Proof. unfold Materials.captured. auto. Qed.

Lemma captured_trans (m0 m1 m2 : Material) :
  captured m0 m1 → captured m1 m2 → captured m0 m2.
Proof.
  intros (N1 & U1 & C1 & O1) (N2 & U2 & C2 & O2).
  refine (conj _ (conj _ (conj _ _))); [congruence..|].
  destruct O2 as [O2|[T2 O2]].
  - rewrite O2. exact O1.
  - destruct O1 as [O1|[T1 O1]].
    + right. rewrite <- O1, <- C1. done.
    + rewrite O1 in T2. discriminate T2.
Qed.

Lemma visit_effect (nm : string) (s : MaterialStore * MaterialMap) (r : MatRef) :
  let s' := visit nm s r in
  (∀ j m0, s.1 !! j = Some m0 → ∃ m, s'.1 !! j = Some m ∧ captured m0 m)
  ∧ (∀ j, s.1 !! j = None → s'.1 !! j = None)
  ∧ (∀ k, mapGet k s'.2
          = if decide (keyOf capitalize s.1 (nm, r) = Some k)
            then Some (mkMaterialData nm r) else mapGet k s.2)
  ∧ (∀ m, s.1 !! r = Some m →
          ∃ m', s'.1 !! r = Some m' ∧ truthy (originalColor m') = true).
Proof.
  unfold Materials.visit, keyOf. cbn [fst snd].
  destruct (s.1 !! r) as [m|] eqn:Hr; cbn [fst snd fmap option_fmap option_map].
  - assert (K : ∀ k, mapGet k (mapSet (fullName capitalize nm m)
                                 (mkMaterialData nm r) s.2)
                     = if decide (Some (fullName capitalize nm m) = Some k)
                       then Some (mkMaterialData nm r) else mapGet k s.2).
    { intros k. rewrite mapGet_mapSet.
      destruct (decide (fullName capitalize nm m = k)) as [->|Hne].
      - by rewrite decide_True.
      - rewrite decide_False; [done|]. congruence. }
    destruct (truthy (originalColor m)) eqn:T; cbv zeta; cbn [fst snd].
    + refine (conj _ (conj _ (conj K _))).
      * intros j m0 Hj. exists m0. split; [done | apply captured_refl].
      * done.
      * intros m' Hm'. exists m. split; [done|]. done.
    + refine (conj _ (conj _ (conj K _))).
      * intros j m0 Hj. destruct (decide (j = r)) as [->|Hne].
        -- rewrite lookup_insert_eq. eexists. split; [done|].
           assert (m0 = m) by congruence. subst m0.
           exact (conj eq_refl (conj eq_refl (conj eq_refl
                    (or_intror (conj T eq_refl))))).
        -- rewrite lookup_insert_ne by done. exists m0.
           split; [done | apply captured_refl].
      * intros j Hj. rewrite lookup_insert_ne; [done|]. intros ->. congruence.
      * intros m' Hm'. rewrite lookup_insert_eq. eexists. split; [done|].
        apply truthy_hex.
  - refine (conj _ (conj _ (conj _ _))).
    + intros j m0 Hj. exists m0. split; [done | apply captured_refl].
    + done.
    + intros k. by rewrite decide_False.
    + intros m Hm. congruence.
Qed.

Lemma captured_key (st st' : MaterialStore) (v : string * MatRef) :
  (∀ j m0, st !! j = Some m0 → ∃ m, st' !! j = Some m ∧ captured m0 m) →
  (∀ j, st !! j = None → st' !! j = None) →
  keyOf capitalize st' v = keyOf capitalize st v.
Proof.
  intros H1 H2. unfold keyOf. destruct (st !! v.2) as [m0|] eqn:E.
  - destruct (H1 _ _ E) as (m & -> & N & U & _). simpl.
    unfold fullName. by rewrite N, U.
  - by rewrite (H2 _ E).
Qed.

(** The store and the map after the visits [vs]. *)
Lemma visits_effect (vs : list (string * MatRef))
    (s : MaterialStore * MaterialMap) :
  let s' := foldl (λ s v, visit v.1 s v.2) s vs in
  (∀ j m0, s.1 !! j = Some m0 → ∃ m, s'.1 !! j = Some m ∧ captured m0 m)
  ∧ (∀ j, s.1 !! j = None → s'.1 !! j = None)
  ∧ (∀ k, mapGet k s'.2
          = match last (filter (λ v, keyOf capitalize s.1 v = Some k) vs) with
            | Some v => Some (mkMaterialData v.1 v.2)
            | None => mapGet k s.2
            end)
  ∧ (∀ v m, v ∈ vs → s.1 !! v.2 = Some m →
            ∃ m', s'.1 !! v.2 = Some m' ∧ truthy (originalColor m') = true).
Proof.
  induction vs as [|v vs IH] using rev_ind.
  { simpl. refine (conj _ (conj _ (conj _ _))); try done.
    - intros j m0 Hj. exists m0. split; [done | apply captured_refl].
    - by intros v m ?%elem_of_nil. }
  rewrite foldl_app. cbn [foldl].
  set (s1 := foldl _ s vs) in *. cbv zeta in IH.
  destruct IH as (A1 & A2 & A3 & A4).
  destruct (visit_effect v.1 s1 v.2) as (B1 & B2 & B3 & B4).
  refine (conj _ (conj _ (conj _ _))).
  - intros j m0 Hj. destruct (A1 j m0 Hj) as (m1 & Hm1 & C1).
    destruct (B1 j m1 Hm1) as (m2 & Hm2 & C2).
    exists m2. split; [done | by eapply captured_trans].
  - intros j Hj. by apply B2, A2.
  - intros k. rewrite B3, filter_app, A3.
    replace (s1.1, v.2) with (s1.1, v.2) by done.
    assert (K : keyOf capitalize s1.1 (v.1, v.2) = keyOf capitalize s.1 v).
    { rewrite <- (captured_key s.1 s1.1 v A1 A2). by destruct v. }
    rewrite K. rewrite filter_cons, filter_nil.
    destruct (decide (keyOf capitalize s.1 v = Some k)) as [E|E].
    + by rewrite last_snoc.
    + by rewrite app_nil_r.
  - intros u m [Hu| ->%list_elem_of_singleton]%elem_of_app Hm.
    + destruct (A4 u m Hu Hm) as (m1 & Hm1 & T1).
      destruct (B1 _ _ Hm1) as (m2 & Hm2 & _ & _ & _ & O).
      exists m2. split; [done|].
      destruct O as [-> | [T _]]; [done | congruence].
    + destruct (A1 _ _ Hm) as (m1 & Hm1 & _). by apply (B4 m1).
Qed.

#[local] Abbreviation showMaterialColorPicker :=
  (Materials.showMaterialColorPicker getHexString parseColor capitalize).
#[local] Abbreviation pickerRun :=
  (Materials.pickerRun getHexString parseColor capitalize).

(** The store and the map that the picker works with. *)
Lemma opened (models : list (string * Node)) (st : gmap MatRef Material) :
  let s' := Materials.getMaterialsByName getHexString capitalize models st in
  (∀ j m0, st !! j = Some m0 → ∃ m, s'.1 !! j = Some m ∧ captured m0 m)
  ∧ (∀ k, mapGet k s'.2
          = (λ v, mkMaterialData v.1 v.2)
              <$> last (filter (λ v, keyOf capitalize st v = Some k)
                          (visits models)))
  ∧ (∀ v m, v ∈ visits models → st !! v.2 = Some m →
            ∃ m', s'.1 !! v.2 = Some m' ∧ truthy (originalColor m') = true).
Proof.
  unfold Materials.getMaterialsByName. rewrite getMaterialsByName_visits.
  destruct (visits_effect (visits models) (st, [])) as (A1 & _ & A3 & A4).
  cbn [fst snd] in *. refine (conj A1 (conj _ A4)).
  intros k. rewrite A3. by destruct (last _).
Qed.

(** One session of the picker, for a material [r] that had no original
    colour when it was [m0]. *)
Lemma session_step (models : list (string * Node)) (choice : Picked)
    (st : gmap MatRef Material) (ls : LocalStorage) (r : MatRef)
    (m0 m : Material) :
  truthy (originalColor m0) = false →
  st !! r = Some m →
  name m = name m0 ∧ uuid m = uuid m0 →
  (originalColor m = originalColor m0 ∧ color m = color m0)
  ∨ originalColor m = Some ("#" +:+ getHexString (color m0)) →
  let s' := showMaterialColorPicker models choice (st, ls) in
  ∃ m', s'.1 !! r = Some m'
        ∧ (name m' = name m0 ∧ uuid m' = uuid m0)
        ∧ ((originalColor m' = originalColor m0 ∧ color m' = color m0)
           ∨ originalColor m' = Some ("#" +:+ getHexString (color m0)))
        ∧ (r ∈ (visits models).*2 ∨
           originalColor m = Some ("#" +:+ getHexString (color m0)) →
           originalColor m' = Some ("#" +:+ getHexString (color m0))).
Proof.
  intros T0 Hr [N U] J. unfold Materials.showMaterialColorPicker. cbn [fst snd].
  destruct (opened models st) as (A1 & A3 & A4).
  destruct (Materials.getMaterialsByName _ _ models st) as [st1 mp];
    cbn [fst snd] in *.
  destruct (A1 r m Hr) as (m1 & Hm1 & N1 & U1 & C1 & O1).
  assert (J1 : (originalColor m1 = originalColor m0 ∧ color m1 = color m0)
               ∨ originalColor m1 = Some ("#" +:+ getHexString (color m0))).
  { destruct J as [[Jo Jc]|Jo], O1 as [O1|[T1 O1]].
    - left. split; congruence.
    - right. rewrite O1. by rewrite Jc.
    - right. congruence.
    - rewrite Jo in T1. discriminate T1. }
  assert (V1 : truthy (originalColor m1) = true →
               originalColor m1 = Some ("#" +:+ getHexString (color m0))).
  { intros T1. destruct J1 as [[Jo _]|Jo]; [|done].
    rewrite Jo, T0 in T1. discriminate T1. }
  assert (K1 : r ∈ (visits models).*2 ∨
               originalColor m = Some ("#" +:+ getHexString (color m0)) →
               originalColor m1 = Some ("#" +:+ getHexString (color m0))).
  { intros [Hv|Jo].
    - apply list_elem_of_fmap in Hv as (v & -> & Hv).
      destruct (A4 v m Hv Hr) as (m' & Hm' & T'). apply V1. congruence.
    - destruct O1 as [O1|[T1 O1]]; [congruence|].
      rewrite Jo in T1. discriminate T1. }
  assert (Keep : ∃ m', st1 !! r = Some m'
        ∧ (name m' = name m0 ∧ uuid m' = uuid m0)
        ∧ ((originalColor m' = originalColor m0 ∧ color m' = color m0)
           ∨ originalColor m' = Some ("#" +:+ getHexString (color m0)))
        ∧ (r ∈ (visits models).*2 ∨
           originalColor m = Some ("#" +:+ getHexString (color m0)) →
           originalColor m' = Some ("#" +:+ getHexString (color m0)))).
  { exists m1. refine (conj Hm1 (conj _ (conj J1 K1))). split; congruence. }
  destruct mp as [|e mp]; [exact Keep|].
  destruct choice as [|key c]; [exact Keep|]. cbn [fst snd].
  unfold Materials.applyColorToMaterial.
  specialize (A3 key).
  destruct (mapGet key (e :: mp)) as [d|]; [|exact Keep].
  destruct (decide (material d = r)) as [E|E]; [|by rewrite lookup_alter_ne].
  rewrite E, lookup_alter_eq, Hm1. cbn [fmap option_fmap option_map].
  eexists. split; [done|]. cbn [name uuid color originalColor set_color].
  assert (T1 : truthy (originalColor m1) = true).
  { destruct (last _) as [v|] eqn:El; [|discriminate A3].
    injection A3 as ->. cbn [material] in E.
    apply last_Some_elem_of, list_elem_of_filter in El as [Hk Hv].
    destruct (A4 v m Hv) as (m' & Hm' & T'); [by rewrite E|].
    rewrite E in Hm'. congruence. }
  refine (conj _ (conj (or_intror (V1 T1)) (λ _, V1 T1))). split; congruence.
Qed.

(** X22. The original colour that the picker shows for a material is the
    colour the material had when the picker first met it.  For a material
    without an original colour: after any number of picker sessions, on
    whatever models, cancelled or applied with whatever key and colour, the
    material keeps its name and uuid, and either it has neither been recorded
    nor recoloured, or its original colour is ["#"] and the hex string of
    the colour it had at the start; the latter once a session has visited
    it. *)
Theorem original_color_is_loaded_color
    (sessions : list (list (string * Node) * Picked))
    (st : gmap MatRef Material) (ls : LocalStorage) (r : MatRef)
    (m0 : Material) :
  st !! r = Some m0 →
  truthy (originalColor m0) = false →
  let s' := pickerRun sessions (st, ls) in
  ∃ m, s'.1 !! r = Some m
       ∧ name m = name m0 ∧ uuid m = uuid m0
       ∧ ((originalColor m = originalColor m0 ∧ color m = color m0)
          ∨ originalColor m = Some ("#" +:+ getHexString (color m0)))
       ∧ ((∃ session, session ∈ sessions ∧ r ∈ (visits session.1).*2) →
          originalColor m = Some ("#" +:+ getHexString (color m0))).
Proof.
  intros Hr T0.
  induction sessions as [|[models choice] sessions IH] using rev_ind.
  { exists m0. refine (conj Hr (conj eq_refl (conj eq_refl (conj _ _)))).
    - by left.
    - intros (x & Hx%elem_of_nil & _). done. }
  cbv zeta in *. unfold Materials.pickerRun in *. rewrite foldl_app. cbn [foldl fst snd].
  destruct IH as (m & Hm & N & U & J & V).
  destruct (foldl _ (st, ls) sessions) as [st1 ls1]; cbn [fst snd] in *.
  destruct (session_step models choice st1 ls1 r m0 m T0 Hm (conj N U) J)
    as (m' & Hm' & [N' U'] & J' & V').
  exists m'. refine (conj Hm' (conj N' (conj U' (conj J' _)))).
  intros (x & [Hx| ->%list_elem_of_singleton]%elem_of_app & Hv).
  - apply V'. right. apply V. by exists x.
  - apply V'. by left.
Qed.

(** X23. Apply recolours one material: that of the last visit filed under
    the selected key.  Every other material keeps its colour, so of two
    materials filed under the same key (the same name in the same model)
    the one visited first cannot be recoloured; and the colour is added to
    the recent colours. *)
Theorem apply_recolours_last_of_key (models : list (string * Node))
    (key colorValue : string) (st : gmap MatRef Material) (ls : LocalStorage)
    (r : MatRef) (m0 : Material) :
  st !! r = Some m0 →
  let s' := showMaterialColorPicker models (Applied key colorValue) (st, ls) in
  ∃ m, s'.1 !! r = Some m
       ∧ color m = (if decide (target capitalize st models key = Some r)
                    then parseColor colorValue else color m0)
       ∧ (is_Some (target capitalize st models key) →
          s'.2 = addRecentColor colorValue ls).
Proof.
  intros Hr. unfold Materials.showMaterialColorPicker, target. cbn [fst snd].
  destruct (opened models st) as (A1 & A3 & _).
  destruct (Materials.getMaterialsByName _ _ models st) as [st1 mp];
    cbn [fst snd] in *.
  destruct (A1 r m0 Hr) as (m1 & Hm1 & _ & _ & C1 & _).
  specialize (A3 key).
  destruct (last _) as [v|] eqn:El; cbn [fmap option_fmap option_map] in *.
  - destruct mp as [|e mp]; [discriminate A3|]. cbn [fst snd].
    unfold Materials.applyColorToMaterial. rewrite A3. cbn [material].
    destruct (decide (v.2 = r)) as [E|E].
    + rewrite E, lookup_alter_eq, Hm1, decide_True by done.
      eexists. split; [done|]. split; [done|]. done.
    + rewrite lookup_alter_ne, decide_False by congruence.
      exists m1. split; [done|]. split; [done|]. done.
  - rewrite decide_False by done.
    assert (K : (match mp with
                 | [] => (st1, ls)
                 | _ :: _ =>
                     (Materials.applyColorToMaterial parseColor mp key
                        colorValue st1, addRecentColor colorValue ls)
                 end).1 = st1).
    { destruct mp; [done|]. cbn [fst].
      unfold Materials.applyColorToMaterial. by rewrite A3. }
    rewrite K. exists m1. split; [done|]. split; [done|].
    intros [? ?]. done.
Qed.

End Picker.

(** The knife's first material, recorded by a cancelled session and
    recoloured by the next. *)
Lemma original_color_is_loaded_color_witness :
  knifeMaterials !! 1 = Some (steel (Q2Qc 0))
  ∧ truthy (originalColor (steel (Q2Qc 0))) = false
  ∧ ∃ m, (Materials.pickerRun hexOf colorOf asIs
            [([("knife", knife)], Cancelled);
             ([("knife", knife)], Applied "steel - knife" "#ffffff")]
            (knifeMaterials, None)).1 !! 1 = Some m
         ∧ originalColor m = Some "#000000".
Proof.
  assert (H1 : knifeMaterials !! 1 = Some (steel (Q2Qc 0))) by reflexivity.
  assert (H2 : truthy (originalColor (steel (Q2Qc 0))) = false) by reflexivity.
  split; [exact H1|]. split; [exact H2|].
  destruct (original_color_is_loaded_color hexOf colorOf asIs
              [([("knife", knife)], Cancelled);
               ([("knife", knife)], Applied "steel - knife" "#ffffff")]
              knifeMaterials None 1 _ H1 H2) as (m & Hm & _ & _ & _ & V).
  exists m. split; [exact Hm|].
  etrans; [apply V|reflexivity].
  exists ([("knife", knife)], Cancelled). split.
  - apply list_elem_of_here.
  - apply (bool_decide_unpack _). vm_compute. reflexivity.
Defined.

(** The knife's second material has the name of the first and is visited
    before the last visit of the first: Apply leaves its colour. *)
Lemma apply_recolours_last_of_key_witness :
  knifeMaterials !! 2 = Some (steel (Q2Qc 1))
  ∧ ∃ m, (Materials.showMaterialColorPicker hexOf colorOf asIs
            [("knife", knife)] (Applied "steel - knife" "#000000")
            (knifeMaterials, None)).1 !! 2 = Some m
         ∧ color m = color (steel (Q2Qc 1)).
Proof.
  assert (H : knifeMaterials !! 2 = Some (steel (Q2Qc 1))) by reflexivity.
  split; [exact H|].
  destruct (apply_recolours_last_of_key hexOf colorOf asIs [("knife", knife)]
              "steel - knife" "#000000" knifeMaterials None 2 _ H)
    as (m & Hm & Hc & _).
  exists m. split; [exact Hm|].
  rewrite Hc. vm_compute. reflexivity.
Defined.

End MaterialFacts.

(** ** Uploads *)

Module UploadFacts.
Import Three Store StoreFacts App Attachment RegistryFacts ReloadFacts Upload.

Lemma skip_length (s : string) : skip (String.length s) s = "".
Proof. induction s as [|c s IH]; [done | apply IH]. Qed.

Lemma prefix_refl (s : string) : String.prefix s s = true.
Proof.
  induction s as [|c s IH]; [done|]. simpl.
  by destruct (Ascii.ascii_dec c c).
Qed.

(** A pattern that starts with a dot is not found in front of a string
    that starts otherwise. *)
Lemma replaceFirst_other (rest s : string) (c : Ascii.ascii) :
  c ≠ dot →
  replaceFirst (String dot rest) (String c s)
  = String c (replaceFirst (String dot rest) s).
Proof.
  intros Hc. cbn [replaceFirst String.prefix].
  destruct (Ascii.ascii_dec dot c) as [E|_]; [by subst c | done].
Qed.

Lemma replaceFirst_suffix (rest base : string) :
  hasChar dot base = false →
  replaceFirst (String dot rest) (base +:+ String dot rest) = base.
Proof.
  induction base as [|c base IH]; intros Hd.
  - change ("" +:+ String dot rest) with (String dot rest).
    assert (P : String.prefix (String dot rest) (String dot rest) = true)
      by apply prefix_refl.
    cbn [replaceFirst]. rewrite P.
    apply (skip_length (String dot rest)).
  - simpl in Hd. destruct (Ascii.ascii_dec c dot) as [|Hc]; [done|].
    change (String c base +:+ String dot rest)
      with (String c (base +:+ String dot rest)).
    rewrite replaceFirst_other by done. by rewrite IH.
Qed.

Lemma replaceFirst_absent (rest s : string) :
  hasChar dot s = false → replaceFirst (String dot rest) s = s.
Proof.
  induction s as [|c s IH]; intros Hd; [done|].
  simpl in Hd. destruct (Ascii.ascii_dec c dot) as [|Hc]; [done|].
  rewrite replaceFirst_other by done. by rewrite IH.
Qed.

Lemma replaceFirst_glb_gltf (base : string) :
  hasChar dot base = false →
  replaceFirst ".glb" (base +:+ ".gltf") = base +:+ ".gltf".
Proof.
  induction base as [|c base IH]; intros Hd; [done|].
  simpl in Hd. destruct (Ascii.ascii_dec c dot) as [|Hc]; [done|].
  change (String c base +:+ ".gltf") with (String c (base +:+ ".gltf")).
  rewrite (replaceFirst_other "glb") by done. f_equal. exact (IH Hd).
Qed.

Lemma modelName_glb (base : string) :
  hasChar dot base = false → modelName (base +:+ ".glb") = base.
Proof.
  intros Hd. unfold modelName.
  etrans; [|exact (replaceFirst_absent "gltf" base Hd)].
  f_equal. exact (replaceFirst_suffix "glb" base Hd).
Qed.

Lemma modelName_gltf (base : string) :
  hasChar dot base = false → modelName (base +:+ ".gltf") = base.
Proof.
  intros Hd. unfold modelName.
  rewrite (replaceFirst_glb_gltf base Hd).
  exact (replaceFirst_suffix "gltf" base Hd).
Qed.

(** X24. Two files selected together whose names differ in the extension
    only, [.glb] and [.gltf], the part before it without a dot, get the
    same model name: the upload registers one model under that name, the
    second file's, which alone is draggable, while the containers of both
    are children of the product group. *)
Theorem upload_names_collide (onMobile : bool) (ops : list RegistryOp)
    (base : string) (model1 model2 : Object3D) :
  hasChar dot base = false →
  let s0 := registryRun ops (create onMobile) in
  let s := onchange [(base +:+ ".glb", Some model1);
                     (base +:+ ".gltf", Some model2)] s0 in
  modelName (base +:+ ".glb") = base
  ∧ modelName (base +:+ ".gltf") = base
  ∧ ∃ first second,
      first ≠ second
      ∧ loadedModels s.2 = [(base, second)]
      ∧ draggableList s.1 s.2 = [second]
      ∧ first ∈ children (obj s.1 (productGroup s.2))
      ∧ second ∈ children (obj s.1 (productGroup s.2)).
Proof.
  intros Hd s0 s.
  refine (conj (modelName_glb base Hd) (conj (modelName_gltf base Hd) _)).
  unfold s, onchange. cbn [foldl fst snd].
  rewrite (modelName_glb base Hd), (modelName_gltf base Hd).
  pose proof (run_consistent ops [] _ (create_consistent onMobile)) as C0.
  fold s0 in C0.
  pose proof (clear_consistent _ s0 C0) as C1.
  set (s1 := clearExistingModels s0.1 s0.2) in *.
  assert (E1 : loadedModels s1.2 = []).
  { destruct C1 as (_ & _ & _ & Hn & _).
    destruct (loadedModels s1.2) as [|[k v] l]; [done|].
    exfalso. apply (elem_of_nil k), Hn. by left. }
  pose proof (load_consistent [] base model1 s1 C1) as C2.
  destruct C1 as (Hpg1 & (m1 & Hm1 & _) & _).
  destruct (loadModel_effect base model1 s1.1 s1.2 m1 Hm1 Hpg1)
    as (c1 & _ & Hl1 & Hmap1 & Hg1 & Hch1 & _).
  set (s2 := loadModel base model1 s1.1 s1.2) in *.
  destruct C2 as (Hpg2 & (m2 & Hm2 & _) & _).
  destruct (loadModel_effect base model2 s2.1 s2.2 m2 Hm2 Hpg2)
    as (c2 & Hf2 & _ & Hmap2 & Hg2 & Hch2 & _ & m3 & Hm3 & Harr3).
  set (s3 := loadModel base model2 s2.1 s2.2) in *.
  assert (E3 : loadedModels s3.2 = [(base, c2)]).
  { rewrite Hmap2, Hmap1, E1. simpl. by rewrite decide_True. }
  exists c1, c2. refine (conj _ (conj E3 (conj _ (conj _ _)))).
  - intros ->. destruct Hl1 as [o Ho]. congruence.
  - unfold draggableList. rewrite Hm3, Harr3. unfold values. by rewrite E3.
  - rewrite Hg2, Hch2, Hg1, Hch1. apply elem_of_app. left.
    apply elem_of_app. right. by left.
  - rewrite Hg2, Hch2. apply elem_of_app. right. by left.
Qed.

(** The files [blade.glb] and [blade.gltf] selected on a new viewer. *)
Lemma upload_names_collide_witness :
  hasChar dot "blade" = false
  ∧ modelName "blade.glb" = "blade"
  ∧ modelName "blade.gltf" = "blade".
Proof.
  assert (H : hasChar dot "blade" = false) by reflexivity.
  split; [exact H|].
  destruct (upload_names_collide false [] "blade" (newGroup "Scene")
              (newGroup "Scene") H) as (H1 & H2 & _).
  split; [exact H1 | exact H2].
Defined.

End UploadFacts.

(** ** Rounding *)

Module DoubleFacts.
Import PrimFloat Doubles.

Local Open Scope float_scope.

Lemma dragMoves_from (hits : list (option Vector3)) (p L : Vector3) :
  position (dragMoves hits (mkDrag p (Some L)))
  = foldl add p (differences (L :: omap id hits))
  ∧ lastDragPoint (dragMoves hits (mkDrag p (Some L)))
    = Some (default L (last (omap id hits))).
Proof.
  revert p L. induction hits as [|[P|] hits IH]; intros p L; [done| |].
  - destruct (IH (add p (subVectors P L)) P) as [H1 H2].
    split; [exact H1|].
    etrans; [exact H2|]. f_equal. symmetry.
    apply (ThreeFacts.default_last_cons L P).
  - apply (IH p L).
Qed.

(** The closed form of a drag holds in doubles as it does in exact
    arithmetic: the differences of the intersections, added in turn. *)
Lemma drag_accumulates_in_doubles (hits : list (option Vector3)) (p : Vector3) :
  position (dragMoves hits (mkDrag p None))
  = foldl add p (differences (omap id hits))
  ∧ lastDragPoint (dragMoves hits (mkDrag p None)) = last (omap id hits).
Proof.
  induction hits as [|[P|] hits IH]; [done| |].
  - destruct (dragMoves_from hits p P) as [H1 H2].
    split; [exact H1|].
    etrans; [exact H2|]. apply ThreeFacts.Some_default_last.
  - exact IH.
Qed.

(** A frame in rotation mode writes, in doubles as in exact arithmetic,
    the product of the controller's orientation, the conjugate of its
    snapshot and the object's snapshot, and keeps the snapshots. *)
Lemma update_from_snapshots (C0 O0 C1 : Quaternion) :
  let s := update C1 (onControllerSqueezeStart C0 O0) in
  objectQuaternion s = multiply (multiply C1 (invert C0)) O0
  ∧ startControllerQuaternion s = C0
  ∧ startObjectQuaternion s = O0.
Proof. done. Qed.



End DoubleFacts.
